(** * fswatch: the path index (crit-bit tree) and the watcher built on it

    A shallow embedding of [tree.go], [info.go], [watcher.go] and the
    backend files of the fswatch package, with the properties of the
    natural-language specification proved (or refuted) against it. *)

From Stdlib Require Import ZArith Lia Bool Strings.Byte String.
From stdpp Require Import base option list sorting gmap.

Local Open Scope Z_scope.

(** ** Bytes and paths

    A Go [string] is a sequence of bytes; [key[i]] is an unsigned byte. *)

Abbreviation path := (list byte).

Definition byte_val (b : byte) : Z := Z.of_N (Byte.to_N b).

#[global] Instance byte_eq_dec : EqDecision byte.
Proof. exact Byte.byte_eq_dec. Defined.

Definition bytes (s : string) : path := list_byte_of_string s.

(** [os.PathSeparator] on the platforms of the inotify and kqueue backends. *)
Definition PathSeparator : byte := "/"%byte.

(** ** info.go *)

Definition ignored : Z := 1.
Definition explicit : Z := 2.
Definition recurse : Z := 4.

(** [os.ModeDir] is the top bit of the 32-bit [os.FileMode]. *)
Definition ModeDir : Z := Z.shiftl 1 31.

(** [watch] holds the descriptor of the kernel watch; a nil pointer is [None]. *)
Record info := mkInfo {
  watch : option Z;
  ipath : path;
  mode : Z;
  modt : Z;
  size : Z;
  flags : Z
}.

Definition IsDir (i : info) : bool := negb (Z.land (mode i) ModeDir =? 0).
Definition Ignored (i : info) : bool := negb (Z.land (flags i) ignored =? 0).

(** ** tree.go *)

(** A [ref] holds either an info or a node pointer; every reader tests
    [node != nil] first, so a ref with a node is a branch. *)
Inductive ref :=
| Leaf (i : info)
| Node (c0 c1 : ref) (off : nat) (bit : Z).

(** [t.root] is a pointer to a [ref]; nil is the empty tree. *)
Abbreviation tree := (option ref).

Definition replaceSep (ch : Z) : Z :=
  if ch =? byte_val PathSeparator then 1 else ch.

(** [dir] returns the byte 0 or 1; [true] stands for 1. *)
Definition dir (off : nat) (bit : Z) (key : path) : bool :=
  match key !! off with
  | Some b => negb (Z.land (replaceSep (byte_val b)) bit =? 0)
  | None => false
  end.

Definition child (c0 c1 : ref) (d : bool) : ref := if d then c1 else c0.

(** The "walk for best member" loop of [get] and [insert]. *)
Fixpoint best (p : ref) (key : path) : info :=
  match p with
  | Leaf i => i
  | Node c0 c1 off bit => best (child c0 c1 (dir off bit key)) key
  end.

Definition path_eqb (p q : path) : bool := bool_decide (p = q).

Definition get (t : tree) (key : path) : option info :=
  match t with
  | None => None
  | Some r =>
      let i := best r key in
      if path_eqb key (ipath i) then Some i else None
  end.

(** The byte of [insert]'s member at [off], 0 past its end. *)
Definition member_ch (ppath : path) (off : nat) : Z :=
  match ppath !! off with
  | Some b => replaceSep (byte_val b)
  | None => 0
  end.

(** The "find differing byte" loop: [n] counts the iterations left, i.e.
    [len(info.path) - off].  The result is [(off, ch, bit)] at the label
    [ByteFound]. *)
Fixpoint diff_loop (ppath kpath : path) (off n : nat) : option (nat * Z * Z) :=
  match n with
  | O => None
  | S n' =>
      let ch := member_ch ppath off in
      let keych := member_ch kpath off in
      if ch =? keych then diff_loop ppath kpath (S off) n'
      else Some (off, ch, Z.lxor ch keych)
  end.

Definition find_byte (ppath kpath : path) : option (nat * Z * Z) :=
  match diff_loop ppath kpath 0 (length kpath) with
  | Some r => Some r
  | None =>
      let off := length kpath in
      if (off <? length ppath)%nat
      then let ch := member_ch ppath off in Some (off, ch, ch)
      else None
  end.

(** The "find differing bit" lines: the highest set bit of [bit]. *)
Definition top_bit (bit : Z) : Z :=
  let bit := Z.lor bit (Z.shiftr bit 1) in
  let bit := Z.lor bit (Z.shiftr bit 2) in
  let bit := Z.lor bit (Z.shiftr bit 4) in
  Z.ldiff bit (Z.shiftr bit 1).

(** [nn] with [nn.child[1-ndir].info = info] and [nn.child[ndir] = *wp]. *)
Definition new_node (wp : ref) (i : info) (off : nat) (bit : Z) (ndir : bool) : ref :=
  if ndir then Node (Leaf i) wp off bit else Node wp (Leaf i) off bit.

(** The "walk for best insertion node" loop followed by the splice. *)
Fixpoint insert_at (wp : ref) (i : info) (off : nat) (bit : Z) (ndir : bool) : ref :=
  match wp with
  | Leaf _ => new_node wp i off bit ndir
  | Node c0 c1 noff nbit =>
      if (off <? noff)%nat || ((noff =? off)%nat && (nbit <? bit))
      then new_node wp i off bit ndir
      else if dir noff nbit (ipath i)
           then Node c0 (insert_at c1 i off bit ndir) noff nbit
           else Node (insert_at c0 i off bit ndir) c1 noff nbit
  end.

Definition insert (t : tree) (i : info) : tree * option info :=
  match t with
  | None => (Some (Leaf i), None)
  | Some r =>
      let p := best r (ipath i) in
      match find_byte (ipath p) (ipath i) with
      | None => (t, Some p)
      | Some (off, ch, bit0) =>
          let bit := top_bit bit0 in
          let ndir := negb (Z.land ch bit =? 0) in
          (Some (insert_at r i off bit ndir), None)
      end
  end.

(** *** Pointers into the tree

    [deleteAll] keeps pointers to [ref] slots of the tree ([t.root] or a
    [child] slot of a node) and writes through them.  A slot is named by the
    directions that lead to it from the root; a pointer is carried together
    with the value it points to. *)

Abbreviation loc := (list bool).

Fixpoint ref_set (r : ref) (l : loc) (new : ref) : ref :=
  match l, r with
  | [], _ => new
  | d :: l', Node c0 c1 off bit =>
      if d then Node c0 (ref_set c1 l' new) off bit
      else Node (ref_set c0 l' new) c1 off bit
  | _ :: _, Leaf _ => r
  end.

(** State of the first loop of [deleteAll]: [wp] (nil is [None]; else the
    slot and the children of the node in it) and [dir]. *)
Record parent := mkParent { p_loc : loc; p_c0 : ref; p_c1 : ref }.

Fixpoint member_loop (p : ref) (here : loc) (wp : option parent) (d : bool)
    (key : path) : option parent * bool * info :=
  match p with
  | Leaf i => (wp, d, i)
  | Node c0 c1 off bit =>
      let d' := dir off bit key in
      member_loop (child c0 c1 d') (here ++ [d']) (Some (mkParent here c0 c1)) d' key
  end.

(** [*wp = wp.node.child[1-dir]], or [t.root = nil] when [wp] is nil. *)
Definition unlink (r : ref) (wp : option parent) (d : bool) : tree :=
  match wp with
  | None => None
  | Some w => Some (ref_set r (p_loc w) (child (p_c0 w) (p_c1 w) (negb d)))
  end.

(** The second loop of [deleteAll]; [p] is at slot [here].  Note that the
    source descends with [child[dir]], the direction of the previous
    iteration that moved [top], not with [ndir]. *)
Fixpoint subtree_loop (p : ref) (here : loc) (top : ref) (wp : option parent)
    (d : bool) (root : path) : info * ref * option parent * bool :=
  match p with
  | Leaf i => (i, top, wp, d)
  | Node c0 c1 off bit =>
      let newtop := (off <? length root)%nat in
      let wp' := if newtop then Some (mkParent here c0 c1) else wp in
      let ndir := dir off bit root in
      let p' := child c0 c1 d in
      if newtop then subtree_loop p' (here ++ [d]) p' wp' ndir root
      else subtree_loop p' (here ++ [d]) top wp' d root
  end.

(** [len(path) >= len(root)] and [path[i] == root[i]] for every [i < len(root)]. *)
Fixpoint has_prefix (p root : path) {struct root} : bool :=
  match root, p with
  | [], _ => true
  | b :: root', c :: p' => bool_decide (c = b) && has_prefix p' root'
  | _ :: _, [] => false
  end.

Section Visitors.
Context {S : Type}.

(** The handler of [deleteAll] is a closure over the caller's
    variables; [S] is the state it closes over. *)
Fixpoint deliter (p : ref) (f : info -> S -> S) (s : S) : S :=
  match p with
  | Node c0 c1 _ _ => deliter c1 f (deliter c0 f s)
  | Leaf i => f i s
  end.

Definition deleteAll (t : tree) (root : path) (f : info -> S -> S) (s : S)
    : tree * S :=
  match t with
  | None => (None, s)
  | Some r =>
      let '(wp, d, i) := member_loop r [] None false root in
      if negb (path_eqb root (ipath i)) then (t, s) else
      let t1 := unlink r wp d in
      let s := f i s in
      match t1, wp with
      | Some r1, Some w =>
          if negb (IsDir i) then (t1, s) else
          let root := root ++ [PathSeparator] in
          let p := child (p_c0 w) (p_c1 w) (negb d) in
          let '(pi, top, wp2, d2) := subtree_loop p (p_loc w) p None d root in
          if negb (has_prefix (ipath pi) root) then (t1, s) else
          (unlink r1 wp2 d2, deliter top f s)
      | _, _ => (t1, s)
      end
  end.
End Visitors.

(** ** Errors (the [error] values of the package) *)

Inductive error :=
| SkipDir
| ErrClosed
| ErrNotDir
| ErrOverflow
| ErrNotExist
| PathError (op : string) (p : path) (err : error)
| SyscallError (name : string) (errno : Z)
| Errno (errno : Z)
| Panic
| skip (s : path).

Definition is_SkipDir (e : option error) : bool :=
  match e with Some SkipDir => true | _ => false end.

Definition not_exist (root : path) : option error :=
  Some (PathError "stat" root ErrNotExist).

Section Walk.
Context {S : Type}.

(** A visitor [func(FileInfo) error] closing over state [S]. *)
Definition visitor := info -> S -> S * option error.

(** The [Skips] loop: some skip path is a prefix of [path]. *)
Definition skipped (skips : list path) (p : path) : bool :=
  existsb (has_prefix p) skips.

Definition visit_leaf (i : info) (f : visitor) (skips : list path) (s : S)
    : S * option error :=
  if skipped skips (ipath i) then (s, None) else
  if Ignored i then (s, None) else
  let '(s, err) := f i s in
  if is_SkipDir err && IsDir i
  then (s, Some (skip (ipath i ++ [PathSeparator])))
  else (s, err).

(** The loop [for i := 0; i < 2; i++] is unrolled. *)
Fixpoint walkiter (p : ref) (f : visitor) (skips : list path) (s : S)
    : S * option error :=
  match p with
  | Node c0 c1 _ _ =>
      let second skips s :=
        let '(s, err) := walkiter c1 f skips s in
        match err with
        | None => (s, None)
        | Some (skip _) => (s, None)
        | Some e => (s, Some e)
        end in
      let '(s, err) := walkiter c0 f skips s in
      match err with
      | None => second skips s
      | Some (skip e) => second (skips ++ [e]) s
      | Some e => (s, Some e)
      end
  | Leaf i => visit_leaf i f skips s
  end.

(** The "walk for best member" loop of [walk]. *)
Fixpoint top_loop (p top : ref) (root : path) : info * ref :=
  match p with
  | Leaf i => (i, top)
  | Node c0 c1 off bit =>
      let newtop := (off <? length root)%nat in
      let p' := child c0 c1 (dir off bit root) in
      top_loop p' (if newtop then p' else top) root
  end.

Definition walk (t : tree) (root : path) (f : visitor) (s : S)
    : S * option error :=
  match get t root, t with
  | Some fi, Some r =>
      if Ignored fi then (s, not_exist root) else
      let '(s, err) := f fi s in
      if negb (IsDir fi) || bool_decide (err <> None) then (s, err) else
      let root := root ++ [PathSeparator] in
      let '(pi, top) := top_loop r r root in
      if negb (has_prefix (ipath pi) root) then (s, None)
      else walkiter top f [] s
  | _, _ => (s, not_exist root)
  end.
End Walk.


(** ** path/filepath.Clean

    Modelled from the documentation of the Go standard library (the function
    is not part of this repository): multiple separators become one, [.]
    elements are dropped, an inner [..] element is dropped together with the
    element before it, [..] elements that begin a rooted path are dropped,
    and the empty result is [.]. *)

Definition dot : byte := "."%byte.

Fixpoint split_sep (p : path) : list path :=
  match p with
  | [] => [[]]
  | b :: p' =>
      if bool_decide (b = PathSeparator) then [] :: split_sep p'
      else match split_sep p' with
           | n :: ns => (b :: n) :: ns
           | [] => [[b]]
           end
  end.

(** [stack] holds the elements written so far, the last one first. *)
Fixpoint clean_elems (rooted : bool) (elems stack : list path) : list path :=
  match elems with
  | [] => stack
  | e :: rest =>
      if bool_decide (e = []) then clean_elems rooted rest stack
      else if bool_decide (e = [dot]) then clean_elems rooted rest stack
      else if bool_decide (e = [dot; dot]) then
        match stack with
        | top :: stack' =>
            if bool_decide (top = [dot; dot])
            then clean_elems rooted rest (e :: stack)
            else clean_elems rooted rest stack'
        | [] =>
            if rooted then clean_elems rooted rest stack
            else clean_elems rooted rest [e]
        end
      else clean_elems rooted rest (e :: stack)
  end.

Fixpoint join_sep (elems : list path) : path :=
  match elems with
  | [] => []
  | [e] => e
  | e :: rest => e ++ PathSeparator :: join_sep rest
  end.

Definition is_rooted (p : path) : bool :=
  match p with
  | b :: _ => bool_decide (b = PathSeparator)
  | [] => false
  end.

Definition Clean (p : path) : path :=
  let rooted := is_rooted p in
  let body := join_sep (rev (clean_elems rooted (split_sep p) [])) in
  if rooted then PathSeparator :: body
  else match body with
       | [] => [dot]
       | _ => body
       end.

(** ** The watcher

    The fields of [watcher] that the inotify and kqueue backends share.  The
    calls of the callbacks [Context.Handle] and [Context.Error] are recorded
    in [w_events] and [w_errors]. *)

Inductive Event := Create | Modify | Delete.

(** What a function sent on the [signal] channel does when the dispatcher
    runs it. *)
Inductive signal_fn :=
| sig_close (fd : Z).

Record watcher := mkWatcher {
  w_fd : Z;
  w_tree : tree;
  w_fdmap : option (gmap Z info);
  w_signal : list signal_fn;
  w_events : list (Event * info);
  w_errors : list error
}.

(** ** watcher.go *)

Definition Get (w : watcher) (p : path) : option info :=
  let p := Clean p in
  match get (w_tree w) p with
  | Some fi => if Ignored fi then None else Some fi
  | None => None
  end.

Definition Lstat (w : watcher) (p : path) : option info * option error :=
  match Get w p with
  | Some i => (Some i, None)
  | None => (None, Some (PathError "stat" p ErrNotExist))
  end.

Definition Traverse {S} (w : watcher) (root : path) (travFn : @visitor S) (s : S)
    : S * option error :=
  walk (w_tree w) (Clean root) travFn s.

(** [filepath.WalkFunc], closing over state [S]. *)
Definition WalkFunc (S : Type) : Type :=
  path -> option info -> option error -> S -> S * option error.

(** The closure that [Walk] hands to [Traverse]; it also sets [found]. *)
Definition walk_trav {S} (walkFn : WalkFunc S) : @visitor (S * bool) :=
  fun i st =>
    let '(s', e) := walkFn (ipath i) (Some i) None (fst st) in
    ((s', true), e).

Definition Walk {S} (w : watcher) (root : path) (walkFn : WalkFunc S) (s : S)
    : S * option error :=
  let '((s, found), err) := Traverse w root (walk_trav walkFn) (s, false) in
  if negb found then walkFn root None err s else (s, err).

(** ** The environment: file system and kernel

    A static file system in which every directory can be read, and a kernel
    that hands out watch descriptors.  [os.Lstat], [filepath.Walk],
    [filepath.Join], [filepath.Split] and the system calls are modelled from
    their documentation; they are not part of this repository. *)

Record FileInfo := mkFileInfo { fi_mode : Z; fi_modt : Z; fi_size : Z }.

Definition fi_IsDir (fi : FileInfo) : bool := negb (Z.land (fi_mode fi) ModeDir =? 0).

(** The entries of a directory come in the order [readDirNames] returns them. *)
Inductive fnode :=
| FFile (fi : FileInfo)
| FDir (fi : FileInfo) (ents : fents)
with fents :=
| fnil
| fcons (name : path) (n : fnode) (rest : fents).

Definition node_isdir (n : fnode) : bool :=
  match n with
  | FDir _ _ => true
  | FFile _ => false
  end.

Definition node_info (n : fnode) : FileInfo :=
  match n with
  | FFile fi => mkFileInfo (Z.ldiff (fi_mode fi) ModeDir) (fi_modt fi) (fi_size fi)
  | FDir fi _ => mkFileInfo (Z.lor (fi_mode fi) ModeDir) (fi_modt fi) (fi_size fi)
  end.

Fixpoint fents_find (es : fents) (name : path) : option fnode :=
  match es with
  | fnil => None
  | fcons n c rest => if path_eqb n name then Some c else fents_find rest name
  end.

(** Path resolution, from the root directory, element by element. *)
Fixpoint fs_find (n : fnode) (elems : list path) : option fnode :=
  match elems with
  | [] => Some n
  | e :: rest =>
      if bool_decide (e = []) || bool_decide (e = [dot]) then fs_find n rest
      else match n with
           | FDir _ es =>
               match fents_find es e with
               | Some c => fs_find c rest
               | None => None
               end
           | FFile _ => None
           end
  end.

Definition ENOENT : Z := 2.
Definition EINVAL : Z := 22.
Definition EBADF : Z := 9.

Definition os_Lstat (fs : fnode) (p : path) : FileInfo + error :=
  match fs_find fs (split_sep p) with
  | Some n => inl (node_info n)
  | None => inr (PathError "lstat" p ErrNotExist)
  end.

Definition IsNotExist (e : error) : bool :=
  match e with
  | ErrNotExist => true
  | PathError _ _ ErrNotExist => true
  | SyscallError _ n => n =? ENOENT
  | Errno n => n =? ENOENT
  | _ => false
  end.

Definition Join (a b : path) : path :=
  match a with
  | [] => Clean b
  | _ => Clean (a ++ PathSeparator :: b)
  end.

(** [filepath.Split]: the directory part ends with the last separator. *)
Fixpoint Split (p : path) : path * path :=
  match p with
  | [] => ([], [])
  | b :: p' =>
      let '(d, f) := Split p' in
      if bool_decide (b = PathSeparator) then (b :: d, f)
      else match d with
           | [] => ([], b :: f)
           | _ => (b :: d, f)
           end
  end.

Section FilepathWalk.
Context {S : Type}.

Definition FsWalkFunc : Type :=
  path -> option FileInfo -> option error -> S -> S * option error.

(** [walk] of path/filepath: a [SkipDir] from a directory skips it, a
    [SkipDir] from a file skips the rest of the directory that holds it. *)
Fixpoint fwalk (n : fnode) (p : path) (fn : FsWalkFunc) (s : S) {struct n}
    : S * option error :=
  match n with
  | FFile _ => fn p (Some (node_info n)) None s
  | FDir _ es =>
      let '(s, err1) := fn p (Some (node_info n)) None s in
      match err1 with
      | Some e => (s, Some e)
      | None => fwalk_ents es p fn s
      end
  end
with fwalk_ents (es : fents) (p : path) (fn : FsWalkFunc) (s : S) {struct es}
    : S * option error :=
  match es with
  | fnil => (s, None)
  | fcons name c rest =>
      let '(s, err) := fwalk c (Join p name) fn s in
      match err with
      | None => fwalk_ents rest p fn s
      | Some e =>
          if node_isdir c && is_SkipDir (Some e) then fwalk_ents rest p fn s
          else (s, Some e)
      end
  end.

Definition filepath_Walk (fs : fnode) (root : path) (fn : FsWalkFunc) (s : S)
    : S * option error :=
  let '(s, err) :=
    match fs_find fs (split_sep root) with
    | None => fn root None (Some (PathError "lstat" root ErrNotExist)) s
    | Some n => fwalk n root fn s
    end in
  if is_SkipDir err then (s, None) else (s, err).
End FilepathWalk.

(** The kernel side of the watches: whether the descriptor of the watcher
    ([w.fd]) is open, the watch descriptors handed out and the path each one
    stands for. *)
Record kernel := mkKernel { k_open : bool; k_next : Z; k_watches : gmap Z path }.

Record sys := mkSys { kern : kernel; wat : watcher }.

Definition set_wat (st : sys) (w : watcher) : sys := mkSys (kern st) w.
Definition set_kern (st : sys) (k : kernel) : sys := mkSys k (wat st).

Definition set_tree (st : sys) (t : tree) : sys :=
  let w := wat st in
  set_wat st (mkWatcher (w_fd w) t (w_fdmap w) (w_signal w) (w_events w) (w_errors w)).

Definition set_fdmap (st : sys) (m : option (gmap Z info)) : sys :=
  let w := wat st in
  set_wat st (mkWatcher (w_fd w) (w_tree w) m (w_signal w) (w_events w) (w_errors w)).

Definition set_fd (st : sys) (fd : Z) : sys :=
  let w := wat st in
  set_wat st (mkWatcher fd (w_tree w) (w_fdmap w) (w_signal w) (w_events w) (w_errors w)).

Definition set_signal (st : sys) (q : list signal_fn) : sys :=
  let w := wat st in
  set_wat st (mkWatcher (w_fd w) (w_tree w) (w_fdmap w) q (w_events w) (w_errors w)).

(** [w.context.Error(err)] and [w.context.Handle(event, f)]. *)
Definition ctx_Error (st : sys) (e : error) : sys :=
  let w := wat st in
  set_wat st (mkWatcher (w_fd w) (w_tree w) (w_fdmap w) (w_signal w) (w_events w)
                        (w_errors w ++ [e])).

Definition ctx_Handle (st : sys) (ev : Event) (f : info) : sys :=
  let w := wat st in
  set_wat st (mkWatcher (w_fd w) (w_tree w) (w_fdmap w) (w_signal w)
                        (w_events w ++ [(ev, f)]) (w_errors w)).

(** *** Writes through an info pointer

    The tree and [fdmap] hold pointers to the same info objects.  The leaf
    of the tree is taken as the object; a write through a pointer to an
    object held by the tree replaces the leaf with that path, and the copy
    kept under its descriptor in [fdmap] with it. *)

Fixpoint set_leaf (r : ref) (i : info) : ref :=
  match r with
  | Leaf j => if path_eqb (ipath j) (ipath i) then Leaf i else r
  | Node c0 c1 off bit => Node (set_leaf c0 i) (set_leaf c1 i) off bit
  end.

Definition with_flags (i : info) (fl : Z) : info :=
  mkInfo (watch i) (ipath i) (mode i) (modt i) (size i) fl.

Definition with_watch (i : info) (wd : option Z) : info :=
  mkInfo wd (ipath i) (mode i) (modt i) (size i) (flags i).

Definition sync_fdmap (m : option (gmap Z info)) (old new : info)
    : option (gmap Z info) :=
  match m, watch old with
  | Some m', Some fd =>
      match m' !! fd with
      | Some x => if path_eqb (ipath x) (ipath old) then Some (<[fd := new]> m') else m
      | None => m
      end
  | _, _ => m
  end.

Definition write_info (st : sys) (old new : info) : sys :=
  let st := set_tree st (option_map (fun r => set_leaf r new) (w_tree (wat st))) in
  set_fdmap st (sync_fdmap (w_fdmap (wat st)) old new).

Definition newInfo (p : path) (fi : FileInfo) : info :=
  mkInfo None p (fi_mode fi) (fi_modt fi) (fi_size fi) 0.

(** ** The loader (shared by the backends) *)

Section Loader.
Variable fs : fnode.
(** [Context.Filter], a predicate on the entry. *)
Variable Filter : info -> bool.
(** The backend's [watchFilter] and [add]; [add] returns the info as
    written by it. *)
Variable watchFilter : info -> bool.
Variable add : sys -> info -> Z -> sys * info * option error.

Definition log_unless_not_exist (st : sys) (err : option error) : sys :=
  match err with
  | Some e => if IsNotExist e then st else ctx_Error st e
  | None => st
  end.

(** The closure handed to [filepath.Walk]; it closes over the watcher and
    [list]. *)
Definition walker (root : path) (lflags : Z) (event : option Event) (otherflags : Z)
    : @FsWalkFunc (sys * list info) :=
  fun p fi err s =>
    let '(st, list) := s in
    match err, fi with
    | Some e, _ => ((log_unless_not_exist st (Some e), list), None)
    | None, None => ((st, list), None)
    | None, Some fi =>
        if path_eqb p root then ((st, list), None) else
        let f := newInfo p fi in
        let ignore := negb (Filter f) in
        let '(t', dup) := insert (w_tree (wat st)) f in
        match dup with
        | Some _ => ((st, list), Some SkipDir)
        | None =>
            let st := set_tree st t' in
            if ignore then
              let st := write_info st f (with_flags f (Z.lor (flags f) ignored)) in
              ((st, list), if fi_IsDir fi then Some SkipDir else None)
            else
              let '(st, f) :=
                if watchFilter f then
                  let '(st, f', err) := add st f otherflags in
                  (log_unless_not_exist st err, f')
                else (st, f) in
              let list := match event with
                          | Some _ => list ++ [f]
                          | None => list
                          end in
              ((st, list),
               if fi_IsDir fi && (Z.land lflags recurse =? 0) then Some SkipDir else None)
        end
    end.

Definition loadImpl (st : sys) (root : path) (lflags : Z) (event : option Event)
    (rootflags otherflags : Z) : sys * option error :=
  match os_Lstat fs root with
  | inr err => (st, Some err)
  | inl fi =>
      if negb (fi_IsDir fi) && negb (Z.land lflags explicit =? 0)
      then (st, Some ErrNotDir) else
      let f := newInfo root fi in
      if negb (Filter f) then (st, None) else
      let f := with_flags f (Z.lor (flags f) lflags) in
      let '(t', dup) := insert (w_tree (wat st)) f in
      let st := set_tree st t' in
      let '(st, f) :=
        match dup with
        | Some d =>
            let d' := with_flags d (Z.lor (flags d) (flags f)) in
            (write_info st d d', d')
        | None =>
            if watchFilter f then
              let '(st, f', err) := add st f rootflags in
              (log_unless_not_exist st err, f')
            else (st, f)
        end in
      let '((st, list), err) :=
        filepath_Walk fs root (walker root lflags event otherflags) (st, []) in
      let st :=
        match event with
        | Some ev =>
            let st := match dup with
                      | None => ctx_Handle st ev f
                      | Some _ => st
                      end in
            fold_left (fun st f => ctx_Handle st ev f) list st
        | None => st
        end in
      (st, err)
  end.
End Loader.

(** [fiFlags] of [load]. *)
Definition load_flags (recursive : bool) : Z :=
  if recursive then Z.lor explicit recurse else explicit.

Definition find_wd (m : gmap Z path) (p : path) : option Z :=
  fst <$> head (filter (fun kv => snd kv = p) (map_to_list m)).

(** [m[fd] = nfo] on a map that may be nil. *)
Definition fdmap_set (m : option (gmap Z info)) (fd : Z) (nfo : info)
    : option (option (gmap Z info)) :=
  match m with
  | Some m' => Some (Some (<[fd := nfo]> m'))
  | None => None
  end.

(** [delete(m, fd)]; a no-op on a nil map. *)
Definition fdmap_delete (m : option (gmap Z info)) (fd : Z) : option (gmap Z info) :=
  match m with
  | Some m' => Some (delete fd m')
  | None => None
  end.

Definition fdmap_values (m : option (gmap Z info)) : list info :=
  match m with
  | Some m' => snd <$> map_to_list m'
  | None => []
  end.

(** ** The inotify backend *)

Module Inotify.

Definition IN_ATTRIB : Z := 4.
Definition IN_CLOSE_WRITE : Z := 8.
Definition IN_MOVED_FROM : Z := 64.
Definition IN_MOVED_TO : Z := 128.
Definition IN_CREATE : Z := 256.
Definition IN_DELETE : Z := 512.
Definition IN_DELETE_SELF : Z := 1024.
Definition IN_EXCL_UNLINK : Z := 67108864.

Definition createFlags : Z := Z.lor IN_CREATE IN_MOVED_TO.
Definition modifyFlags : Z := Z.lor IN_CLOSE_WRITE IN_ATTRIB.
Definition deleteFlags : Z := Z.lor (Z.lor IN_MOVED_FROM IN_DELETE) IN_DELETE_SELF.
Definition allFlags : Z :=
  Z.lor (Z.lxor (Z.lor (Z.lor createFlags modifyFlags) deleteFlags) IN_DELETE_SELF)
        IN_EXCL_UNLINK.

Definition watchFilter (i : info) : bool := negb (Z.land (mode i) ModeDir =? 0).

Section Backend.
Variable fs : fnode.
Variable Filter : info -> bool.

(** [inotify_add_watch]: the same path gets the same descriptor again. *)
Definition InotifyAddWatch (k : kernel) (p : path) (mask : Z) : kernel * (Z + Z) :=
  if negb (k_open k) then (k, inr EBADF) else
  match fs_find fs (split_sep p) with
  | None => (k, inr ENOENT)
  | Some _ =>
      match find_wd (k_watches k) p with
      | Some wd => (k, inl wd)
      | None => (mkKernel (k_open k) (k_next k + 1) (<[k_next k := p]> (k_watches k)),
                 inl (k_next k))
      end
  end.

Definition InotifyRmWatch (k : kernel) (wd : Z) : kernel * option Z :=
  if negb (k_open k) then (k, Some EBADF) else
  match k_watches k !! wd with
  | Some _ => (mkKernel (k_open k) (k_next k) (delete wd (k_watches k)), None)
  | None => (k, Some EINVAL)
  end.

(** [syscall.Close(w.fd)]: closing the inotify instance frees its watches. *)
Definition close_fd (k : kernel) : kernel * option Z :=
  if k_open k then (mkKernel false (k_next k) ∅, None) else (k, Some EBADF).

Definition add (st : sys) (nfo : info) (flgs : Z) : sys * info * option error :=
  let '(k, r) := InotifyAddWatch (kern st) (ipath nfo) flgs in
  match r with
  | inr e => (st, nfo, Some (SyscallError "InotifyAddWatch" e))
  | inl fd =>
      let st := set_kern st k in
      let nfo' := with_watch nfo (Some fd) in
      let st := set_tree st (option_map (fun r => set_leaf r nfo') (w_tree (wat st))) in
      match fdmap_set (w_fdmap (wat st)) fd nfo' with
      | Some m => (set_fdmap st m, nfo', None)
      | None => (st, nfo', Some Panic)
      end
  end.

Definition rm (st : sys) (nfo : info) : sys * option error :=
  match watch nfo with
  | None => (st, Some Panic)
  | Some wd =>
      let '(k, r) := InotifyRmWatch (kern st) wd in
      match r with
      | Some e => (st, Some (SyscallError "InotifyRmWatch" e))
      | None =>
          let st := set_kern st k in
          (set_fdmap st (fdmap_delete (w_fdmap (wat st)) wd), None)
      end
  end.

(** [None] stands for the index out of range on a path without separator,
    a run-time panic. *)
Definition hasParentWatch (w : watcher) (p : path) : option bool :=
  let '(d, _) := Split p in
  match last d with
  | None => None
  | Some b =>
      let d := if bool_decide (b = PathSeparator) then removelast d else d in
      Some (bool_decide (get (w_tree w) d <> None))
  end.

(** The embedding is sequential and carries no mutex: the lock pairs of
    the source are left out.  The panic of [hasParentWatch] leaves [load]
    between [w.mutex.RLock()] and [w.mutex.RUnlock()], which is not
    deferred; the state that comes with [Panic] gives the fields of the
    watcher as the panic found them and says nothing of that lock. *)
Definition load (st : sys) (p : path) (recursive : bool) : sys * option error :=
  match hasParentWatch (wat st) p with
  | None => (st, Some Panic)
  | Some parent =>
      let rootFlags := if parent then allFlags else Z.lor allFlags IN_DELETE_SELF in
      if w_fd (wat st) =? -1 then (st, Some ErrClosed) else
      let '(st, err) :=
        loadImpl fs Filter watchFilter add st p (load_flags recursive) None
                 rootFlags allFlags in
      if is_SkipDir err then (st, None) else (st, err)
  end.

(** The handler that [unload] gives to [deleteAll]; it closes over the
    watcher and [reload]. *)
Definition unload_handler (p : path) (recursive : bool) (nfo : info)
    (s : sys * list info) : sys * list info :=
  let '(st, reload) := s in
  let reload :=
    if negb recursive && negb (Z.land (flags nfo) explicit =? 0)
       && negb (path_eqb (ipath nfo) p)
    then reload ++ [nfo] else reload in
  match watch nfo with
  | Some _ =>
      let '(st, err) := rm st nfo in
      (match err with
       | Some e => ctx_Error st e
       | None => st
       end, reload)
  | None => (st, reload)
  end.

Definition reload_one (st : sys) (nfo : info) : sys :=
  let '(st, err) :=
    loadImpl fs Filter watchFilter add st (ipath nfo)
             (Z.land (flags nfo) (Z.lor recurse explicit)) None allFlags allFlags in
  match err with
  | Some e => ctx_Error st e
  | None => st
  end.

Definition unload (st : sys) (p : path) (recursive : bool) : sys * option error :=
  let w := wat st in
  if w_fd w =? -1 then (st, Some ErrClosed) else
  match get (w_tree w) p with
  | None => (st, None)
  | Some nfo =>
      match watch nfo with
      | None => (st, None)
      | Some _ =>
          let '(st, err) := rm st nfo in
          let nfo' := with_watch nfo None in
          let st := write_info st nfo nfo' in
          let '(t', (st, reload)) :=
            deleteAll (w_tree (wat st)) (ipath nfo') (unload_handler p recursive)
                      (st, []) in
          let st := set_tree st t' in
          (fold_left reload_one reload st, err)
      end
  end.

(** [None]: the call blocks, the signal channel (capacity 1) being full. *)
Definition close (st : sys) : option (sys * option error) :=
  let w := wat st in
  if w_fd w =? -1 then Some (st, Some ErrClosed) else
  let prep :=
    match w_tree w with
    | Some _ => inl st
    | None =>
        let '(k, r) := InotifyAddWatch (kern st) [PathSeparator] IN_DELETE_SELF in
        match r with
        | inr e => inr (SyscallError "InotifyAddWatch" e)
        | inl fd =>
            let nfo := mkInfo (Some fd) [PathSeparator] 0 0 0 0 in
            match fdmap_set (w_fdmap w) fd nfo with
            | Some m => inl (set_fdmap (set_kern st k) m)
            | None => inr Panic
            end
        end
    end in
  match prep with
  | inr e => Some (st, Some e)
  | inl st =>
      match w_signal (wat st) with
      | _ :: _ => None
      | [] =>
          let st := set_signal st [sig_close (w_fd (wat st))] in
          let st :=
            fold_left (fun st nfo =>
                         let '(st, err) := rm st nfo in
                         match err with
                         | Some e => ctx_Error st e
                         | None => st
                         end)
                      (fdmap_values (w_fdmap (wat st))) st in
          Some (st, None)
      end
  end.

(** The dispatcher's [select] on the signal channel: it runs the function
    it receives, here the one sent by [close]. *)
Definition run_signal (st : sys) : sys :=
  match w_signal (wat st) with
  | [] => st
  | sig_close _ :: q =>
      let st := set_signal st q in
      let '(k, r) := close_fd (kern st) in
      let st := set_kern st k in
      let st := match r with
                | Some e => ctx_Error st (SyscallError "Close" e)
                | None => st
                end in
      set_fdmap (set_fd st (-1)) None
  end.

(** [Watcher.Load], [Watcher.Unload] and [Watcher.Close] of watcher.go. *)
Definition Load (st : sys) (p : path) (recursive : bool) : sys * option error :=
  load st (Clean p) recursive.

Definition Unload (st : sys) (p : path) (recursive : bool) : sys * option error :=
  unload st (Clean p) recursive.

Definition Close (st : sys) : option (sys * option error) := close st.

End Backend.
End Inotify.

(** ** The kqueue backend *)

Module Kqueue.

Definition allFlags : Z := 127.

Definition watchFilter (nfo : info) : bool := true.

Section Backend.
Variable fs : fnode.
Variable Filter : info -> bool.

(** [syscall.Open]: a new descriptor for the file at [p]. *)
Definition sys_Open (k : kernel) (p : path) : kernel * (Z + Z) :=
  match fs_find fs (split_sep p) with
  | None => (k, inr ENOENT)
  | Some _ => (mkKernel (k_open k) (k_next k + 1) (<[k_next k := p]> (k_watches k)),
               inl (k_next k))
  end.

(** [syscall.Close] of a watch descriptor. *)
Definition sys_Close (k : kernel) (fd : Z) : kernel * option Z :=
  match k_watches k !! fd with
  | Some _ => (mkKernel (k_open k) (k_next k) (delete fd (k_watches k)), None)
  | None => (k, Some EBADF)
  end.

(** [syscall.Close] of the kqueue descriptor itself. *)
Definition close_fd (k : kernel) : kernel * option Z :=
  if k_open k then (mkKernel false (k_next k) (k_watches k), None) else (k, Some EBADF).

Definition add (st : sys) (nfo : info) (flgs : Z) : sys * info * option error :=
  let '(k, r) := sys_Open (kern st) (ipath nfo) in
  match r with
  | inr e => (st, nfo, Some (Errno e))
  | inl fd =>
      let st := set_kern st k in
      if negb (k_open k) then (st, nfo, Some (SyscallError "Kevent" EBADF)) else
      let nfo' := with_watch nfo (Some fd) in
      let st := set_tree st (option_map (fun r => set_leaf r nfo') (w_tree (wat st))) in
      match fdmap_set (w_fdmap (wat st)) fd nfo' with
      | Some m => (set_fdmap st m, nfo', None)
      | None => (st, nfo', Some Panic)
      end
  end.

Definition rm (st : sys) (nfo : info) : sys * option error :=
  match watch nfo with
  | None => (st, Some Panic)
  | Some fd =>
      let '(k, r) := sys_Close (kern st) fd in
      match r with
      | Some e => (st, Some (SyscallError "Close rm" e))
      | None =>
          let st := set_kern st k in
          (set_fdmap st (fdmap_delete (w_fdmap (wat st)) fd), None)
      end
  end.

Definition load (st : sys) (p : path) (recursive : bool) : sys * option error :=
  if w_fd (wat st) =? -1 then (st, Some ErrClosed) else
  let '(st, err) :=
    loadImpl fs Filter watchFilter add st p (load_flags recursive) None
             allFlags allFlags in
  if is_SkipDir err then (st, None) else (st, err).

Definition unload_handler (p : path) (recursive : bool) (nfo : info)
    (s : sys * list info) : sys * list info :=
  let '(st, reload) := s in
  if negb recursive && negb (Z.land (flags nfo) explicit =? 0)
     && negb (path_eqb (ipath nfo) p)
  then (st, reload ++ [nfo])
  else match watch nfo with
       | Some _ =>
           let '(st, err) := rm st nfo in
           (match err with
            | Some e => ctx_Error st e
            | None => st
            end, reload)
       | None => (st, reload)
       end.

Definition unload (st : sys) (p : path) (recursive : bool) : sys * option error :=
  let w := wat st in
  if w_fd w =? -1 then (st, Some ErrClosed) else
  match get (w_tree w) p with
  | None => (st, None)
  | Some nfo =>
      match watch nfo with
      | None => (st, None)
      | Some _ =>
          let '(st, err) := rm st nfo in
          let nfo' := with_watch nfo None in
          let st := write_info st nfo nfo' in
          let '(t', (st, reload)) :=
            deleteAll (w_tree (wat st)) (ipath nfo') (unload_handler p recursive)
                      (st, []) in
          let st := set_tree st t' in
          (fold_left (fun st nfo => set_tree st (fst (insert (w_tree (wat st)) nfo)))
                     reload st, err)
      end
  end.

(** [close] sends its function on [w.signal] before it takes [w.mutex], so
    the dispatcher can run that function before or after the loop of
    [close].  [close] is the schedule in which [close] gets the mutex
    first and the function stays on the channel; [close_late], below, is
    the other one.  [None]: the call blocks, the signal channel (capacity
    1) being full. *)
Definition close (st : sys) : option (sys * option error) :=
  let w := wat st in
  if w_fd w =? -1 then Some (st, Some ErrClosed) else
  match w_signal w with
  | _ :: _ => None
  | [] =>
      let st := set_signal st [sig_close (w_fd w)] in
      let st :=
        fold_left (fun st nfo =>
                     let '(st, err) := rm st nfo in
                     match err with
                     | Some e => ctx_Error st e
                     | None => st
                     end)
                  (fdmap_values (w_fdmap (wat st))) st in
      Some (set_fd st (-1), None)
  end.

(** The dispatcher's [select] on the signal channel: it runs the function
    it receives, here the one sent by [close]. *)
Definition run_signal (st : sys) : sys :=
  match w_signal (wat st) with
  | [] => st
  | sig_close fd :: q =>
      let st := set_signal st q in
      let '(k, r) := close_fd (kern st) in
      let st := set_kern st k in
      let st := match r with
                | Some e => ctx_Error st (SyscallError "Close close" e)
                | None => st
                end in
      set_fdmap st None
  end.

(** [close] in the schedule in which the dispatcher takes the function off
    [w.signal] and runs it before [close] gets [w.mutex]: the loop of
    [close] then ranges over the [fdmap] that the function has set to
    nil. *)
Definition close_late (st : sys) : option (sys * option error) :=
  let w := wat st in
  if w_fd w =? -1 then Some (st, Some ErrClosed) else
  match w_signal w with
  | _ :: _ => None
  | [] =>
      let st := set_signal st [sig_close (w_fd w)] in
      let st := run_signal st in
      let st :=
        fold_left (fun st nfo =>
                     let '(st, err) := rm st nfo in
                     match err with
                     | Some e => ctx_Error st e
                     | None => st
                     end)
                  (fdmap_values (w_fdmap (wat st))) st in
      Some (set_fd st (-1), None)
  end.

Definition Load (st : sys) (p : path) (recursive : bool) : sys * option error :=
  load st (Clean p) recursive.

Definition Unload (st : sys) (p : path) (recursive : bool) : sys * option error :=
  unload st (Clean p) recursive.

Definition Close (st : sys) : option (sys * option error) := close st.

End Backend.
End Kqueue.

(** * Notions used to state the properties *)

(** The eight values a node's [bit] can take. *)
Definition is_bit (b : Z) : Prop := In b [128; 64; 32; 16; 8; 4; 2; 1].

(** Bits of a key are numbered from the most significant bit of byte 0. *)
Definition lg (bit : Z) : nat := Z.to_nat (Z.log2 bit).
Definition pos (off : nat) (bit : Z) : nat := (8 * off + (7 - lg bit))%nat.

Definition nbit (k : path) (n : nat) : bool :=
  Z.testbit (member_ch k (n / 8)) (Z.of_nat (7 - n mod 8)).

Definition small (z : Z) : Prop := 0 <= z < 256.

Definition all_small : list Z := map Z.of_nat (seq 0 256).

(** Two keys agree on the first [n] bits. *)
Definition agree (k1 k2 : path) (n : nat) : Prop :=
  forall m, (m < n)%nat -> nbit k1 m = nbit k2 m.

(** Checks behind [top_bit], run over all pairs of byte values. *)
Definition bit_list : list Z := [128; 64; 32; 16; 8; 4; 2; 1].

Definition land_ok (ch : Z) : bool :=
  forallb (fun bit => Bool.eqb (negb (Z.land ch bit =? 0))
                               (Z.testbit ch (Z.of_nat (lg bit)))) bit_list.

Definition crit_ok (a c : Z) : bool :=
  (a =? c) ||
  let bit := top_bit (Z.lxor a c) in
  existsb (Z.eqb bit) bit_list
  && negb (Bool.eqb (Z.testbit a (Z.of_nat (lg bit))) (Z.testbit c (Z.of_nat (lg bit))))
  && forallb (fun j => (j <=? lg bit)%nat
                       || Bool.eqb (Z.testbit a (Z.of_nat j)) (Z.testbit c (Z.of_nat j)))
             (seq 0 8).

(** The entries of the index, in the order of the leaves. *)
Fixpoint leaves (r : ref) : list info :=
  match r with
  | Leaf i => [i]
  | Node c0 c1 _ _ => leaves c0 ++ leaves c1
  end.

Definition entries (t : tree) : list info :=
  match t with
  | None => []
  | Some r => leaves r
  end.

(** The crit-bit invariant: a node's bit is one of the eight bits of a byte,
    its two sides differ on it, and all the keys below it agree before it. *)
Inductive wf : ref -> Prop :=
| wf_leaf i : wf (Leaf i)
| wf_node c0 c1 off bit :
    is_bit bit -> wf c0 -> wf c1 ->
    (forall i, In i (leaves c0) -> nbit (ipath i) (pos off bit) = false) ->
    (forall i, In i (leaves c1) -> nbit (ipath i) (pos off bit) = true) ->
    (forall i j, In i (leaves c0 ++ leaves c1) -> In j (leaves c0 ++ leaves c1) ->
                 agree (ipath i) (ipath j) (pos off bit)) ->
    wf (Node c0 c1 off bit).

Definition wf_tree (t : tree) : Prop :=
  match t with
  | None => True
  | Some r => wf r
  end.

(** A path without the bytes 0x00 and 0x01, the two values that the
    remapped separator and the padding of short keys take. *)
Definition plain (p : path) : Prop := Forall (fun b => 2 <= byte_val b) p.

Definition plain_tree (t : tree) : Prop :=
  forall i, In i (entries t) -> plain (ipath i).

(** The order of the leaves: the first differing bit is 0 on the left. *)
Definition blt (k1 k2 : path) : Prop :=
  exists n, agree k1 k2 n /\ nbit k1 n = false /\ nbit k2 n = true.

(** Byte-wise comparison, as Go compares strings. *)
Fixpoint lex_compare (a b : list Z) : comparison :=
  match a, b with
  | [], [] => Eq
  | [], _ :: _ => Lt
  | _ :: _, [] => Gt
  | x :: a', y :: b' =>
      match x ?= y with
      | Eq => lex_compare a' b'
      | c => c
      end
  end.

(** The key as the tree compares it: separators replaced by 0x01. *)
Definition remap (k : path) : list Z := map (fun b => replaceSep (byte_val b)) k.

(** *** Walk order, in the words of the specification

    The order of a depth-first walk of the file system that visits the
    children of a directory sorted byte-wise by name, and a directory
    before everything under it: paths are compared component by component,
    each component as a byte string. *)

Definition name_compare (a b : path) : comparison :=
  lex_compare (map byte_val a) (map byte_val b).

Fixpoint comps_compare (a b : list path) : comparison :=
  match a, b with
  | [], [] => Eq
  | [], _ :: _ => Lt
  | _ :: _, [] => Gt
  | n :: a', m :: b' =>
      match name_compare n m with
      | Eq => comps_compare a' b'
      | c => c
      end
  end.

Definition walk_compare (p q : path) : comparison :=
  comps_compare (split_sep p) (split_sep q).

Definition walk_before (p q : path) : Prop := walk_compare p q = Lt.

Definition bits_eq_ok (a c : Z) : bool :=
  implb (forallb (fun j => Bool.eqb (Z.testbit a (Z.of_nat j)) (Z.testbit c (Z.of_nat j)))
                 (seq 0 8))
        (a =? c).

Definition bits_lt_ok (a c : Z) : bool :=
  forallb (fun j =>
    implb (forallb (fun j' => (j' <=? j)%nat
                              || Bool.eqb (Z.testbit a (Z.of_nat j')) (Z.testbit c (Z.of_nat j')))
                   (seq 0 8)
           && negb (Z.testbit a (Z.of_nat j)) && Z.testbit c (Z.of_nat j))
          (a <? c)) (seq 0 8).

(** Entries compared by their paths. *)
Definition entry_before (i j : info) : Prop := walk_before (ipath i) (ipath j).

(** *** The calls a traversal makes

    A visitor is instrumented to record every call made to it together
    with the value it returned; the visitor itself is unchanged. *)

Abbreviation call := (info * option error)%type.

Definition traced {S} (f : @visitor S) : @visitor (S * list call) :=
  fun i st =>
    let '(s', e) := f i (fst st) in
    ((s', snd st ++ [(i, e)]), e).

Definition iter_calls {S} (p : ref) (f : @visitor S) (skips : list path) (s : S)
    : list call :=
  snd (fst (walkiter p (traced f) skips (s, []))).

Definition walk_calls {S} (t : tree) (root : path) (f : @visitor S) (s : S)
    : list call :=
  snd (fst (walk t root (traced f) (s, []))).

(** A call after which [walkiter] goes on: the visitor returned nil, or
    [SkipDir] on a directory (or the internal skip value). *)
Definition continues (c : call) : bool :=
  match snd c with
  | None => true
  | Some SkipDir => IsDir (fst c)
  | Some (skip _) => true
  | Some _ => false
  end.

Definition is_skip (e : option error) : bool :=
  match e with
  | None => true
  | Some (skip _) => true
  | Some _ => false
  end.

(** The calls of [walkiter], written out along its recursion. *)
Fixpoint calls_of {S} (p : ref) (f : @visitor S) (skips : list path) (s : S)
    : list call :=
  match p with
  | Leaf i =>
      if skipped skips (ipath i) then []
      else if Ignored i then []
      else [(i, snd (f i s))]
  | Node c0 c1 _ _ =>
      let '(s0, e0) := walkiter c0 f skips s in
      calls_of c0 f skips s ++
      match e0 with
      | None => calls_of c1 f skips s0
      | Some (skip e) => calls_of c1 f (skips ++ [e]) s0
      | Some _ => []
      end
  end.

(** The subtree that [walk] hands to [walkiter]: the first ref on the way
    of [root] that is a leaf or branches at or after the end of [root]. *)
Fixpoint subtree_of (p : ref) (root : path) : ref :=
  match p with
  | Leaf _ => p
  | Node c0 c1 off bit =>
      if (off <? length root)%nat then subtree_of (child c0 c1 (dir off bit root)) root
      else p
  end.

(** *** Executable checks and example data *)

Definition plainb (p : path) : bool := forallb (fun b => 2 <=? byte_val b) p.

Definition entry (p : path) (isdir : bool) (fl : Z) : info :=
  mkInfo None p (if isdir then ModeDir else 0) 0 0 fl.

(** The index after inserting the entries of [l] in turn. *)
Definition index_of (l : list info) : tree :=
  fold_left (fun t i => fst (insert t i)) l None.

(** A visitor that lets the traversal go on. *)
Definition go_on : @visitor unit := fun _ s => (s, None).

(** A visitor that returns [SkipDir] on the entry at [p]. *)
Definition skip_at (p : path) : @visitor unit :=
  fun i s => (s, if path_eqb (ipath i) p then Some SkipDir else None).

Definition c5_old : info := entry (bytes "/a/b") false 0.
Definition c5_new : info := entry (bytes "/a" ++ [x01] ++ bytes "b") false 0.

Definition c6_entries : list info :=
  [entry (bytes "/t") true 0; entry (bytes "/t/a") false 0;
   entry (bytes "/t/b") false 0].

Definition c3_entries : list info :=
  [entry (bytes "/a") true 0; entry (bytes "/a/x") false 0;
   entry (bytes "/ax") false 0].

Definition c2_entries : list info :=
  [entry (bytes "/t") true 0; entry (bytes "/t/.git") true ignored;
   entry (bytes "/t/f") false 0].

Definition watcher_of (t : tree) : watcher := mkWatcher 3 t (Some ∅) [] [] [].

(** An element as [Clean] writes it: a name, free of separators, that is
    neither empty nor [.]. *)
Definition elem_ok (e : path) : Prop :=
  e <> [] /\ e <> [dot] /\ ~ In PathSeparator e.

Definition dotdot : path := [dot; dot].

(** A small file system: [/t] holds the directory [a] (with the file [x])
    and the file [b]. *)
Definition some_stat : FileInfo := mkFileInfo 420 0 0.

Definition fs0 : fnode :=
  FDir some_stat
    (fcons (bytes "t")
       (FDir some_stat
          (fcons (bytes "a") (FDir some_stat (fcons (bytes "x") (FFile some_stat) fnil))
          (fcons (bytes "b") (FFile some_stat) fnil)))
     fnil).

Definition accept_all : info -> bool := fun _ => true.

(** A watcher as [newwatcher] returns it. *)
Definition new_sys : sys :=
  mkSys (mkKernel true 1 ∅) (mkWatcher 3 None (Some ∅) [] [] []).


(** *** Calls made after a point in time

    [kq_later st st'']: [st''] is reached from [st] by any sequence of
    [Close], [Load] and [Unload] calls that return, and of dispatcher steps
    on the signal channel. *)
Inductive kq_later (fs : fnode) (Filter : info -> bool) (st : sys) : sys -> Prop :=
| kq_now : kq_later fs Filter st st
| kq_load st1 p r :
    kq_later fs Filter st st1 ->
    kq_later fs Filter st (fst (Kqueue.Load fs Filter st1 p r))
| kq_unload st1 p r :
    kq_later fs Filter st st1 ->
    kq_later fs Filter st (fst (Kqueue.Unload st1 p r))
| kq_close st1 st2 e :
    kq_later fs Filter st st1 -> Kqueue.Close st1 = Some (st2, e) ->
    kq_later fs Filter st st2
| kq_run st1 :
    kq_later fs Filter st st1 -> kq_later fs Filter st (Kqueue.run_signal st1).

Inductive in_later (fs : fnode) (Filter : info -> bool) (st : sys) : sys -> Prop :=
| in_now : in_later fs Filter st st
| in_load st1 p r :
    in_later fs Filter st st1 ->
    in_later fs Filter st (fst (Inotify.Load fs Filter st1 p r))
| in_unload st1 p r :
    in_later fs Filter st st1 ->
    in_later fs Filter st (fst (Inotify.Unload fs Filter st1 p r))
| in_close st1 st2 e :
    in_later fs Filter st st1 -> Inotify.Close fs st1 = Some (st2, e) ->
    in_later fs Filter st st2
| in_run st1 :
    in_later fs Filter st st1 -> in_later fs Filter st (Inotify.run_signal st1).

(** The watcher right after [Close] on a new inotify watcher. *)
Definition closing_sys : sys :=
  match Inotify.Close fs0 new_sys with
  | Some (st, _) => st
  | None => new_sys
  end.

(** * Notions used by the further properties *)

(** The first entry of [l] stored at [p]. *)
Definition first_at (l : list info) (p : path) : option info :=
  List.find (fun i => path_eqb (ipath i) p) l.

(** The entries below [root]: those whose path starts with [root] and a
    separator. *)
Definition below (root : path) (i : info) : bool :=
  has_prefix (ipath i) (root ++ [PathSeparator]).

(** What a traversal of [root] can show: the entry of [root], unless it is
    absent or ignored, and, when it is a directory, the entries below it
    that are not ignored, in the order of the index. *)
Definition visible (t : tree) (root : path) : list info :=
  match get t root with
  | Some fi =>
      if Ignored fi then []
      else fi :: (if IsDir fi
                  then List.filter (fun i => below root i && negb (Ignored i)) (entries t)
                  else [])
  | None => []
  end.

(** The tree without the leaf that [key] leads to: the node above the leaf
    is replaced by the leaf's sibling. *)
Fixpoint delete_best (r : ref) (key : path) : option ref :=
  match r with
  | Leaf _ => None
  | Node c0 c1 off bit =>
      if dir off bit key
      then match delete_best c1 key with
           | None => Some c0
           | Some c1' => Some (Node c0 c1' off bit)
           end
      else match delete_best c0 key with
           | None => Some c1
           | Some c0' => Some (Node c0' c1 off bit)
           end
  end.

Definition remove_entry (t : tree) (key : path) : tree :=
  match t with
  | Some r => delete_best r key
  | None => None
  end.

(** The calls of a handler [f], one after the other. *)
Definition handle_all {S} (f : info -> S -> S) (l : list info) (s : S) : S :=
  fold_left (fun s i => f i s) l s.

(** A directory [/t] whose only entry is the directory [/t/a]. *)
Definition lone_dir_entries : list info :=
  [entry (bytes "/t") true 0; entry (bytes "/t/a") true 0].

(** A handler that records the paths it is called on. *)
Definition record_path : info -> list path -> list path :=
  fun i l => l ++ [ipath i].

(** The directory [/t] with the directory [a], its file [x], and the file
    [ax]. *)
Definition nested_entries : list info :=
  [entry (bytes "/t") true 0; entry (bytes "/t/a") true 0;
   entry (bytes "/t/a/x") false 0; entry (bytes "/t/ax") false 0].

(** [res] is the result of a load of [p] that the loader turns down: the
    error of [os.Lstat], [ErrNotDir] for a file, and nil, with nothing
    done, for a directory that [Context.Filter] rejects. *)
Definition turned_down (fs : fnode) (Filter : info -> bool) (st : sys) (p : path)
    (res : sys * option error) : Prop :=
  match os_Lstat fs p with
  | inr err => res = (st, Some err)
  | inl fi =>
      (fi_IsDir fi = false -> res = (st, Some ErrNotDir))
      /\ (fi_IsDir fi = true -> Filter (newInfo p fi) = false -> res = (st, None))
  end.

(** The state after the watch [fd] was released: the kernel has dropped
    it and [fdmap] files no entry under it. *)
Definition release (st : sys) (fd : Z) : sys :=
  let k := kern st in
  let st := set_kern st (mkKernel (k_open k) (k_next k) (delete fd (k_watches k))) in
  set_fdmap st (fdmap_delete (w_fdmap (wat st)) fd).

(** The step of the loops of [close] that release the watches. *)
Definition rm_logged (rm : sys -> info -> sys * option error) (st : sys) (nfo : info)
    : sys :=
  let '(st, err) := rm st nfo in
  match err with
  | Some e => ctx_Error st e
  | None => st
  end.

(** The watcher after [Load] of [/t] in the small file system. *)
Definition kq_loaded : sys := fst (Kqueue.Load fs0 accept_all new_sys (bytes "/t") true).
Definition in_loaded : sys := fst (Inotify.Load fs0 accept_all new_sys (bytes "/t") true).

(** [st'] is [st] with every watch of [m] released: [fdmap] is empty, the
    kernel holds none of the descriptors of [m], and the index and the
    errors reported are as before. *)
Definition all_released (m : gmap Z info) (st st' : sys) : Prop :=
  w_fdmap (wat st') = Some ∅
  /\ (forall fd, is_Some (m !! fd) -> k_watches (kern st') !! fd = None)
  /\ w_tree (wat st') = w_tree (wat st)
  /\ w_errors (wat st') = w_errors (wat st).

(** [st'] is [st] closed with no watch released: [fdmap] is nil and the
    descriptor of the watcher is closed, yet the kernel holds the very
    descriptors it held, those of [m] among them; the index and the errors
    reported are as before, and the signal channel is empty again. *)
Definition none_released (m : gmap Z info) (st st' : sys) : Prop :=
  w_fdmap (wat st') = None
  /\ w_fd (wat st') = -1 /\ k_open (kern st') = false /\ w_signal (wat st') = []
  /\ k_watches (kern st') = k_watches (kern st)
  /\ (forall fd, is_Some (m !! fd) -> is_Some (k_watches (kern st') !! fd))
  /\ w_tree (wat st') = w_tree (wat st)
  /\ w_errors (wat st') = w_errors (wat st).

(** The entries of [fdmap] are filed under the descriptors of their own
    watches, and the kernel holds these descriptors. *)
Definition filed (st : sys) (m : gmap Z info) : Prop :=
  map_Forall (fun fd i => watch i = Some fd /\ is_Some (k_watches (kern st) !! fd)) m.

#[global] Instance filed_dec st m : Decision (filed st m).
Proof. unfold filed. apply _. Defined.

(** What a write through an info pointer does to an entry: the entry at
    the path of [i] becomes [i], every other entry stays as it is. *)
Definition rewrite_with (i j : info) : info :=
  if path_eqb (ipath j) (ipath i) then i else j.

(** A file system whose names hold no byte 0x00 or 0x01. *)
Fixpoint fs_plain (n : fnode) : Prop :=
  match n with
  | FFile _ => True
  | FDir _ es => fents_plain es
  end
with fents_plain (es : fents) : Prop :=
  match es with
  | fnil => True
  | fcons name c rest => plain name /\ fs_plain c /\ fents_plain rest
  end.

(** The index is well-formed and holds plain paths only. *)
Definition index_ok (st : sys) : Prop :=
  wf_tree (w_tree (wat st)) /\ plain_tree (w_tree (wat st)).

(** The flags [fl] include the flags [want]. *)
Definition has_flags (fl want : Z) : Prop := Z.land fl want = want.

(** [t'] holds every path that [t] holds, with the same file mode and at
    least the same flags. *)
Definition extends (t t' : tree) : Prop :=
  forall q i, get t q = Some i ->
              exists i', get t' q = Some i' /\ mode i' = mode i
                         /\ has_flags (flags i') (flags i).

(** What the loader needs to know of a backend's [add]: it writes at most
    the field [watch] of the entry it is given, through the pointer. *)
Definition add_writes_watch (add : sys -> info -> Z -> sys * info * option error)
    : Prop :=
  forall st f fl,
    let '(st', f', _) := add st f fl in
    (w_tree (wat st') = w_tree (wat st) /\ f' = f)
    \/ (w_tree (wat st') = option_map (fun r => set_leaf r f') (w_tree (wat st))
        /\ ipath f' = ipath f /\ mode f' = mode f /\ flags f' = flags f).

Scheme fnode_fents_ind := Induction for fnode Sort Prop
  with fents_fnode_ind := Induction for fents Sort Prop.

(** The index of [st'] holds the directory [p] with the flags of a load
    ([explicit], and [recurse] for a recursive one); [fresh] tells that
    the index of [st] did not hold [p], and the entry is then the one
    made from the file system's [fi]. *)
Definition registered (st st' : sys) (p : path) (r : bool) (fi : FileInfo) : Prop :=
  exists i, get (w_tree (wat st')) p = Some i
            /\ has_flags (flags i) (load_flags r)
            /\ (get (w_tree (wat st)) p = None -> mode i = fi_mode fi /\ IsDir i = true).

(** ** The event handlers of the backends

    [info.update] and the method [handle] of the two backends, which the
    dispatcher [run] calls for every event the kernel reports on a watch. *)

(** [update] of info.go: the entry takes the mode, time and size of [fi]. *)
Definition update (i : info) (fi : FileInfo) : info :=
  mkInfo (watch i) (ipath i) (fi_mode fi) (fi_modt fi) (fi_size fi) (flags i).

(** The handler that [handle] gives to [deleteAll]; it closes over the
    watcher and [list]. *)
Definition delete_handler (fi : info) (s : sys * list info) : sys * list info :=
  let '(st, list) := s in
  let st := match watch fi with
            | Some fd => set_fdmap st (fdmap_delete (w_fdmap (wat st)) fd)
            | None => st
            end in
  (st, list ++ [fi]).

(** The branch of [handle] for a delete event on [p]. *)
Definition handle_delete (st : sys) (p : path) : sys :=
  let '(t', (st, list)) := deleteAll (w_tree (wat st)) p delete_handler (st, []) in
  let st := set_tree st t' in
  fold_left (fun st fi => ctx_Handle st Delete fi) list st.

(** The branch of [handle] that stats [p] again and reports [Modify]. *)
Definition handle_modify (fs : fnode) (st : sys) (p : path) (fi : info) : sys :=
  match os_Lstat fs p with
  | inr err => log_unless_not_exist st (Some err)
  | inl nfi =>
      let fi' := update fi nfi in
      ctx_Handle (write_info st fi fi') Modify fi'
  end.

(** The branch of [handle] that loads [p] and reports [Create]. *)
Definition handle_create (fs : fnode) (Filter watchFilter : info -> bool)
    (add : sys -> info -> Z -> sys * info * option error)
    (st : sys) (p : path) (lflags allFlags : Z) : sys :=
  let '(st, err) :=
    loadImpl fs Filter watchFilter add st p lflags (Some Create) allFlags allFlags in
  match err with
  | Some SkipDir => st
  | Some e => log_unless_not_exist st (Some e)
  | None => st
  end.

Module KqueueRun.

Definition NOTE_DELETE : Z := 1.
Definition NOTE_WRITE : Z := 2.
Definition NOTE_EXTEND : Z := 4.
Definition NOTE_ATTRIB : Z := 8.
Definition NOTE_RENAME : Z := 32.
Definition NOTE_REVOKE : Z := 64.

Definition modifyFlags : Z := Z.lor (Z.lor NOTE_WRITE NOTE_EXTEND) NOTE_ATTRIB.
Definition deleteFlags : Z := Z.lor (Z.lor NOTE_DELETE NOTE_RENAME) NOTE_REVOKE.
Definition allFlags : Z := Z.lor modifyFlags deleteFlags.

Definition handle (fs : fnode) (Filter : info -> bool) (st : sys) (mask : Z)
    (nfo : info) : sys :=
  if negb (Z.land mask deleteFlags =? 0) then handle_delete st (ipath nfo)
  else if IsDir nfo && negb (Z.land mask modifyFlags =? 0)
  then handle_create fs Filter Kqueue.watchFilter (Kqueue.add fs) st (ipath nfo)
                     (Z.land (flags nfo) recurse) allFlags
  else handle_modify fs st (ipath nfo) nfo.

End KqueueRun.

Module InotifyRun.

Definition IN_IGNORED : Z := 32768.

Definition handle (fs : fnode) (Filter : info -> bool) (st : sys) (mask : Z)
    (nfo : info) (name : path) : sys :=
  let '(p, fi) := match name with
                  | [] => (ipath nfo, Some nfo)
                  | _ :: _ => (Join (ipath nfo) name, None)
                  end in
  if negb (Z.land mask (Z.lor Inotify.deleteFlags IN_IGNORED) =? 0)
  then handle_delete st p
  else
    let fi := match fi with
              | Some f => Some f
              | None => get (w_tree (wat st)) p
              end in
    match fi with
    | None =>
        handle_create fs Filter Inotify.watchFilter (Inotify.add fs) st p
                      (Z.land (flags nfo) recurse) Inotify.allFlags
    | Some fi => handle_modify fs st p fi
    end.

(** The body of the loop of [run] over the events read: an event on a
    descriptor that [fdmap] does not know is dropped. *)
Definition dispatch (fs : fnode) (Filter : info -> bool) (st : sys) (wd mask : Z)
    (name : path) : sys :=
  match w_fdmap (wat st) with
  | Some m =>
      match m !! wd with
      | Some nfo => handle fs Filter st mask nfo name
      | None => st
      end
  | None => st
  end.

End InotifyRun.

(** The entries that [deleteAll] of [root] hands to its handler: the entry
    of [root], and for a directory the entries below it. *)
Definition removed_by (t : tree) (root : path) : list info :=
  match get t root with
  | Some i => i :: (if IsDir i then List.filter (below root) (entries t) else [])
  | None => []
  end.

(** What a delete event on [p] does: [Delete] is reported for the entries
    that [deleteAll] removes, in their order; these are gone from the index
    and from [fdmap]; the kernel's descriptors are left as they are. *)
Definition reports_delete (st st' : sys) (p : path) : Prop :=
  let gone := removed_by (w_tree (wat st)) p in
  w_events (wat st') = w_events (wat st) ++ map (pair Delete) gone
  /\ (forall x, In x gone -> get (w_tree (wat st')) (ipath x) = None)
  /\ (forall x fd m', In x gone -> watch x = Some fd ->
                      w_fdmap (wat st') = Some m' -> m' !! fd = None)
  /\ kern st' = kern st
  /\ w_errors (wat st') = w_errors (wat st).

(** What a modify event on the entry [fi] at [p] does: when the file can
    be stat'ed, the entry takes the new mode, time and size and [Modify] is
    reported for it; when it is gone, nothing happens. *)
Definition reports_modify (fs : fnode) (st st' : sys) (p : path) (fi : info) : Prop :=
  match os_Lstat fs p with
  | inr _ => st' = st
  | inl nfi =>
      w_events (wat st') = w_events (wat st) ++ [(Modify, update fi nfi)]
      /\ get (w_tree (wat st')) p = Some (update fi nfi)
      /\ (forall q, q <> p -> get (w_tree (wat st')) q = get (w_tree (wat st)) q)
      /\ kern st' = kern st
      /\ w_errors (wat st') = w_errors (wat st)
  end.

(** [fdmap] after the calls of the delete handler on [l]. *)
Definition unfiled (l : list info) (m : option (gmap Z info)) : option (gmap Z info) :=
  fold_left (fun m x => match watch x with
                        | Some fd => fdmap_delete m fd
                        | None => m
                        end) l m.


(** ** What a load makes of the file system *)

(** The entry that the loader makes of the file [fi] found at [q] below
    the root of a load: an entry that [Context.Filter] rejects is kept,
    flagged [ignored]. *)
Definition expected (Filter : info -> bool) (q : path) (fi : FileInfo) : info :=
  let f := newInfo q fi in
  if Filter f then f else with_flags f (Z.lor (flags f) ignored).

(** The files that the walk of a load reaches from the node [n] at [q]:
    the walk goes into a directory that the filter accepts when the load
    is recursive. *)
Fixpoint listed (Filter : info -> bool) (rec : bool) (n : fnode) (q : path)
    : list (path * FileInfo) :=
  (q, node_info n) ::
  match n with
  | FDir _ es =>
      if Filter (newInfo q (node_info n)) && rec then listed_ents Filter rec es q else []
  | FFile _ => []
  end
with listed_ents (Filter : info -> bool) (rec : bool) (es : fents) (q : path)
    : list (path * FileInfo) :=
  match es with
  | fnil => []
  | fcons name c rest =>
      listed Filter rec c (Join q name) ++ listed_ents Filter rec rest q
  end.

(** What the loader needs to know of a backend's [add], besides
    [add_writes_watch]: the entry it returns is the one it was given, but
    for the field [watch]. *)
Definition add_only_watch (add : sys -> info -> Z -> sys * info * option error)
    : Prop :=
  forall st f fl, with_watch (snd (fst (add st f fl))) None = with_watch f None.

(** The paths [l] are new to the index of [st] and differ from [root]. *)
Definition fresh_for (st : sys) (root : path) (l : list path) : Prop :=
  forall q, In q l -> q <> root /\ get (w_tree (wat st)) q = None.

(** The index of [st'] is the one of [st] with the files [l] added. *)
Definition adds_files (Filter : info -> bool) (st st' : sys) (l : list (path * FileInfo))
    : Prop :=
  index_ok st'
  /\ (forall x, ~ In x (map fst l) -> get (w_tree (wat st')) x = get (w_tree (wat st)) x)
  /\ (forall x fi, In (x, fi) l ->
        exists i, get (w_tree (wat st')) x = Some i
                  /\ with_watch i None = expected Filter x fi).

(** The index of [st'] is the one of [st] with the directory [P], flagged
    as the root of a load, and the files [L] added; every other path is as
    it was. *)
Definition mirrors (Filter : info -> bool) (st st' : sys) (P : path) (r : bool)
    (root_fi : FileInfo) (L : list (path * FileInfo)) : Prop :=
  index_ok st'
  /\ (forall x, ~ In x (P :: map fst L) ->
                get (w_tree (wat st')) x = get (w_tree (wat st)) x)
  /\ (exists i, get (w_tree (wat st')) P = Some i
                /\ with_watch i None = with_flags (newInfo P root_fi) (load_flags r))
  /\ (forall x fi, In (x, fi) L ->
        exists i, get (w_tree (wat st')) x = Some i
                  /\ with_watch i None = expected Filter x fi).

#[global] Instance info_eq_dec : EqDecision info.
Proof. solve_decision. Defined.

(** [fdmap] and the index share their entries: what [fdmap] files is the
    entry that the index holds at its path. *)
Definition shared (st : sys) : Prop :=
  map_Forall (fun _ x => get (w_tree (wat st)) (ipath x) = Some x)
             (default ∅ (w_fdmap (wat st))).

#[global] Instance shared_dec st : Decision (shared st).
Proof. unfold shared. apply _. Defined.

(** The index holds every file of the directory [es] at [P]. *)
Fixpoint fents_known (t : tree) (P : path) (es : fents) : Prop :=
  match es with
  | fnil => True
  | fcons name _ rest =>
      Join P name <> P /\ is_Some (get t (Join P name)) /\ fents_known t P rest
  end.

(** The index holds the files of the directory [es] at [P] up to, and
    including, the first one that is not a directory. *)
Fixpoint fents_known_until (t : tree) (P : path) (es : fents) : Prop :=
  match es with
  | fnil => True
  | fcons name c rest =>
      Join P name <> P /\ is_Some (get t (Join P name))
      /\ (if node_isdir c then fents_known_until t P rest else True)
  end.

(** The directory [/t] with one more file, [c], than the small file system
    has. *)
Definition fs1 : fnode :=
  FDir some_stat
    (fcons (bytes "t")
       (FDir some_stat
          (fcons (bytes "a") (FDir some_stat (fcons (bytes "x") (FFile some_stat) fnil))
          (fcons (bytes "b") (FFile some_stat)
          (fcons (bytes "c") (FFile some_stat) fnil))))
     fnil).

(** A function for [Walk] and for [filepath.Walk] that records the paths it
    is called on and lets the walk go on. *)
Definition record_walk {A : Type}
    : path -> option A -> option error -> list path -> list path * option error :=
  fun p _ _ l => (l ++ [p], None).

(** [/t] holds the directory [a] with the file [b], and a file whose name
    is [a] followed by the byte 0x01. *)
Definition fs_c1 : fnode :=
  FDir some_stat
    (fcons (bytes "t")
       (FDir some_stat
          (fcons (bytes "a") (FDir some_stat (fcons (bytes "b") (FFile some_stat) fnil))
          (fcons (bytes "a" ++ [x01]) (FFile some_stat) fnil)))
     fnil).

(** [/t] holds the directory [a] with the file [b], a file whose name is
    [a], the byte 0x01 and [b], and the file [z]. *)
Definition fs_c5 : fnode :=
  FDir some_stat
    (fcons (bytes "t")
       (FDir some_stat
          (fcons (bytes "a") (FDir some_stat (fcons (bytes "b") (FFile some_stat) fnil))
          (fcons (bytes "a" ++ [x01] ++ bytes "b") (FFile some_stat)
          (fcons (bytes "z") (FFile some_stat) fnil))))
     fnil).

(** The small file system with one more directory, [/u], beside [/t]. *)
Definition fs_two : fnode :=
  FDir some_stat
    (fcons (bytes "t")
       (FDir some_stat
          (fcons (bytes "a") (FDir some_stat (fcons (bytes "x") (FFile some_stat) fnil))
          (fcons (bytes "b") (FFile some_stat) fnil)))
    (fcons (bytes "u") (FDir some_stat fnil)
     fnil)).

(** The paths that the index of a watcher holds, in the order of the
    index. *)
Definition indexed (st : sys) : list path := map ipath (entries (w_tree (wat st))).
(** * Properties of the path index *)

(** ** Bytes and bits *)

Lemma byte_val_range b : 0 <= byte_val b < 256.
Proof.
  unfold byte_val. pose proof (Byte.to_N_bounded b) as H. lia.
Qed.

Lemma byte_val_inj a b : byte_val a = byte_val b -> a = b.
Proof.
  unfold byte_val. intros H. apply N2Z.inj in H.
  pose proof (Byte.of_to_N a) as Ha. pose proof (Byte.of_to_N b) as Hb.
  rewrite H in Ha. congruence.
Qed.

Lemma all_small_complete z : small z -> In z all_small.
Proof.
  unfold small, all_small. intros H. apply in_map_iff. exists (Z.to_nat z).
  split; [lia|]. apply in_seq. lia.
Qed.

Lemma member_ch_small k o : small (member_ch k o).
Proof.
  unfold member_ch, small, replaceSep. destruct (k !! o) as [b|]; [|lia].
  pose proof (byte_val_range b). destruct (_ =? _); lia.
Qed.

Lemma forall_small (P : Z -> bool) :
  forallb P all_small = true -> forall z, small z -> P z = true.
Proof.
  intros H z Hz. rewrite forallb_forall in H. apply H.
  now apply all_small_complete.
Qed.

Lemma land_ok_all ch : small ch -> land_ok ch = true.
Proof. apply forall_small. vm_compute. reflexivity. Qed.

Lemma crit_ok_all a c : small a -> small c -> crit_ok a c = true.
Proof.
  intros Ha Hc. revert c Hc.
  apply (forall_small (fun c => crit_ok a c)).
  revert a Ha.
  apply (forall_small (fun a => forallb (fun c => crit_ok a c) all_small)).
  vm_compute. reflexivity.
Qed.

Lemma is_bit_pos off bit :
  is_bit bit -> (pos off bit / 8 = off /\ 7 - pos off bit mod 8 = lg bit /\ lg bit < 8)%nat.
Proof.
  unfold is_bit, pos. intros H.
  assert (Hl : (lg bit < 8)%nat).
  { simpl in H. repeat (destruct H as [<- | H]; [vm_compute; lia|]). destruct H. }
  assert (E : (8 * off + (7 - lg bit) = (7 - lg bit) + off * 8)%nat) by lia.
  rewrite E. rewrite Nat.div_add by lia. rewrite Nat.Div0.mod_add.
  rewrite Nat.div_small by lia. rewrite Nat.mod_small by lia. lia.
Qed.

Lemma land_testbit ch bit :
  small ch -> is_bit bit ->
  negb (Z.land ch bit =? 0) = Z.testbit ch (Z.of_nat (lg bit)).
Proof.
  intros Hc Hb. pose proof (land_ok_all ch Hc) as H.
  unfold land_ok in H. rewrite forallb_forall in H.
  specialize (H bit Hb). now apply Bool.eqb_prop in H.
Qed.

Lemma dir_member_ch off bit k :
  dir off bit k = negb (Z.land (member_ch k off) bit =? 0).
Proof.
  unfold dir, member_ch. destruct (k !! off); [reflexivity|].
  now rewrite Z.land_0_l.
Qed.

Lemma dir_nbit off bit k : is_bit bit -> dir off bit k = nbit k (pos off bit).
Proof.
  intros Hb. rewrite dir_member_ch. unfold nbit.
  destruct (is_bit_pos off bit Hb) as (-> & -> & _).
  apply land_testbit; [apply member_ch_small | assumption].
Qed.

(** The critical bit of two different byte values. *)
Lemma top_bit_crit a c :
  small a -> small c -> a <> c ->
  let bit := top_bit (Z.lxor a c) in
  is_bit bit
  /\ Z.testbit a (Z.of_nat (lg bit)) <> Z.testbit c (Z.of_nat (lg bit))
  /\ forall j, (lg bit < j < 8)%nat -> Z.testbit a (Z.of_nat j) = Z.testbit c (Z.of_nat j).
Proof.
  intros Ha Hc Hne bit. pose proof (crit_ok_all a c Ha Hc) as H.
  unfold crit_ok in H. fold bit in H.
  apply orb_true_iff in H. destruct H as [H | H]; [apply Z.eqb_eq in H; contradiction|].
  apply andb_true_iff in H. destruct H as [H H3].
  apply andb_true_iff in H. destruct H as [H1 H2].
  split; [|split].
  - apply existsb_exists in H1. destruct H1 as (x & Hx & E).
    apply Z.eqb_eq in E. subst x. exact Hx.
  - intros E. rewrite E in H2. now rewrite Bool.eqb_reflx in H2.
  - intros j Hj. rewrite forallb_forall in H3.
    specialize (H3 j). rewrite in_seq in H3. specialize (H3 ltac:(lia)).
    apply orb_true_iff in H3. destruct H3 as [H3 | H3].
    + apply Nat.leb_le in H3. lia.
    + now apply Bool.eqb_prop in H3.
Qed.

(** ** Keys *)

Lemma agree_refl k n : agree k k n.
Proof. now intros m _. Qed.

Lemma agree_sym k1 k2 n : agree k1 k2 n -> agree k2 k1 n.
Proof. intros H m Hm. symmetry. now apply H. Qed.

Lemma agree_trans k1 k2 k3 n : agree k1 k2 n -> agree k2 k3 n -> agree k1 k3 n.
Proof. intros H1 H2 m Hm. rewrite H1 by assumption. now apply H2. Qed.

Lemma agree_le k1 k2 n m : agree k1 k2 n -> (m <= n)%nat -> agree k1 k2 m.
Proof. intros H Hle x Hx. apply H. lia. Qed.

Lemma agree_S k1 k2 n : agree k1 k2 n -> nbit k1 n = nbit k2 n -> agree k1 k2 (S n).
Proof.
  intros H E m Hm. destruct (Nat.eq_dec m n) as [-> | Hne]; [assumption|].
  apply H. lia.
Qed.

Lemma member_ch_ge k o : (length k <= o)%nat -> member_ch k o = 0.
Proof.
  intros H. unfold member_ch. now rewrite (lookup_ge_None_2 k o H).
Qed.

Lemma plain_member_ch k o : plain k -> (o < length k)%nat -> 1 <= member_ch k o.
Proof.
  intros Hp Ho. unfold member_ch.
  destruct (lookup_lt_is_Some_2 k o Ho) as [b Hb]. rewrite Hb.
  unfold plain in Hp. rewrite Forall_forall in Hp.
  assert (2 <= byte_val b) by (apply Hp; eapply list_elem_of_lookup_2; eassumption).
  unfold replaceSep. destruct (_ =? _); lia.
Qed.

Lemma replaceSep_inj a c :
  2 <= a -> 2 <= c -> replaceSep a = replaceSep c -> a = c.
Proof.
  unfold replaceSep. intros Ha Hc.
  destruct (a =? _) eqn:Ea, (c =? _) eqn:Ec; intros E;
    try apply Z.eqb_eq in Ea; try apply Z.eqb_eq in Ec; lia.
Qed.

Lemma plain_member_ch_inj p k :
  plain p -> plain k -> (forall o, member_ch p o = member_ch k o) -> p = k.
Proof.
  intros Hp Hk H. apply list_eq. intros o. specialize (H o).
  destruct (Nat.lt_ge_cases o (length p)) as [Lp | Lp];
  destruct (Nat.lt_ge_cases o (length k)) as [Lk | Lk].
  - unfold member_ch in H.
    destruct (lookup_lt_is_Some_2 p o Lp) as [b Hb].
    destruct (lookup_lt_is_Some_2 k o Lk) as [c Hc].
    rewrite Hb, Hc in *. f_equal. apply byte_val_inj.
    unfold plain in Hp, Hk. rewrite Forall_forall in Hp, Hk.
    apply replaceSep_inj; [apply Hp | apply Hk | exact H];
      eapply list_elem_of_lookup_2; eassumption.
  - pose proof (plain_member_ch p o Hp Lp). rewrite (member_ch_ge k o Lk) in H. lia.
  - pose proof (plain_member_ch k o Hk Lk). rewrite (member_ch_ge p o Lp) in H. lia.
  - now rewrite (lookup_ge_None_2 p o Lp), (lookup_ge_None_2 k o Lk).
Qed.

(** ** The search for the differing byte *)

Lemma diff_loop_some p k n : forall off o ch b,
  diff_loop p k off n = Some (o, ch, b) ->
  (off <= o < off + n)%nat /\ ch = member_ch p o /\ b = Z.lxor ch (member_ch k o)
  /\ ch <> member_ch k o
  /\ forall o', (off <= o' < o)%nat -> member_ch p o' = member_ch k o'.
Proof.
  induction n as [|n IH]; intros off o ch b H; simpl in H; [discriminate|].
  destruct (member_ch p off =? member_ch k off) eqn:E.
  - apply Z.eqb_eq in E. apply IH in H. destruct H as (H1 & H2 & H3 & H4 & H5).
    repeat split; try assumption; try lia.
    intros o' Ho'. destruct (Nat.eq_dec o' off) as [-> | Hne]; [assumption|].
    apply H5. lia.
  - apply Z.eqb_neq in E. injection H as <- <- <-.
    repeat split; try assumption; try lia; intros o' Ho'; lia.
Qed.

Lemma diff_loop_none p k n : forall off,
  diff_loop p k off n = None ->
  forall o', (off <= o' < off + n)%nat -> member_ch p o' = member_ch k o'.
Proof.
  induction n as [|n IH]; intros off H o' Ho'; simpl in H; [lia|].
  destruct (member_ch p off =? member_ch k off) eqn:E; [|discriminate].
  apply Z.eqb_eq in E. destruct (Nat.eq_dec o' off) as [-> | Hne]; [assumption|].
  apply (IH (S off) H). lia.
Qed.

Lemma find_byte_some p k o ch b :
  plain p ->
  find_byte p k = Some (o, ch, b) ->
  ch = member_ch p o /\ b = Z.lxor ch (member_ch k o) /\ ch <> member_ch k o
  /\ forall o', (o' < o)%nat -> member_ch p o' = member_ch k o'.
Proof.
  intros Hp. unfold find_byte. destruct (diff_loop p k 0 (length k)) as [r|] eqn:E.
  - intros H. injection H as ->. apply diff_loop_some in E.
    destruct E as (_ & H2 & H3 & H4 & H5). repeat split; try assumption.
    intros o' Ho'. apply H5. lia.
  - destruct (length k <? length p)%nat eqn:L; [|discriminate].
    apply Nat.ltb_lt in L. intros H. injection H as <- <- <-.
    rewrite (member_ch_ge k (length k)) by lia. rewrite Z.lxor_0_r.
    repeat split.
    + pose proof (plain_member_ch p (length k) Hp L). lia.
    + intros o' Ho'. apply (diff_loop_none p k _ _ E). lia.
Qed.

Lemma find_byte_none p k :
  find_byte p k = None ->
  (length p <= length k)%nat /\ forall o, (o < length k)%nat -> member_ch p o = member_ch k o.
Proof.
  unfold find_byte. destruct (diff_loop p k 0 (length k)) as [r|] eqn:E; [discriminate|].
  destruct (length k <? length p)%nat eqn:L; [discriminate|].
  apply Nat.ltb_ge in L. intros _. split; [assumption|].
  intros o Ho. apply (diff_loop_none p k _ _ E). lia.
Qed.

Lemma find_byte_refl k : find_byte k k = None.
Proof.
  unfold find_byte.
  assert (H : forall n off, diff_loop k k off n = None).
  { induction n as [|n IH]; intros off; simpl; [reflexivity|].
    now rewrite Z.eqb_refl. }
  rewrite H. now rewrite Nat.ltb_irrefl.
Qed.

Lemma find_byte_none_plain p k :
  plain p -> plain k -> find_byte p k = None -> p = k.
Proof.
  intros Hp Hk H. apply find_byte_none in H. destruct H as [Hl H].
  apply plain_member_ch_inj; try assumption. intros o.
  destruct (Nat.lt_ge_cases o (length k)) as [L | L]; [now apply H|].
  rewrite !member_ch_ge by lia. reflexivity.
Qed.

(** The position found by [insert] is the first bit on which the member
    and the new key differ, and [ndir] is the member's bit there. *)
Lemma find_byte_crit p k o ch b :
  plain p ->
  find_byte p k = Some (o, ch, b) ->
  let bit := top_bit b in
  is_bit bit
  /\ agree p k (pos o bit)
  /\ nbit p (pos o bit) = negb (Z.land ch bit =? 0)
  /\ nbit k (pos o bit) = negb (nbit p (pos o bit)).
Proof.
  intros Hp H bit. apply find_byte_some in H; [|assumption].
  destruct H as (-> & Hb & Hne & Heq).
  pose proof (top_bit_crit _ _ (member_ch_small p o) (member_ch_small k o) Hne) as C.
  rewrite <- Hb in C. fold bit in C. destruct C as (Hbit & Hd & Hhi).
  destruct (is_bit_pos o bit Hbit) as (E1 & E2 & E3).
  split; [assumption|]. split; [|split].
  - intros m Hm. unfold nbit.
    destruct (Nat.lt_ge_cases (m / 8) o) as [L | L].
    + now rewrite Heq.
    + assert (m / 8 = o)%nat.
      { apply Nat.le_antisymm; [|assumption].
        rewrite <- E1. apply Nat.Div0.div_le_mono. lia. }
      subst o. apply Hhi.
      pose proof (Nat.div_mod_eq m 8). pose proof (Nat.mod_upper_bound m 8).
      unfold pos in Hm. lia.
  - unfold nbit. rewrite E1, E2. symmetry.
    apply land_testbit; [apply member_ch_small | assumption].
  - unfold nbit. rewrite E1, E2.
    destruct (Z.testbit (member_ch p o) _), (Z.testbit (member_ch k o) _);
      simpl; congruence.
Qed.

(** ** Lookup *)

Lemma leaves_nonempty r : exists i, In i (leaves r).
Proof.
  induction r as [i | c0 [i Hi] c1 _ off bit]; simpl.
  - exists i. now left.
  - exists i. apply in_or_app. now left.
Qed.

Lemma best_in r k : In (best r k) (leaves r).
Proof.
  induction r as [i | c0 IH0 c1 IH1 off bit]; simpl; [now left|].
  apply in_or_app. destruct (dir off bit k); simpl; auto.
Qed.

Lemma best_member r i : wf r -> In i (leaves r) -> best r (ipath i) = i.
Proof.
  induction 1 as [j | c0 c1 off bit Hb W0 IH0 W1 IH1 H0 H1 Hag]; simpl; intros Hi.
  - destruct Hi as [-> | []]. reflexivity.
  - rewrite dir_nbit by assumption. apply in_app_or in Hi. destruct Hi as [Hi | Hi].
    + rewrite (H0 i Hi). simpl. auto.
    + rewrite (H1 i Hi). simpl. auto.
Qed.

Lemma leaves_unique r i j :
  wf r -> In i (leaves r) -> In j (leaves r) -> ipath i = ipath j -> i = j.
Proof.
  intros W Hi Hj E. rewrite <- (best_member r i W Hi), <- (best_member r j W Hj).
  now rewrite E.
Qed.

Lemma path_eqb_true p q : path_eqb p q = true <-> p = q.
Proof. unfold path_eqb. apply bool_decide_eq_true. Qed.

Lemma path_eqb_refl p : path_eqb p p = true.
Proof. now apply path_eqb_true. Qed.

Lemma get_in t k i : get t k = Some i -> In i (entries t) /\ ipath i = k.
Proof.
  destruct t as [r|]; simpl; [|discriminate].
  destruct (path_eqb k (ipath (best r k))) eqn:E; [|discriminate].
  intros H. injection H as <-. apply path_eqb_true in E.
  split; [apply best_in | now symmetry].
Qed.

Lemma get_member t i : wf_tree t -> In i (entries t) -> get t (ipath i) = Some i.
Proof.
  destruct t as [r|]; simpl; [|intros _ []].
  intros W Hi. rewrite (best_member r i W Hi). now rewrite path_eqb_refl.
Qed.

Lemma get_spec t k i :
  wf_tree t -> get t k = Some i <-> In i (entries t) /\ ipath i = k.
Proof.
  intros W. split; [apply get_in|]. intros [Hi <-]. now apply get_member.
Qed.

Lemma get_none t k :
  wf_tree t -> get t k = None <-> forall i, In i (entries t) -> ipath i <> k.
Proof.
  intros W. split.
  - intros H i Hi E. subst k. rewrite (get_member t i W Hi) in H. discriminate.
  - intros H. destruct (get t k) as [i|] eqn:E; [|reflexivity].
    apply get_in in E. destruct E as [Hi E]. now apply H in Hi.
Qed.

(** The member reached along the bits of [k] shares with [k] the longest
    run of leading bits among the keys of the tree. *)
Lemma best_longest r k q n :
  wf r -> In q (leaves r) -> agree (ipath q) k n -> agree (ipath (best r k)) k n.
Proof.
  intros W. revert q.
  induction W as [j | c0 c1 off bit Hb W0 IH0 W1 IH1 H0 H1 Hag]; simpl; intros q Hq Ha.
  - destruct Hq as [-> | []]. assumption.
  - pose proof (dir_nbit off bit k Hb) as Hd.
    destruct (Nat.le_gt_cases n (pos off bit)) as [L | L].
    + eapply agree_trans; [|exact Ha].
      eapply agree_le; [|exact L]. apply Hag; [|assumption].
      apply in_or_app. destruct (dir off bit k); simpl; [right | left]; apply best_in.
    + pose proof (Ha _ L) as E. apply in_app_or in Hq. destruct Hq as [Hq | Hq].
      * rewrite (H0 q Hq) in E. rewrite <- E in Hd. rewrite Hd. simpl. eauto.
      * rewrite (H1 q Hq) in E. rewrite <- E in Hd. rewrite Hd. simpl. eauto.
Qed.

(** [insert]'s test for stopping above a node compares bit positions. *)
Lemma pos_lt_iff o1 b1 o2 b2 :
  is_bit b1 -> is_bit b2 ->
  (o1 <? o2)%nat || ((o2 =? o1)%nat && (b2 <? b1)) = true
  <-> (pos o1 b1 < pos o2 b2)%nat.
Proof.
  intros H1 H2. unfold pos.
  assert (L1 : (lg b1 < 8)%nat) by (destruct (is_bit_pos 0 b1 H1) as (_ & _ & ?); assumption).
  assert (L2 : (lg b2 < 8)%nat) by (destruct (is_bit_pos 0 b2 H2) as (_ & _ & ?); assumption).
  assert (M : b2 < b1 <-> (lg b2 < lg b1)%nat).
  { unfold is_bit in H1, H2. simpl in H1, H2.
    repeat (destruct H1 as [<- | H1]); try contradiction;
    repeat (destruct H2 as [<- | H2]); try contradiction;
    unfold lg; cbn; lia. }
  rewrite orb_true_iff, andb_true_iff, Nat.ltb_lt, Nat.eqb_eq, Z.ltb_lt. lia.
Qed.

(** ** Insertion *)

Lemma agree_via p n (l : list info) :
  (forall q, In q l -> agree (ipath q) p n) ->
  forall q1 q2, In q1 l -> In q2 l -> agree (ipath q1) (ipath q2) n.
Proof.
  intros H q1 q2 H1 H2. eapply agree_trans; [now apply H|].
  apply agree_sym. now apply H.
Qed.

Lemma new_node_leaves r i off bit ndir :
  Permutation (leaves (new_node r i off bit ndir)) (i :: leaves r).
Proof.
  unfold new_node. destruct ndir; simpl; [reflexivity|].
  symmetry. apply Permutation_cons_append.
Qed.

Lemma new_node_wf r i off bit ndir p :
  wf r -> is_bit bit ->
  (forall q, In q (leaves r) -> agree (ipath q) (ipath p) (S (pos off bit))) ->
  agree (ipath p) (ipath i) (pos off bit) ->
  nbit (ipath p) (pos off bit) = ndir ->
  nbit (ipath i) (pos off bit) = negb ndir ->
  wf (new_node r i off bit ndir).
Proof.
  intros W Hb Hall Hpk Hp Hk.
  assert (Hbits : forall q, In q (leaves r) -> nbit (ipath q) (pos off bit) = ndir).
  { intros q Hq. rewrite <- Hp. apply (Hall q Hq). lia. }
  assert (Hag : forall q, In q (i :: leaves r) ->
                          agree (ipath q) (ipath p) (pos off bit)).
  { intros q [<- | Hq]; [now apply agree_sym|].
    eapply agree_le; [now apply Hall|lia]. }
  unfold new_node. destruct ndir; simpl in Hk; constructor; try assumption;
    try apply wf_leaf.
  - intros q [<- | []]. assumption.
  - exact (agree_via (ipath p) (pos off bit) (i :: leaves r) Hag).
  - intros q [<- | []]. assumption.
  - apply (agree_via (ipath p)). intros q Hq. apply Hag.
    apply in_app_or in Hq. simpl in *. tauto.
Qed.

Lemma insert_at_wf r i off bit ndir p :
  wf r -> is_bit bit ->
  In p (leaves r) ->
  agree (ipath p) (ipath i) (pos off bit) ->
  nbit (ipath p) (pos off bit) = ndir ->
  nbit (ipath i) (pos off bit) = negb ndir ->
  (forall q, In q (leaves r) -> ~ agree (ipath q) (ipath i) (S (pos off bit))) ->
  wf (insert_at r i off bit ndir)
  /\ Permutation (leaves (insert_at r i off bit ndir)) (i :: leaves r).
Proof.
  intros W Hb Hin Hpk Hp Hk. revert Hin.
  induction W as [j | c0 c1 noff nb Hnb W0 IH0 W1 IH1 H0 H1 Hag]; intros Hin Hno.
  - simpl. split; [|apply new_node_leaves].
    destruct Hin as [-> | []].
    apply (new_node_wf _ _ _ _ _ p); try assumption; try constructor.
    intros q [<- | []]. apply agree_refl.
  - simpl. destruct ((off <? noff)%nat || ((noff =? off)%nat && (nb <? bit))) eqn:T.
    + apply pos_lt_iff in T; try assumption.
      split; [|apply new_node_leaves].
      apply (new_node_wf _ _ _ _ _ p); try assumption; [now constructor|].
      intros q Hq. eapply agree_le; [apply Hag; assumption|simpl; lia].
    + assert (Hge : ~ (pos off bit < pos noff nb)%nat).
      { intros L. apply pos_lt_iff in L; try assumption. congruence. }
      pose proof (dir_nbit noff nb (ipath i) Hnb) as Hd.
      assert (Hlt : (pos noff nb < pos off bit)%nat).
      { destruct (Nat.eq_dec (pos noff nb) (pos off bit)) as [E | E]; [exfalso|lia].
        destruct (leaves_nonempty (child c0 c1 (dir noff nb (ipath i)))) as [q Hq].
        assert (Hq' : In q (leaves c0 ++ leaves c1)).
        { apply in_or_app. destruct (dir noff nb (ipath i)); simpl in Hq; tauto. }
        apply (Hno q Hq'). rewrite <- E. apply agree_S.
        - eapply agree_trans; [apply (Hag q p Hq' Hin)|]. now rewrite E.
        - rewrite <- Hd. destruct (dir noff nb (ipath i)); simpl in Hq; auto. }
      assert (Hpd : nbit (ipath p) (pos noff nb) = dir noff nb (ipath i)).
      { rewrite Hd. now apply Hpk. }
      assert (Hall : forall q, In q (i :: leaves c0 ++ leaves c1) ->
                               agree (ipath q) (ipath p) (pos noff nb)).
      { intros q [<- | Hq]; [|now apply Hag].
        apply agree_sym. eapply agree_le; [exact Hpk|lia]. }
      apply in_app_or in Hin.
      destruct (dir noff nb (ipath i)) eqn:Ed.
      * assert (Hin1 : In p (leaves c1)).
        { destruct Hin as [Hin|Hin]; [|assumption].
          rewrite (H0 p Hin) in Hpd. discriminate. }
        destruct (IH1 Hin1) as [W1' P1].
        { intros q Hq. apply Hno. apply in_or_app. now right. }
        split.
        -- constructor; try assumption.
           ++ intros q Hq. apply (Permutation_in _ P1) in Hq.
              destruct Hq as [<- | Hq]; [now symmetry|auto].
           ++ apply (agree_via (ipath p)). intros q Hq. apply Hall.
              apply in_app_or in Hq. destruct Hq as [Hq|Hq].
              ** right. apply in_or_app. now left.
              ** apply (Permutation_in _ P1) in Hq. destruct Hq as [<- | Hq];
                   [now left|right; apply in_or_app; now right].
        -- simpl. rewrite P1. symmetry. apply Permutation_middle.
      * assert (Hin0 : In p (leaves c0)).
        { destruct Hin as [Hin|Hin]; [assumption|].
          rewrite (H1 p Hin) in Hpd. discriminate. }
        destruct (IH0 Hin0) as [W0' P0].
        { intros q Hq. apply Hno. apply in_or_app. now left. }
        split.
        -- constructor; try assumption.
           ++ intros q Hq. apply (Permutation_in _ P0) in Hq.
              destruct Hq as [<- | Hq]; [now symmetry|auto].
           ++ apply (agree_via (ipath p)). intros q Hq. apply Hall.
              apply in_app_or in Hq. destruct Hq as [Hq|Hq].
              ** apply (Permutation_in _ P0) in Hq. destruct Hq as [<- | Hq];
                   [now left|right; apply in_or_app; now left].
              ** right. apply in_or_app. now right.
        -- simpl. rewrite P0. reflexivity.
Qed.

Lemma insert_found t i d :
  wf_tree t -> get t (ipath i) = Some d -> insert t i = (t, Some d).
Proof.
  intros W H. destruct t as [r|]; [|discriminate]. simpl in *.
  destruct (path_eqb (ipath i) (ipath (best r (ipath i)))) eqn:E; [|discriminate].
  injection H as <-. apply path_eqb_true in E. rewrite <- E.
  now rewrite find_byte_refl.
Qed.

Lemma insert_fresh t i :
  wf_tree t -> plain_tree t -> plain (ipath i) -> get t (ipath i) = None ->
  exists t', insert t i = (t', None) /\ wf_tree t'
             /\ Permutation (entries t') (i :: entries t).
Proof.
  intros W Pt Pi H. destruct t as [r|].
  - simpl in *. set (p := best r (ipath i)) in *.
    assert (Hp : In p (leaves r)) by apply best_in.
    assert (Pp : plain (ipath p)) by now apply Pt.
    destruct (path_eqb (ipath i) (ipath p)) eqn:E; [discriminate|].
    destruct (find_byte (ipath p) (ipath i)) as [[[o ch] b]|] eqn:F.
    + pose proof (find_byte_crit _ _ _ _ _ Pp F) as (Hb & Ha & Hn & Hk).
      rewrite <- Hn.
      destruct (insert_at_wf r i o (top_bit b) (nbit (ipath p) (pos o (top_bit b))) p)
        as [W' P']; try assumption; try reflexivity.
      { intros q Hq Hag. pose proof (best_longest r (ipath i) q _ W Hq Hag) as Hl.
        fold p in Hl. specialize (Hl (pos o (top_bit b)) ltac:(lia)).
        rewrite Hl in Hk. destruct (nbit (ipath i) _); discriminate. }
      eexists. split; [reflexivity|]. split; assumption.
    + apply find_byte_none_plain in F; try assumption.
      rewrite F, path_eqb_refl in E. discriminate.
  - simpl. eexists. split; [reflexivity|]. split; [exact (wf_leaf i)|reflexivity].
Qed.

Lemma insert_wf t i :
  wf_tree t -> plain_tree t -> plain (ipath i) ->
  wf_tree (fst (insert t i)) /\ plain_tree (fst (insert t i)).
Proof.
  intros W Pt Pi. destruct (get t (ipath i)) as [d|] eqn:G.
  - rewrite (insert_found t i d W G). now split.
  - destruct (insert_fresh t i W Pt Pi G) as (t' & -> & W' & P'). simpl.
    split; [assumption|]. intros q Hq. apply (Permutation_in _ P') in Hq.
    destruct Hq as [<- | Hq]; auto.
Qed.

Lemma insert_other t i q :
  wf_tree t -> plain_tree t -> plain (ipath i) -> q <> ipath i ->
  get (fst (insert t i)) q = get t q.
Proof.
  intros W Pt Pi Hne. destruct (get t (ipath i)) as [d|] eqn:G.
  - now rewrite (insert_found t i d W G).
  - destruct (insert_fresh t i W Pt Pi G) as (t' & -> & W' & P'). simpl.
    destruct (get t q) as [x|] eqn:Gq.
    + apply get_spec in Gq; [|assumption]. destruct Gq as [Hx Ex].
      apply get_spec; [assumption|]. split; [|assumption].
      apply (Permutation_in _ (Permutation_sym P')). now right.
    + apply get_none; [assumption|]. intros x Hx Ex.
      apply (Permutation_in _ P') in Hx. destruct Hx as [<- | Hx]; [congruence|].
      rewrite get_none in Gq by assumption. now apply (Gq x).
Qed.

Lemma insert_get t i :
  wf_tree t -> plain_tree t -> plain (ipath i) -> get t (ipath i) = None ->
  get (fst (insert t i)) (ipath i) = Some i.
Proof.
  intros W Pt Pi G. destruct (insert_fresh t i W Pt Pi G) as (t' & -> & W' & P').
  simpl. apply get_spec; [assumption|]. split; [|reflexivity].
  apply (Permutation_in _ (Permutation_sym P')). now left.
Qed.

(** ** The order of the leaves *)

Lemma forall_small2 (P : Z -> Z -> bool) :
  forallb (fun a => forallb (P a) all_small) all_small = true ->
  forall a c, small a -> small c -> P a c = true.
Proof.
  intros H a c Ha Hc.
  pose proof (forall_small _ H a Ha) as H'. simpl in H'.
  exact (forall_small _ H' c Hc).
Qed.

Lemma bits_eq_ok_all a c : small a -> small c -> bits_eq_ok a c = true.
Proof. apply forall_small2. vm_compute. reflexivity. Qed.

Lemma bits_lt_ok_all a c : small a -> small c -> bits_lt_ok a c = true.
Proof. apply forall_small2. vm_compute. reflexivity. Qed.

Lemma small_bits_eq a c :
  small a -> small c ->
  (forall j, (j < 8)%nat -> Z.testbit a (Z.of_nat j) = Z.testbit c (Z.of_nat j)) ->
  a = c.
Proof.
  intros Ha Hc H. pose proof (bits_eq_ok_all a c Ha Hc) as B.
  unfold bits_eq_ok in B.
  match type of B with implb ?x _ = true => assert (F : x = true) end.
  { apply forallb_forall. intros j Hj. apply in_seq in Hj.
    rewrite H by lia. apply Bool.eqb_reflx. }
  rewrite F in B. simpl in B. now apply Z.eqb_eq.
Qed.

Lemma small_bits_lt a c j :
  small a -> small c -> (j < 8)%nat ->
  (forall j', (j < j' < 8)%nat -> Z.testbit a (Z.of_nat j') = Z.testbit c (Z.of_nat j')) ->
  Z.testbit a (Z.of_nat j) = false -> Z.testbit c (Z.of_nat j) = true ->
  a < c.
Proof.
  intros Ha Hc Hj H E1 E2. pose proof (bits_lt_ok_all a c Ha Hc) as B.
  unfold bits_lt_ok in B. rewrite forallb_forall in B.
  specialize (B j). rewrite in_seq in B. specialize (B ltac:(lia)).
  rewrite E1, E2 in B. cbn [negb andb] in B. rewrite !andb_true_r in B.
  match type of B with implb ?x _ = true => assert (F : x = true) end.
  { apply forallb_forall. intros j' Hj'. apply in_seq in Hj'. apply orb_true_iff.
    destruct (Nat.le_gt_cases j' j) as [L|L]; [left; now apply Nat.leb_le|right].
    rewrite H by lia. apply Bool.eqb_reflx. }
  rewrite F in B. simpl in B. now apply Z.ltb_lt.
Qed.

Lemma nbit_byte k o j :
  (j < 8)%nat -> nbit k (8 * o + (7 - j)) = Z.testbit (member_ch k o) (Z.of_nat j).
Proof.
  intros Hj. unfold nbit.
  replace (8 * o + (7 - j))%nat with ((7 - j) + o * 8)%nat by lia.
  rewrite Nat.div_add by lia. rewrite Nat.Div0.mod_add.
  rewrite Nat.div_small by lia. rewrite Nat.mod_small by lia.
  do 2 f_equal. lia.
Qed.

Lemma agree_bytes k1 k2 n o :
  agree k1 k2 n -> (8 * o + 8 <= n)%nat -> member_ch k1 o = member_ch k2 o.
Proof.
  intros H Ho. apply small_bits_eq; try apply member_ch_small.
  intros j Hj. rewrite <- !nbit_byte by assumption. apply H. lia.
Qed.

Lemma bytes_agree k1 k2 l :
  (forall o, (o < l)%nat -> member_ch k1 o = member_ch k2 o) -> agree k1 k2 (8 * l).
Proof.
  intros H m Hm. unfold nbit. rewrite H; [reflexivity|].
  apply Nat.Div0.div_lt_upper_bound. lia.
Qed.

(** The first differing bit decides the first differing byte. *)
Lemma blt_bytes k1 k2 :
  blt k1 k2 ->
  exists o, (forall o', (o' < o)%nat -> member_ch k1 o' = member_ch k2 o')
            /\ member_ch k1 o < member_ch k2 o.
Proof.
  intros (n & Ha & E1 & E2). exists (n / 8)%nat.
  pose proof (Nat.div_mod_eq n 8) as D. pose proof (Nat.mod_upper_bound n 8 ltac:(lia)) as M.
  split.
  - intros o' Ho'. apply (agree_bytes k1 k2 n); [assumption|]. lia.
  - apply (small_bits_lt _ _ (7 - n mod 8)); try apply member_ch_small; try lia.
    + intros j' Hj'. rewrite <- !nbit_byte by lia. apply Ha. lia.
    + exact E1.
    + exact E2.
Qed.

Lemma member_ch_cons b k o : member_ch (b :: k) (S o) = member_ch k o.
Proof. reflexivity. Qed.

Lemma plain_cons b k : plain (b :: k) <-> 2 <= byte_val b /\ plain k.
Proof. unfold plain. now rewrite Forall_cons. Qed.

Lemma lex_compare_first k1 k2 o :
  plain k2 ->
  (forall o', (o' < o)%nat -> member_ch k1 o' = member_ch k2 o') ->
  member_ch k1 o < member_ch k2 o ->
  lex_compare (remap k1) (remap k2) = Lt.
Proof.
  revert k1 k2. induction o as [|o IH]; intros k1 k2 P2 Heq Hlt.
  - destruct k2 as [|y k2]; [pose proof (member_ch_small k1 0) as S1;
      unfold small in S1; unfold member_ch in Hlt at 2; simpl in Hlt; lia|].
    destruct k1 as [|x k1]; [reflexivity|].
    simpl. unfold member_ch in Hlt. simpl in Hlt.
    now rewrite (proj2 (Z.compare_lt_iff _ _) Hlt).
  - destruct k2 as [|y k2]; [pose proof (member_ch_small k1 (S o)) as S1;
      unfold small in S1; unfold member_ch in Hlt at 2; simpl in Hlt; lia|].
    apply plain_cons in P2. destruct P2 as [Py P2].
    pose proof (Heq 0%nat ltac:(lia)) as E0.
    destruct k1 as [|x k1].
    + unfold member_ch in E0. simpl in E0. unfold replaceSep in E0.
      destruct (_ =? _) in E0; lia.
    + simpl. unfold member_ch in E0. simpl in E0. rewrite E0, Z.compare_refl.
      apply IH; try assumption.
      intros o' Ho'. apply (Heq (S o')). lia.
Qed.

Lemma blt_lex k1 k2 : plain k2 -> blt k1 k2 -> lex_compare (remap k1) (remap k2) = Lt.
Proof.
  intros P2 H. destruct (blt_bytes k1 k2 H) as (o & Heq & Hlt).
  now apply (lex_compare_first k1 k2 o).
Qed.

(** ** The tree order is the walk order of the specification *)

Lemma split_sep_nonempty p : split_sep p <> [].
Proof.
  destruct p as [|b p]; simpl; [discriminate|].
  destruct (bool_decide _); [discriminate|].
  destruct (split_sep p); discriminate.
Qed.

Lemma comps_compare_nil_l l : l <> [] -> comps_compare [] l = Lt.
Proof. destruct l; [contradiction|reflexivity]. Qed.

Lemma comps_compare_nil_r l : l <> [] -> comps_compare l [] = Gt.
Proof. destruct l; [contradiction|reflexivity]. Qed.

Lemma replaceSep_sep : replaceSep (byte_val PathSeparator) = 1.
Proof. reflexivity. Qed.

Lemma replaceSep_other b :
  b <> PathSeparator -> replaceSep (byte_val b) = byte_val b.
Proof.
  intros H. unfold replaceSep. destruct (_ =? _) eqn:E; [|reflexivity].
  apply Z.eqb_eq in E. apply byte_val_inj in E. contradiction.
Qed.

Lemma remap_walk p : forall q,
  plain p -> plain q -> lex_compare (remap p) (remap q) = walk_compare p q.
Proof.
  unfold walk_compare.
  induction p as [|b p IH]; intros q Pp Pq.
  - destruct q as [|c q]; [reflexivity|]. simpl.
    destruct (bool_decide (c = PathSeparator)).
    + simpl. symmetry. apply comps_compare_nil_l, split_sep_nonempty.
    + destruct (split_sep q); reflexivity.
  - apply plain_cons in Pp. destruct Pp as [Pb Pp].
    destruct q as [|c q].
    + simpl. destruct (bool_decide (b = PathSeparator)).
      * simpl. symmetry. apply comps_compare_nil_r, split_sep_nonempty.
      * destruct (split_sep p); reflexivity.
    + apply plain_cons in Pq. destruct Pq as [Pc Pq].
      specialize (IH q Pp Pq). simpl.
      destruct (bool_decide (b = PathSeparator)) eqn:Eb;
      destruct (bool_decide (c = PathSeparator)) eqn:Ec.
      * apply bool_decide_eq_true in Eb, Ec. subst b c.
        rewrite Z.compare_refl. exact IH.
      * apply bool_decide_eq_true in Eb. apply bool_decide_eq_false in Ec. subst b.
        rewrite replaceSep_sep, (replaceSep_other c Ec).
        rewrite (proj2 (Z.compare_lt_iff _ _)) by lia.
        destruct (split_sep q); reflexivity.
      * apply bool_decide_eq_false in Eb. apply bool_decide_eq_true in Ec. subst c.
        rewrite replaceSep_sep, (replaceSep_other b Eb).
        rewrite (proj2 (Z.compare_gt_iff _ _)) by lia.
        destruct (split_sep p); reflexivity.
      * apply bool_decide_eq_false in Eb, Ec.
        rewrite (replaceSep_other b Eb), (replaceSep_other c Ec).
        pose proof (split_sep_nonempty p) as Np.
        pose proof (split_sep_nonempty q) as Nq.
        destruct (split_sep p) as [|n ns]; [contradiction|].
        destruct (split_sep q) as [|m ms]; [contradiction|].
        simpl. unfold name_compare at 1. simpl.
        destruct (byte_val b ?= byte_val c); try reflexivity.
        rewrite IH. reflexivity.
Qed.

Lemma blt_walk_before k1 k2 : plain k1 -> plain k2 -> blt k1 k2 -> walk_before k1 k2.
Proof.
  intros P1 P2 H. unfold walk_before. rewrite <- remap_walk by assumption.
  now apply blt_lex.
Qed.

Lemma StronglySorted_weaken {A} (R R' : A -> A -> Prop) l :
  (forall x y, In x l -> In y l -> R x y -> R' x y) ->
  StronglySorted R l -> StronglySorted R' l.
Proof.
  induction l as [|a l IH]; intros H S; [constructor|].
  apply StronglySorted_inv in S. destruct S as [S F]. constructor.
  - apply IH; [|assumption]. intros x y Hx Hy. apply H; now right.
  - rewrite Forall_forall in *. intros x Hx. apply H; [now left| |now apply F].
    right. now apply list_elem_of_In.
Qed.

Lemma StronglySorted_sublist {A} (R : A -> A -> Prop) l1 l2 :
  l1 `sublist_of` l2 -> StronglySorted R l2 -> StronglySorted R l1.
Proof.
  induction 1 as [|x l1 l2 Hs IH|x l1 l2 Hs IH]; intros S.
  - constructor.
  - apply StronglySorted_inv in S. destruct S as [S F]. constructor; [auto|].
    rewrite Forall_forall in *. intros y Hy. apply F.
    eapply elem_of_sublist; eauto.
  - apply StronglySorted_inv in S. destruct S as [S F]. auto.
Qed.

Lemma wf_sorted_bits r :
  wf r -> StronglySorted (fun i j => blt (ipath i) (ipath j)) (leaves r).
Proof.
  induction 1 as [j | c0 c1 off bit Hb W0 IH0 W1 IH1 H0 H1 Hag]; simpl.
  - repeat constructor.
  - apply StronglySorted_app_2; try assumption.
    intros x y Hx Hy. apply list_elem_of_In in Hx, Hy.
    exists (pos off bit). split; [|split; auto].
    apply Hag; apply in_or_app; auto.
Qed.

(** The leaves of a well-formed tree of plain paths are in walk order. *)
Lemma wf_sorted r :
  wf r -> (forall i, In i (leaves r) -> plain (ipath i)) ->
  StronglySorted entry_before (leaves r).
Proof.
  intros W P. eapply StronglySorted_weaken; [|apply wf_sorted_bits; assumption].
  intros x y Hx Hy H. apply blt_walk_before; auto.
Qed.

(** ** Traversal *)

Section TraversalFacts.
Context {S : Type}.
Implicit Types (f : @visitor S) (s : S).

Lemma walkiter_traced r f : forall skips s tr,
  walkiter r (traced f) skips (s, tr)
  = ((fst (walkiter r f skips s), tr ++ calls_of r f skips s),
     snd (walkiter r f skips s)).
Proof.
  induction r as [i | c0 IH0 c1 IH1 off bit]; intros skips s tr.
  - simpl. unfold visit_leaf.
    destruct (skipped skips (ipath i)); [now rewrite app_nil_r|].
    destruct (Ignored i); [now rewrite app_nil_r|].
    unfold traced at 1. simpl. destruct (f i s) as [s' e]. simpl.
    destruct (is_SkipDir e && IsDir i); reflexivity.
  - simpl. rewrite IH0.
    destruct (walkiter c0 f skips s) as [s0 e0]. simpl.
    destruct e0 as [e|]; [destruct e|];
      try (now rewrite app_nil_r);
      rewrite IH1; rewrite app_assoc;
      match goal with
      | |- context [walkiter c1 f ?sk s0] =>
          destruct (walkiter c1 f sk s0) as [sx ex]; simpl;
          destruct ex as [[]|]; reflexivity
      end.
Qed.

Lemma iter_calls_eq r f skips s : iter_calls r f skips s = calls_of r f skips s.
Proof. unfold iter_calls. now rewrite walkiter_traced. Qed.

Lemma calls_of_sublist r f : forall skips s,
  map fst (calls_of r f skips s) `sublist_of` leaves r.
Proof.
  induction r as [i | c0 IH0 c1 IH1 off bit]; intros skips s; simpl.
  - destruct (skipped skips (ipath i)); [apply sublist_nil_l|].
    destruct (Ignored i); [apply sublist_nil_l|]. simpl. reflexivity.
  - destruct (walkiter c0 f skips s) as [s0 e0]. rewrite map_app.
    apply sublist_app; [apply IH0|].
    destruct e0 as [[]|]; simpl; auto using sublist_nil_l.
Qed.

Lemma calls_of_not_ignored r f : forall skips s c,
  In c (calls_of r f skips s) -> Ignored (fst c) = false.
Proof.
  induction r as [i | c0 IH0 c1 IH1 off bit]; intros skips s c; simpl.
  - destruct (skipped skips (ipath i)); [intros []|].
    destruct (Ignored i) eqn:E; [intros []|]. intros [<- | []]. exact E.
  - destruct (walkiter c0 f skips s) as [s0 e0]. intros H.
    apply in_app_or in H. destruct H as [H|H]; [eauto|].
    destruct e0 as [[]|]; simpl in H; try contradiction; eauto.
Qed.

(** Either every call lets the traversal go on and [walkiter] returns nil
    or a skip value, or the last call stops it and its error is returned. *)
Lemma calls_of_stop r f : forall skips s,
  let calls := calls_of r f skips s in
  let res := snd (walkiter r f skips s) in
  (Forall (fun c => continues c = true) calls /\ is_skip res = true)
  \/ (exists pre i e, calls = pre ++ [(i, Some e)]
                      /\ Forall (fun c => continues c = true) pre
                      /\ continues (i, Some e) = false /\ res = Some e).
Proof.
  induction r as [i | c0 IH0 c1 IH1 off bit]; intros skips s; simpl.
  - unfold visit_leaf. destruct (skipped skips (ipath i)); [left; now split|].
    destruct (Ignored i); [left; now split|].
    destruct (f i s) as [s' e]. simpl.
    destruct (continues (i, e)) eqn:C.
    + left. split; [repeat constructor; assumption|].
      unfold continues in C. simpl in C.
      destruct e as [[]|]; simpl in *; try discriminate; try reflexivity.
      now rewrite C.
    + right. destruct e as [e|]; [|discriminate].
      exists [], i, e. simpl. repeat split; auto.
      unfold continues in C. simpl in C.
      destruct e; simpl in *; try discriminate; try reflexivity.
      now rewrite C.
  - specialize (IH0 skips s). simpl in IH0.
    destruct (walkiter c0 f skips s) as [s0 e0]. simpl in IH0.
    destruct IH0 as [[F0 R0] | (pre & i & e & E & Fp & C & R)].
    + assert (Hsec : forall sk,
        let calls := calls_of c0 f skips s ++ calls_of c1 f sk s0 in
        let res := snd (let '(sx, err) := walkiter c1 f sk s0 in
                        match err with
                        | Some (skip _) => (sx, None)
                        | Some e1 => (sx, Some e1)
                        | None => (sx, None)
                        end) in
        (Forall (fun c => continues c = true) calls /\ is_skip res = true)
        \/ (exists pre i e, calls = pre ++ [(i, Some e)]
                            /\ Forall (fun c => continues c = true) pre
                            /\ continues (i, Some e) = false /\ res = Some e)).
      { intros sk. specialize (IH1 sk s0). simpl in IH1. simpl.
        destruct (walkiter c1 f sk s0) as [sx ex]. simpl in IH1.
        destruct IH1 as [[F1 R1] | (pre & i & e & E & Fp & C & R)].
        - left. split; [now apply Forall_app|].
          destruct ex as [[]|]; simpl in *; try discriminate; reflexivity.
        - right. exists (calls_of c0 f skips s ++ pre), i, e.
          rewrite E, app_assoc. subst ex.
          repeat split; auto; [now apply Forall_app|].
          unfold continues in C. simpl in C. destruct e; simpl; try reflexivity.
          discriminate. }
      destruct e0 as [[]|]; simpl in R0; try discriminate; apply Hsec.
    + right. subst e0. exists pre, i, e.
      unfold continues in C. simpl in C.
      destruct e; try discriminate; simpl; rewrite ?app_nil_r; auto.
Qed.
End TraversalFacts.

(** ** The subtree of a root *)

Lemma pos_lt_len off bit l : is_bit bit -> (pos off bit < 8 * l)%nat <-> (off < l)%nat.
Proof.
  intros H. destruct (is_bit_pos off bit H) as (_ & _ & L). unfold pos. lia.
Qed.

Lemma has_prefix_lookup root : forall p,
  has_prefix p root = true <-> forall o, (o < length root)%nat -> p !! o = root !! o.
Proof.
  induction root as [|b root IH]; intros p; simpl.
  - split; [intros _ o Ho; lia|reflexivity].
  - destruct p as [|c p].
    + split; [discriminate|]. intros H. specialize (H 0%nat ltac:(lia)). discriminate.
    + rewrite andb_true_iff, bool_decide_eq_true, IH. split.
      * intros [-> H] [|o] Ho; [reflexivity|]. simpl. apply H. lia.
      * intros H. split.
        -- specialize (H 0%nat ltac:(lia)). simpl in H. congruence.
        -- intros o Ho. apply (H (S o)). lia.
Qed.

Lemma has_prefix_app root rest : has_prefix (root ++ rest) root = true.
Proof.
  apply has_prefix_lookup. intros o Ho. now apply lookup_app_l.
Qed.

Lemma has_prefix_split p root :
  has_prefix p root = true -> exists rest, p = root ++ rest.
Proof.
  revert p. induction root as [|b root IH]; intros p; simpl.
  - intros _. now exists p.
  - destruct p as [|c p]; [discriminate|].
    rewrite andb_true_iff, bool_decide_eq_true. intros [-> H].
    destruct (IH p H) as [rest ->]. now exists rest.
Qed.

Lemma has_prefix_agree p root :
  has_prefix p root = true -> agree p root (8 * length root).
Proof.
  intros H. apply bytes_agree. intros o Ho. unfold member_ch.
  rewrite has_prefix_lookup in H. now rewrite H.
Qed.

Lemma agree_has_prefix p root :
  plain p -> plain root -> agree p root (8 * length root) -> has_prefix p root = true.
Proof.
  intros Pp Pr H. apply has_prefix_lookup. intros o Ho.
  pose proof (agree_bytes p root _ o H ltac:(lia)) as E.
  pose proof (plain_member_ch root o Pr Ho) as G.
  unfold member_ch in E, G.
  destruct (root !! o) as [b|] eqn:Eb; [|lia].
  destruct (p !! o) as [c|] eqn:Ec; [|lia].
  f_equal. apply byte_val_inj.
  unfold plain in Pp, Pr. rewrite Forall_forall in Pp, Pr.
  apply replaceSep_inj; [apply Pp | apply Pr | exact E];
    eapply list_elem_of_lookup_2; eassumption.
Qed.

Lemma top_loop_deep root p : forall T,
  wf p ->
  (forall x y, In x (leaves p) -> In y (leaves p) ->
               agree (ipath x) (ipath y) (8 * length root)) ->
  top_loop p T root = (best p root, T).
Proof.
  induction p as [i | c0 IH0 c1 IH1 off bit]; intros T W Hag; [reflexivity|].
  inversion W as [|? ? ? ? Hb W0 W1 H0 H1 Hag']; subst. simpl.
  assert (L : (off <? length root)%nat = false).
  { apply Nat.ltb_ge. destruct (Nat.le_gt_cases (length root) off) as [L|L]; [assumption|].
    exfalso. apply (pos_lt_len off bit _ Hb) in L.
    destruct (leaves_nonempty c0) as [x Hx]. destruct (leaves_nonempty c1) as [y Hy].
    pose proof (Hag x y ltac:(simpl; apply in_or_app; auto)
                        ltac:(simpl; apply in_or_app; auto) _ L) as E.
    rewrite (H0 x Hx), (H1 y Hy) in E. discriminate. }
  rewrite L.
  destruct (dir off bit root); simpl.
  - apply IH1; [assumption|]. intros x y Hx Hy. apply Hag; simpl; apply in_or_app; auto.
  - apply IH0; [assumption|]. intros x y Hx Hy. apply Hag; simpl; apply in_or_app; auto.
Qed.

Lemma top_loop_eq root p :
  wf p -> top_loop p p root = (best p root, subtree_of p root).
Proof.
  induction p as [i | c0 IH0 c1 IH1 off bit]; intros W; [reflexivity|].
  inversion W as [|? ? ? ? Hb W0 W1 H0 H1 Hag]; subst. simpl.
  destruct (off <? length root)%nat eqn:L.
  - destruct (dir off bit root); simpl; auto.
  - apply Nat.ltb_ge in L.
    assert (Hle : (8 * length root <= pos off bit)%nat).
    { destruct (Nat.le_gt_cases (8 * length root) (pos off bit)) as [G|G]; [assumption|].
      apply (pos_lt_len off bit _ Hb) in G. lia. }
    destruct (dir off bit root); simpl.
    + apply top_loop_deep; [assumption|]. intros x y Hx Hy.
      eapply agree_le; [apply Hag; apply in_or_app; right; assumption|assumption].
    + apply top_loop_deep; [assumption|]. intros x y Hx Hy.
      eapply agree_le; [apply Hag; apply in_or_app; left; assumption|assumption].
Qed.

Lemma subtree_of_wf root p : wf p -> wf (subtree_of p root).
Proof.
  induction 1 as [j | c0 c1 off bit Hb W0 IH0 W1 IH1 H0 H1 Hag]; simpl; [constructor|].
  destruct (off <? length root)%nat; [|now constructor].
  destruct (dir off bit root); simpl; assumption.
Qed.

Lemma subtree_of_sublist root p : leaves (subtree_of p root) `sublist_of` leaves p.
Proof.
  induction p as [i | c0 IH0 c1 IH1 off bit]; simpl; [reflexivity|].
  destruct (off <? length root)%nat; [|reflexivity].
  destruct (dir off bit root); simpl.
  - now apply sublist_inserts_l.
  - now apply sublist_inserts_r.
Qed.

Lemma subtree_of_best root p : In (best p root) (leaves (subtree_of p root)).
Proof.
  induction p as [i | c0 IH0 c1 IH1 off bit]; simpl; [now left|].
  destruct (off <? length root)%nat.
  - destruct (dir off bit root); simpl; assumption.
  - simpl. apply in_or_app. destruct (dir off bit root); simpl; [right|left]; apply best_in.
Qed.

Lemma subtree_of_agree root p x y :
  wf p -> In x (leaves (subtree_of p root)) -> In y (leaves (subtree_of p root)) ->
  agree (ipath x) (ipath y) (8 * length root).
Proof.
  induction 1 as [j | c0 c1 off bit Hb W0 IH0 W1 IH1 H0 H1 Hag]; simpl.
  - intros [<- | []] [<- | []]. apply agree_refl.
  - destruct (off <? length root)%nat eqn:L.
    + destruct (dir off bit root); simpl; assumption.
    + simpl. intros Hx Hy. eapply agree_le; [now apply Hag|].
      apply Nat.ltb_ge in L.
      destruct (Nat.le_gt_cases (8 * length root) (pos off bit)) as [G|G]; [assumption|].
      apply (pos_lt_len off bit _ Hb) in G. lia.
Qed.

Lemma subtree_of_complete root p x :
  wf p -> In x (leaves p) -> agree (ipath x) root (8 * length root) ->
  In x (leaves (subtree_of p root)).
Proof.
  induction 1 as [j | c0 c1 off bit Hb W0 IH0 W1 IH1 H0 H1 Hag]; simpl; [auto|].
  intros Hx Ha. destruct (off <? length root)%nat eqn:L; [|assumption].
  apply Nat.ltb_lt in L. apply (pos_lt_len off bit _ Hb) in L.
  rewrite (dir_nbit off bit root Hb). rewrite <- (Ha _ L).
  apply in_app_or in Hx. destruct Hx as [Hx|Hx].
  - rewrite (H0 x Hx). simpl. auto.
  - rewrite (H1 x Hx). simpl. auto.
Qed.

(** Under plain paths the subtree holds exactly the entries below [root]. *)
Lemma subtree_of_spec root p :
  wf p -> plain root -> (forall i, In i (leaves p) -> plain (ipath i)) ->
  has_prefix (ipath (best p root)) root = true ->
  forall x, In x (leaves (subtree_of p root))
            <-> In x (leaves p) /\ has_prefix (ipath x) root = true.
Proof.
  intros W Pr Pp Hb x. split.
  - intros Hx.
    assert (Hin : In x (leaves p)).
    { apply list_elem_of_In. eapply elem_of_sublist; [|apply subtree_of_sublist].
      apply list_elem_of_In. eassumption. }
    split; [assumption|]. apply agree_has_prefix; auto.
    eapply agree_trans; [|apply has_prefix_agree; exact Hb].
    apply (subtree_of_agree root p); auto. apply subtree_of_best.
  - intros [Hx Hp]. apply subtree_of_complete; auto. now apply has_prefix_agree.
Qed.

Lemma subtree_of_none root p :
  wf p -> plain root -> (forall i, In i (leaves p) -> plain (ipath i)) ->
  has_prefix (ipath (best p root)) root = false ->
  forall x, In x (leaves p) -> has_prefix (ipath x) root = false.
Proof.
  intros W Pr Pp Hb x Hx. destruct (has_prefix (ipath x) root) eqn:E; [|reflexivity].
  rewrite <- Hb. symmetry. apply agree_has_prefix; auto; [apply Pp, best_in|].
  apply (best_longest p root x); auto. now apply has_prefix_agree.
Qed.

(** ** [walk] *)

Section WalkFacts.
Context {S : Type}.
Implicit Types (f : @visitor S) (s : S).

Lemma walk_traced t root f s :
  walk t root (traced f) (s, [])
  = ((fst (walk t root f s), walk_calls t root f s), snd (walk t root f s)).
Proof.
  unfold walk_calls. destruct (walk t root (traced f) (s, [])) as [[s1 c1] e1] eqn:E.
  simpl. revert E. unfold walk.
  destruct (get t root) as [fi|]; [|intros E; now inversion E].
  destruct t as [r|]; [|intros E; now inversion E].
  destruct (Ignored fi); [intros E; now inversion E|].
  unfold traced at 1. simpl. destruct (f fi s) as [s' e].
  destruct (negb (IsDir fi) || bool_decide (e <> None)); [intros E; now inversion E|].
  destruct (top_loop r r (root ++ [PathSeparator])) as [pi top].
  destruct (negb (has_prefix (ipath pi) (root ++ [PathSeparator])));
    [intros E; now inversion E|].
  rewrite walkiter_traced. intros E. now inversion E.
Qed.

Lemma walk_calls_raw t root f s :
  walk_calls t root f s
  = match get t root, t with
    | Some fi, Some r =>
        if Ignored fi then [] else
        (fi, snd (f fi s)) ::
        let root' := root ++ [PathSeparator] in
        if IsDir fi && bool_decide (snd (f fi s) = None)
           && has_prefix (ipath (fst (top_loop r r root'))) root'
        then calls_of (snd (top_loop r r root')) f [] (fst (f fi s))
        else []
    | _, _ => []
    end.
Proof.
  unfold walk_calls, walk.
  destruct (get t root) as [fi|] eqn:G; [|reflexivity].
  destruct t as [r|]; [|reflexivity].
  destruct (Ignored fi) eqn:Ig; [reflexivity|].
  unfold traced at 1. simpl. destruct (f fi s) as [s' e] eqn:F. simpl.
  destruct (IsDir fi) eqn:D; simpl; [|reflexivity].
  destruct e as [e|].
  { rewrite bool_decide_eq_true_2 by discriminate.
    rewrite bool_decide_eq_false_2 by discriminate. reflexivity. }
  rewrite bool_decide_eq_false_2 by (intros H; now apply H).
  rewrite bool_decide_eq_true_2 by reflexivity.
  destruct (top_loop r r (root ++ [PathSeparator])) as [pi top]. simpl.
  destruct (has_prefix _ _) eqn:P; simpl; [|reflexivity].
  now rewrite walkiter_traced.
Qed.

Lemma walk_result_raw t root f s :
  snd (walk t root f s)
  = match get t root, t with
    | Some fi, Some r =>
        if Ignored fi then not_exist root else
        let root' := root ++ [PathSeparator] in
        if IsDir fi && bool_decide (snd (f fi s) = None)
           && has_prefix (ipath (fst (top_loop r r root'))) root'
        then snd (walkiter (snd (top_loop r r root')) f [] (fst (f fi s)))
        else snd (f fi s)
    | _, _ => not_exist root
    end.
Proof.
  unfold walk.
  destruct (get t root) as [fi|] eqn:G; [|reflexivity].
  destruct t as [r|]; [|reflexivity].
  destruct (Ignored fi) eqn:Ig; [reflexivity|].
  destruct (f fi s) as [s' e] eqn:F. simpl.
  destruct (IsDir fi) eqn:D; simpl; [|reflexivity].
  destruct e as [e|].
  { rewrite bool_decide_eq_true_2 by discriminate.
    rewrite bool_decide_eq_false_2 by discriminate. reflexivity. }
  rewrite bool_decide_eq_false_2 by (intros H; now apply H).
  rewrite bool_decide_eq_true_2 by reflexivity.
  destruct (top_loop r r (root ++ [PathSeparator])) as [pi top]. simpl.
  destruct (has_prefix _ _) eqn:P; reflexivity.
Qed.

Lemma walk_calls_not_ignored t root f s c :
  In c (walk_calls t root f s) -> Ignored (fst c) = false.
Proof.
  rewrite walk_calls_raw.
  destruct (get t root) as [fi|]; [|intros []].
  destruct t as [r|]; [|intros []].
  destruct (Ignored fi) eqn:Ig; [intros []|].
  intros [<- | H]; [exact Ig|]. cbv zeta in H.
  destruct (_ && _) in H; [|destruct H].
  eapply calls_of_not_ignored; eassumption.
Qed.

(** A call that does not let the traversal go on is the last one, and
    its error is what [walk] returns. *)
Lemma walk_calls_stop t root f s i e :
  In (i, Some e) (walk_calls t root f s) ->
  continues (i, Some e) = false ->
  (exists pre, walk_calls t root f s = pre ++ [(i, Some e)])
  /\ snd (walk t root f s) = Some e.
Proof.
  rewrite walk_calls_raw, walk_result_raw.
  destruct (get t root) as [fi|]; [|intros []].
  destruct t as [r|]; [|intros []].
  destruct (Ignored fi) eqn:Ig; [intros []|]. cbv zeta.
  destruct (IsDir fi && bool_decide (snd (f fi s) = None)
            && has_prefix _ _) eqn:C.
  - apply andb_true_iff in C. destruct C as [C _].
    apply andb_true_iff in C. destruct C as [D N].
    apply bool_decide_eq_true in N.
    intros [H | H] Hc.
    { injection H as <- H. rewrite N in H. discriminate. }
    set (top := snd (top_loop r r (root ++ [PathSeparator]))) in *.
    destruct (calls_of_stop top f [] (fst (f fi s)))
      as [[F _] | (pre & i' & e' & E & Fp & C' & R)].
    + rewrite Forall_forall in F. apply list_elem_of_In in H.
      rewrite (F _ H) in Hc. discriminate.
    + rewrite E in H. apply in_app_or in H. destruct H as [H | [H | []]].
      * rewrite Forall_forall in Fp. apply list_elem_of_In in H.
        rewrite (Fp _ H) in Hc. discriminate.
      * injection H as -> ->. split; [|assumption].
        exists ((fi, snd (f fi s)) :: pre). now rewrite E.
  - intros [H | []] Hc. injection H as <- H. split; [|now rewrite H].
    exists []. simpl. now rewrite H.
Qed.

(** What [walk] calls the visitor on, for a well-formed index. *)
Lemma walk_calls_shape t root f s :
  wf_tree t ->
  walk_calls t root f s
  = match get t root, t with
    | Some fi, Some r =>
        if Ignored fi then [] else
        (fi, snd (f fi s)) ::
        let root' := root ++ [PathSeparator] in
        if IsDir fi && bool_decide (snd (f fi s) = None)
           && has_prefix (ipath (best r root')) root'
        then calls_of (subtree_of r root') f [] (fst (f fi s))
        else []
    | _, _ => []
    end.
Proof.
  intros W. unfold walk_calls, walk.
  destruct (get t root) as [fi|] eqn:G; [|reflexivity].
  destruct t as [r|]; [|reflexivity].
  destruct (Ignored fi) eqn:Ig; [reflexivity|].
  unfold traced at 1. simpl. destruct (f fi s) as [s' e] eqn:F. simpl.
  destruct (IsDir fi) eqn:D; simpl; [|reflexivity].
  destruct e as [e|].
  { rewrite bool_decide_eq_true_2 by discriminate.
    rewrite bool_decide_eq_false_2 by discriminate. reflexivity. }
  rewrite bool_decide_eq_false_2 by (intros H; now apply H).
  rewrite bool_decide_eq_true_2 by reflexivity.
  rewrite top_loop_eq by exact W.
  destruct (has_prefix _ _) eqn:P; simpl; [|reflexivity].
  now rewrite walkiter_traced.
Qed.

Lemma walk_result t root f s :
  wf_tree t ->
  snd (walk t root f s)
  = match get t root, t with
    | Some fi, Some r =>
        if Ignored fi then not_exist root else
        let root' := root ++ [PathSeparator] in
        if IsDir fi && bool_decide (snd (f fi s) = None)
           && has_prefix (ipath (best r root')) root'
        then snd (walkiter (subtree_of r root') f [] (fst (f fi s)))
        else snd (f fi s)
    | _, _ => not_exist root
    end.
Proof.
  intros W. unfold walk.
  destruct (get t root) as [fi|] eqn:G; [|reflexivity].
  destruct t as [r|]; [|reflexivity].
  destruct (Ignored fi) eqn:Ig; [reflexivity|].
  destruct (f fi s) as [s' e] eqn:F. simpl.
  destruct (IsDir fi) eqn:D; simpl; [|reflexivity].
  destruct e as [e|].
  { rewrite bool_decide_eq_true_2 by discriminate.
    rewrite bool_decide_eq_false_2 by discriminate. reflexivity. }
  rewrite bool_decide_eq_false_2 by (intros H; now apply H).
  rewrite bool_decide_eq_true_2 by reflexivity.
  rewrite top_loop_eq by exact W.
  destruct (has_prefix _ _) eqn:P; reflexivity.
Qed.
End WalkFacts.

Lemma remap_app a b : remap (a ++ b) = remap a ++ remap b.
Proof. unfold remap. apply map_app. Qed.

Lemma lex_compare_prefix l y r : lex_compare l (l ++ y :: r) = Lt.
Proof.
  induction l as [|x l IH]; simpl; [reflexivity|]. now rewrite Z.compare_refl.
Qed.

(** A directory comes before everything under it. *)
Lemma walk_before_below root rest :
  plain root -> plain rest -> walk_before root (root ++ PathSeparator :: rest).
Proof.
  intros Pr Pe. unfold walk_before. rewrite <- remap_walk.
  - rewrite remap_app. apply lex_compare_prefix.
  - assumption.
  - unfold plain in *. apply Forall_app. split; [assumption|].
    apply Forall_cons. split; [vm_compute; discriminate|assumption].
Qed.

Lemma plain_app a b : plain (a ++ b) <-> plain a /\ plain b.
Proof. unfold plain. apply Forall_app. Qed.

Lemma plain_sep : plain [PathSeparator].
Proof. unfold plain. repeat constructor. vm_compute. discriminate. Qed.

(** The calls of [walk] are made in walk order. *)
Lemma walk_sorted {S} t root (f : @visitor S) s :
  wf_tree t -> plain_tree t ->
  StronglySorted entry_before (map fst (walk_calls t root f s)).
Proof.
  intros W P. rewrite walk_calls_shape by assumption.
  destruct (get t root) as [fi|] eqn:G; [|constructor].
  destruct t as [r|]; [|constructor].
  destruct (Ignored fi); [constructor|].
  cbv zeta. set (root' := root ++ [PathSeparator]).
  destruct (IsDir fi && bool_decide (snd (f fi s) = None)
            && has_prefix (ipath (best r root')) root') eqn:C;
    [|repeat constructor].
  apply andb_true_iff in C. destruct C as [_ Hp].
  apply get_in in G. destruct G as [Hfi Er]. simpl in Hfi.
  assert (Pr : plain root) by (rewrite <- Er; now apply P).
  assert (Pr' : plain root').
  { apply plain_app. split; [assumption|apply plain_sep]. }
  set (T := subtree_of r root').
  assert (Hsub : map fst (calls_of T f [] (fst (f fi s))) `sublist_of` leaves T)
    by apply calls_of_sublist.
  simpl. constructor.
  - eapply StronglySorted_sublist; [exact Hsub|].
    apply wf_sorted; [now apply subtree_of_wf|].
    intros i Hi. apply P. simpl. apply list_elem_of_In.
    eapply elem_of_sublist; [|apply subtree_of_sublist]. apply list_elem_of_In. exact Hi.
  - rewrite Forall_forall. intros x Hx.
    pose proof (elem_of_sublist _ _ _ Hx Hsub) as Hx'. apply list_elem_of_In in Hx'.
    apply (subtree_of_spec _ r W Pr' P Hp) in Hx'. destruct Hx' as [Hin Hpre].
    apply has_prefix_split in Hpre. destruct Hpre as [rest Ex].
    unfold entry_before. rewrite Er, Ex. unfold root'. rewrite <- app_assoc. simpl.
    apply walk_before_below; [assumption|].
    pose proof (P x Hin) as Px. rewrite Ex in Px. unfold root' in Px.
    rewrite <- app_assoc in Px. simpl in Px.
    apply plain_app in Px. destruct Px as [_ Px]. apply plain_cons in Px. tauto.
Qed.

(** ** Indexes built by insertion *)

Lemma plainb_spec p : plainb p = true -> plain p.
Proof.
  unfold plainb, plain. rewrite forallb_forall, Forall_forall.
  intros H b Hb. apply Z.leb_le. apply H. now apply list_elem_of_In.
Qed.

Lemma index_of_wf l :
  Forall (fun i => plain (ipath i)) l ->
  wf_tree (index_of l) /\ plain_tree (index_of l).
Proof.
  unfold index_of.
  assert (G : forall t, wf_tree t -> plain_tree t ->
                        Forall (fun i => plain (ipath i)) l ->
                        wf_tree (fold_left (fun t i => fst (insert t i)) l t)
                        /\ plain_tree (fold_left (fun t i => fst (insert t i)) l t)).
  { induction l as [|i l IH]; intros t W P F; simpl; [now split|].
    apply Forall_cons in F. destruct F as [Pi F].
    destruct (insert_wf t i W P Pi) as [W' P']. now apply IH. }
  apply G; [exact I|intros i []].
Qed.

Lemma index_of_wf_b l :
  forallb (fun i => plainb (ipath i)) l = true ->
  wf_tree (index_of l) /\ plain_tree (index_of l).
Proof.
  intros H. apply index_of_wf. rewrite forallb_forall in H.
  apply Forall_forall. intros i Hi. apply plainb_spec, H. now apply list_elem_of_In.
Qed.

(** ** [Clean] is idempotent *)

Lemma split_sep_no_sep p : Forall (fun e => ~ In PathSeparator e) (split_sep p).
Proof.
  induction p as [|b p IH]; simpl.
  - repeat constructor. intros [].
  - destruct (bool_decide (b = PathSeparator)) eqn:E.
    + constructor; [intros []|assumption].
    + apply bool_decide_eq_false in E.
      destruct (split_sep p) as [|n ns]; [repeat constructor; intros [H|[]]; congruence|].
      apply Forall_cons in IH. destruct IH as [Hn Hns].
      constructor; [|assumption]. intros [H|H]; [congruence|contradiction].
Qed.

Lemma split_sep_single e : ~ In PathSeparator e -> split_sep e = [e].
Proof.
  induction e as [|b e IH]; intros H; simpl; [reflexivity|].
  rewrite bool_decide_eq_false_2 by (intros ->; apply H; now left).
  rewrite IH; [reflexivity|]. intros H'. apply H. now right.
Qed.

Lemma split_sep_app e p :
  ~ In PathSeparator e -> split_sep (e ++ PathSeparator :: p) = e :: split_sep p.
Proof.
  induction e as [|b e IH]; intros H; simpl.
  - reflexivity.
  - rewrite bool_decide_eq_false_2 by (intros ->; apply H; now left).
    rewrite IH; [reflexivity|]. intros H'. apply H. now right.
Qed.

Lemma split_join l :
  l <> [] -> Forall (fun e => ~ In PathSeparator e) l -> split_sep (join_sep l) = l.
Proof.
  induction l as [|e l IH]; intros Hne F; [contradiction|].
  apply Forall_cons in F. destruct F as [He F].
  destruct l as [|e' l]; simpl.
  - now apply split_sep_single.
  - rewrite split_sep_app by assumption. f_equal. apply IH; [discriminate|assumption].
Qed.

Lemma clean_elems_ok rooted elems : forall stack,
  Forall (fun e => ~ In PathSeparator e) elems ->
  Forall elem_ok stack -> Forall elem_ok (clean_elems rooted elems stack).
Proof.
  induction elems as [|e rest IH]; intros stack F S; simpl; [assumption|].
  apply Forall_cons in F. destruct F as [He F].
  destruct (bool_decide (e = [])) eqn:E1; [auto|].
  destruct (bool_decide (e = [dot])) eqn:E2; [auto|].
  apply bool_decide_eq_false in E1, E2.
  assert (Ok : elem_ok e) by (repeat split; assumption).
  destruct (bool_decide (e = [dot; dot])) eqn:E3.
  - destruct stack as [|top stack'].
    + destruct rooted; apply IH; auto.
    + apply Forall_cons in S. destruct S as [St S'].
      destruct (bool_decide (top = [dot; dot])); apply IH; auto.
  - apply IH; auto.
Qed.

(** The [..] elements stay at the bottom of the stack, and a rooted path
    keeps none. *)
Lemma clean_elems_shape rooted elems : forall n reals,
  ~ In dotdot reals -> (rooted = true -> n = 0%nat) ->
  exists m reals',
    clean_elems rooted elems (reals ++ replicate n dotdot)
    = reals' ++ replicate m dotdot
    /\ ~ In dotdot reals' /\ (rooted = true -> m = 0%nat).
Proof.
  induction elems as [|e rest IH]; intros n reals Hr Hn; simpl; [eauto|].
  destruct (bool_decide (e = [])); [auto|].
  destruct (bool_decide (e = [dot])); [auto|].
  destruct (bool_decide (e = [dot; dot])) eqn:E3.
  - apply bool_decide_eq_true in E3. subst e.
    destruct reals as [|top reals'].
    + simpl. destruct n as [|n]; simpl.
      * destruct rooted; [apply (IH 0%nat []); auto|].
        apply (IH 1%nat []); auto. discriminate.
      * apply (IH (S (S n)) []); auto.
        intros H. specialize (Hn H). discriminate.
    + simpl. rewrite bool_decide_eq_false_2 by (intros ->; apply Hr; now left).
      apply IH; auto. intros H. apply Hr. now right.
  - apply bool_decide_eq_false in E3.
    apply (IH n (e :: reals)); auto.
    intros [H|H]; [now subst e|contradiction].
Qed.

Lemma clean_elems_push rooted l : forall stack,
  Forall elem_ok l -> ~ In dotdot l ->
  clean_elems rooted l stack = rev l ++ stack.
Proof.
  induction l as [|e l IH]; intros stack F Hd; simpl; [reflexivity|].
  apply Forall_cons in F. destruct F as [(H1 & H2 & H3) F].
  rewrite bool_decide_eq_false_2 by assumption.
  rewrite bool_decide_eq_false_2 by assumption.
  rewrite bool_decide_eq_false_2 by (intros ->; apply Hd; now left).
  rewrite IH; [|assumption|intros H; apply Hd; now right].
  now rewrite <- app_assoc.
Qed.

Lemma clean_elems_dotdot m : forall n rest,
  clean_elems false (replicate m dotdot ++ rest) (replicate n dotdot)
  = clean_elems false rest (replicate (m + n) dotdot).
Proof.
  induction m as [|m IH]; intros n rest; [reflexivity|].
  simpl replicate. simpl app. unfold dotdot at 1. simpl clean_elems.
  destruct n as [|n]; simpl.
  - change [[dot; dot]] with (replicate 1 dotdot). rewrite IH.
    replace (m + 1)%nat with (S (m + 0)) by lia. reflexivity.
  - change ([dot; dot] :: dotdot :: replicate n dotdot)
      with (replicate (S (S n)) dotdot).
    rewrite IH. replace (m + S (S n))%nat with (S (m + S n)) by lia. reflexivity.
Qed.

Lemma join_sep_hd e l :
  e <> [] -> exists b t, join_sep (e :: l) = b :: t /\ hd_error e = Some b.
Proof.
  destruct e as [|b e]; [contradiction|]. intros _.
  destruct l; simpl; eauto.
Qed.

Lemma elem_ok_dotdot : elem_ok dotdot.
Proof.
  repeat split; try discriminate. intros [H|[H|[]]]; vm_compute in H; discriminate.
Qed.

Lemma rev_replicate {A} (x : A) n : rev (replicate n x) = replicate n x.
Proof.
  induction n as [|n IH]; [reflexivity|]. simpl. rewrite IH.
  clear IH. induction n as [|n IH]; [reflexivity|]. simpl. now rewrite IH.
Qed.

Theorem Clean_idempotent p : Clean (Clean p) = Clean p.
Proof.
  set (rooted := is_rooted p).
  pose proof (clean_elems_ok rooted (split_sep p) [] (split_sep_no_sep p)
                (Forall_nil_2 _)) as Ok.
  destruct (clean_elems_shape rooted (split_sep p) 0 [] (fun H => H) (fun _ => eq_refl))
    as (m & reals & E & Hr & Hm).
  simpl in E. rewrite E in Ok.
  set (l := rev (reals ++ replicate m dotdot)).
  assert (Ep : Clean p = if rooted then PathSeparator :: join_sep l
                         else match join_sep l with
                              | [] => [dot]
                              | _ => join_sep l
                              end).
  { unfold Clean. fold rooted. rewrite E. reflexivity. }
  rewrite Ep. clear Ep E.
  assert (Hl : l = replicate m dotdot ++ rev reals).
  { unfold l. now rewrite rev_app_distr, rev_replicate. }
  assert (Okl : Forall elem_ok l).
  { unfold l. apply Forall_rev. exact Ok. }
  assert (Nsl : Forall (fun e => ~ In PathSeparator e) l).
  { eapply Forall_impl; [exact Okl|]. intros e (_ & _ & H). exact H. }
  assert (Okr : Forall elem_ok (rev reals)).
  { rewrite Hl in Okl. apply Forall_app in Okl. tauto. }
  assert (Hdr : ~ In dotdot (rev reals)).
  { intros H. apply Hr. now apply in_rev. }
  clearbody l. clear Ok.
  destruct rooted eqn:R.
  - specialize (Hm eq_refl). subst m. simpl in Hl.
    unfold Clean. cbn [is_rooted]. rewrite bool_decide_eq_true_2 by reflexivity.
    cbn [split_sep]. rewrite bool_decide_eq_true_2 by reflexivity.
    cbn [clean_elems]. rewrite bool_decide_eq_true_2 by reflexivity.
    destruct l as [|e l'] eqn:El.
    + reflexivity.
    + rewrite split_join by (try discriminate; assumption).
      rewrite Hl. rewrite clean_elems_push by assumption.
      rewrite app_nil_r, rev_involutive. reflexivity.
  - destruct l as [|e l'] eqn:El.
    + reflexivity.
    + destruct (join_sep_hd e l') as (b & t & Ej & Hb).
      { apply Forall_cons in Okl. destruct Okl as [(H & _) _]. exact H. }
      rewrite Ej. rewrite <- Ej.
      assert (Hroot : is_rooted (join_sep (e :: l')) = false).
      { rewrite Ej. simpl. apply bool_decide_eq_false. intros ->.
        apply Forall_cons in Nsl. destruct Nsl as [Ne _]. apply Ne.
        destruct e as [|b' e]; [discriminate|]. injection Hb as ->. now left. }
      unfold Clean. rewrite Hroot.
      rewrite split_join by (try discriminate; assumption).
      rewrite Hl.
      rewrite (clean_elems_dotdot m 0 (rev reals)
               : clean_elems false (replicate m dotdot ++ rev reals) [] = _).
      rewrite clean_elems_push by assumption.
      rewrite Nat.add_0_r, rev_app_distr, rev_involutive, rev_replicate.
      rewrite <- Hl. rewrite Ej. reflexivity.
Qed.

(** ** The public operations clean their path *)

Lemma Get_clean w p : Get w (Clean p) = Get w p.
Proof. unfold Get. now rewrite Clean_idempotent. Qed.

Lemma Traverse_clean {S} w p (f : @visitor S) s :
  Traverse w (Clean p) f s = Traverse w p f s.
Proof. unfold Traverse. now rewrite Clean_idempotent. Qed.

Lemma walkiter_found {S} (walkFn : WalkFunc S) r : forall skips s,
  snd (fst (walkiter r (walk_trav walkFn) skips (s, true))) = true.
Proof.
  induction r as [i | c0 IH0 c1 IH1 off bit]; intros skips s; simpl.
  - unfold visit_leaf. destruct (skipped skips (ipath i)); [reflexivity|].
    destruct (Ignored i); [reflexivity|].
    unfold walk_trav at 1. simpl. destruct (walkFn _ _ _ _) as [s' e].
    destruct (is_SkipDir e && IsDir i); reflexivity.
  - pose proof (IH0 skips s) as H0.
    destruct (walkiter c0 (walk_trav walkFn) skips (s, true)) as [[s0 b0] e0].
    simpl in H0. subst b0.
    destruct e0 as [e|]; [destruct e|]; try reflexivity;
      match goal with
      | |- context [walkiter c1 _ ?sk (s0, true)] =>
          pose proof (IH1 sk s0) as H1;
          destruct (walkiter c1 (walk_trav walkFn) sk (s0, true)) as [[sx bx] ex];
          simpl in H1; subst bx; destruct ex as [[]|]; reflexivity
      end.
Qed.

(** [Walk] sets [found] exactly when the root is in the index and not
    ignored. *)
Lemma Walk_found {S} w root (walkFn : WalkFunc S) s :
  snd (fst (Traverse w root (walk_trav walkFn) (s, false)))
  = bool_decide (Get w root <> None).
Proof.
  unfold Traverse, Get, walk.
  destruct (get (w_tree w) (Clean root)) as [fi|] eqn:G;
    [|now rewrite bool_decide_eq_false_2 by (intros H; now apply H)].
  destruct (w_tree w) as [r|]; [|discriminate].
  destruct (Ignored fi);
    [now rewrite bool_decide_eq_false_2 by (intros H; now apply H)|].
  rewrite bool_decide_eq_true_2 by discriminate.
  unfold walk_trav at 1. simpl. destruct (walkFn _ _ _ _) as [s' e].
  destruct (negb (IsDir fi) || bool_decide (e <> None)); [reflexivity|].
  destruct (top_loop r r _) as [pi top].
  destruct (negb (has_prefix _ _)); [reflexivity|].
  apply walkiter_found.
Qed.

Lemma Walk_eq {S} w root (walkFn : WalkFunc S) s :
  Walk w root walkFn s
  = let r := Traverse w root (walk_trav walkFn) (s, false) in
    if bool_decide (Get w root <> None) then (fst (fst r), snd r)
    else walkFn root None (snd r) (fst (fst r)).
Proof.
  unfold Walk.
  pose proof (Walk_found w root walkFn s) as F.
  destruct (Traverse w root (walk_trav walkFn) (s, false)) as [[s1 found] err].
  simpl in *. subst found. destruct (bool_decide _); reflexivity.
Qed.

(** ** Closing *)

Lemma fold_rm_keeps {A} (g : sys -> A -> sys) (l : list A) (st : sys) :
  (forall st a, w_fd (wat (g st a)) = w_fd (wat st)
                /\ w_signal (wat (g st a)) = w_signal (wat st)) ->
  w_fd (wat (fold_left g l st)) = w_fd (wat st)
  /\ w_signal (wat (fold_left g l st)) = w_signal (wat st).
Proof.
  intros H. revert st. induction l as [|a l IH]; intros st; simpl; [now split|].
  destruct (IH (g st a)) as [E1 E2]. destruct (H st a) as [F1 F2].
  split; congruence.
Qed.

Lemma inotify_rm_keeps st nfo :
  w_fd (wat (fst (Inotify.rm st nfo))) = w_fd (wat st)
  /\ w_signal (wat (fst (Inotify.rm st nfo))) = w_signal (wat st).
Proof.
  unfold Inotify.rm. destruct (watch nfo); [|now split].
  destruct (Inotify.InotifyRmWatch (kern st) z) as [k [e|]]; now split.
Qed.

Lemma kqueue_rm_keeps st nfo :
  w_fd (wat (fst (Kqueue.rm st nfo))) = w_fd (wat st)
  /\ w_signal (wat (fst (Kqueue.rm st nfo))) = w_signal (wat st).
Proof.
  unfold Kqueue.rm. destruct (watch nfo); [|now split].
  destruct (Kqueue.sys_Close (kern st) z) as [k [e|]]; now split.
Qed.

Lemma kqueue_close_open st :
  w_fd (wat st) <> -1 -> w_signal (wat st) = [] ->
  exists st', Kqueue.close st = Some (st', None) /\ w_fd (wat st') = -1.
Proof.
  intros Hfd Hs. unfold Kqueue.close.
  rewrite (proj2 (Z.eqb_neq _ _) Hfd), Hs. eexists. split; reflexivity.
Qed.

Lemma kqueue_closed fs Filter st :
  w_fd (wat st) = -1 ->
  Kqueue.close st = Some (st, Some ErrClosed)
  /\ (forall p r, Kqueue.load fs Filter st p r = (st, Some ErrClosed))
  /\ (forall p r, Kqueue.unload st p r = (st, Some ErrClosed))
  /\ w_fd (wat (Kqueue.run_signal st)) = -1.
Proof.
  intros H. unfold Kqueue.close, Kqueue.load, Kqueue.unload, Kqueue.run_signal.
  rewrite H. simpl. repeat split; try reflexivity.
  destruct (w_signal (wat st)) as [|[fd] q]; [assumption|].
  destruct (Kqueue.close_fd _) as [k [e|]]; simpl; assumption.
Qed.

Lemma fs_find_root fs : fs_find fs (split_sep [PathSeparator]) = Some fs.
Proof. reflexivity. Qed.

Lemma inotify_close_open fs st :
  w_fd (wat st) <> -1 -> w_signal (wat st) = [] ->
  k_open (kern st) = true -> w_fdmap (wat st) <> None ->
  exists st', Inotify.close fs st = Some (st', None)
              /\ w_fd (wat st') = w_fd (wat st)
              /\ w_signal (wat st') = [sig_close (w_fd (wat st))]
              /\ w_fd (wat (Inotify.run_signal st')) = -1.
Proof.
  intros Hfd Hs Hk Hm. unfold Inotify.close.
  rewrite (proj2 (Z.eqb_neq _ _) Hfd).
  set (step := fun st nfo =>
                 let '(st, err) := Inotify.rm st nfo in
                 match err with Some e => ctx_Error st e | None => st end).
  assert (Hstep : forall st a, w_fd (wat (step st a)) = w_fd (wat st)
                               /\ w_signal (wat (step st a)) = w_signal (wat st)).
  { intros s a. unfold step. pose proof (inotify_rm_keeps s a) as K.
    destruct (Inotify.rm s a) as [s' [e|]]; exact K. }
  assert (G : forall st1, w_fd (wat st1) = w_fd (wat st) -> w_signal (wat st1) = [] ->
    exists st', match w_signal (wat st1) with
                | [] => Some (fold_left step (fdmap_values (w_fdmap (wat
                          (set_signal st1 [sig_close (w_fd (wat st1))]))))
                          (set_signal st1 [sig_close (w_fd (wat st1))]),
                          (None : option error))
                | _ :: _ => None
                end = Some (st', None)
                /\ w_fd (wat st') = w_fd (wat st)
                /\ w_signal (wat st') = [sig_close (w_fd (wat st))]
                /\ w_fd (wat (Inotify.run_signal st')) = -1).
  { intros st1 E1 E2. rewrite E2, E1. eexists. split; [reflexivity|].
    destruct (fold_rm_keeps step
                (fdmap_values (w_fdmap (wat (set_signal st1 [sig_close (w_fd (wat st))]))))
                (set_signal st1 [sig_close (w_fd (wat st))]) Hstep) as [F1 F2].
    simpl in F1, F2. rewrite E1 in F1.
    split; [exact F1|]. split; [exact F2|].
    unfold Inotify.run_signal.
    match goal with |- context [w_signal (wat ?x)] => change (w_signal (wat x))
      with (w_signal (wat (fold_left step (fdmap_values (w_fdmap (wat st1)))
                             (set_signal st1 [sig_close (w_fd (wat st))])))) end.
    rewrite F2.
    destruct (Inotify.close_fd _) as [k [e|]]; reflexivity. }
  destruct (w_tree (wat st)) as [r|] eqn:T.
  - apply G; [reflexivity|assumption].
  - unfold Inotify.InotifyAddWatch. rewrite Hk, fs_find_root. simpl negb. cbv iota.
    destruct (w_fdmap (wat st)) as [m|] eqn:M; [|contradiction].
    destruct (find_wd (k_watches (kern st)) [PathSeparator]) as [wd|];
      cbv beta iota zeta; unfold fdmap_set; cbv beta iota;
      (apply G; [reflexivity|exact Hs]).
Qed.

Lemma inotify_closed fs Filter st :
  w_fd (wat st) = -1 ->
  Inotify.close fs st = Some (st, Some ErrClosed)
  /\ (forall p r, Inotify.hasParentWatch (wat st) p <> None ->
                  Inotify.load fs Filter st p r = (st, Some ErrClosed))
  /\ (forall p r, Inotify.unload fs Filter st p r = (st, Some ErrClosed))
  /\ w_fd (wat (Inotify.run_signal st)) = -1.
Proof.
  intros H. unfold Inotify.close, Inotify.load, Inotify.unload, Inotify.run_signal.
  rewrite H. simpl. repeat split; try reflexivity.
  - intros p r Hp. destruct (Inotify.hasParentWatch (wat st) p); [reflexivity|contradiction].
  - destruct (w_signal (wat st)) as [|[fd] q]; [assumption|].
    destruct (Inotify.close_fd _) as [k [e|]]; reflexivity.
Qed.

(** * Further facts about the index *)

Lemma blt_asym k1 k2 : blt k1 k2 -> ~ blt k2 k1.
Proof.
  intros (n & A & Hn1 & Hn2) (m & B & Hm2 & Hm1).
  destruct (Nat.lt_trichotomy n m) as [L | [-> | L]].
  - rewrite (B n L) in Hn2. congruence.
  - congruence.
  - rewrite (A m L) in Hm1. congruence.
Qed.

Lemma sorted_perm_eq {A} (R : A -> A -> Prop) (l1 : list A) : forall l2,
  (forall x y, R x y -> ~ R y x) ->
  StronglySorted R l1 -> StronglySorted R l2 -> Permutation l1 l2 -> l1 = l2.
Proof.
  induction l1 as [|x l1 IH]; intros l2 As S1 S2 P.
  - apply Permutation_nil in P. now subst.
  - destruct l2 as [|y l2]; [apply Permutation_sym, Permutation_nil in P; discriminate|].
    apply StronglySorted_inv in S1, S2. destruct S1 as [S1 F1], S2 as [S2 F2].
    assert (E : x = y).
    { assert (Hx : In x (y :: l2)).
      { apply (Permutation_in _ P). now left. }
      assert (Hy : In y (x :: l1)).
      { apply (Permutation_in _ (Permutation_sym P)). now left. }
      destruct Hx as [Hx | Hx]; [now subst|].
      destruct Hy as [Hy | Hy]; [now subst|].
      rewrite Forall_forall in F1, F2.
      exfalso. apply (As x y); [apply F1 | apply F2]; now apply list_elem_of_In. }
    subst y. f_equal. apply IH; auto. eapply Permutation_cons_inv. exact P.
Qed.

Lemma fold_insert_get l : forall t p,
  wf_tree t -> plain_tree t -> Forall (fun i => plain (ipath i)) l ->
  get (fold_left (fun t i => fst (insert t i)) l t) p
  = match get t p with
    | Some d => Some d
    | None => first_at l p
    end.
Proof.
  induction l as [|a l IH]; intros t p W P F; simpl.
  - now destruct (get t p).
  - apply Forall_cons in F. destruct F as [Pa F].
    destruct (insert_wf t a W P Pa) as [W' P'].
    rewrite (IH _ p W' P' F).
    destruct (decide (p = ipath a)) as [-> | Hp].
    + rewrite path_eqb_refl.
      destruct (get t (ipath a)) as [d|] eqn:G.
      * rewrite (insert_found t a d W G). simpl. now rewrite G.
      * now rewrite insert_get.
    + rewrite insert_other by assumption.
      destruct (path_eqb (ipath a) p) eqn:E; [|reflexivity].
      apply path_eqb_true in E. congruence.
Qed.

Lemma fold_insert_perm l : forall t,
  wf_tree t -> plain_tree t -> Forall (fun i => plain (ipath i)) l ->
  NoDup (map ipath l) ->
  (forall i, In i l -> get t (ipath i) = None) ->
  Permutation (entries (fold_left (fun t i => fst (insert t i)) l t)) (entries t ++ l).
Proof.
  induction l as [|a l IH]; intros t W P F N D; simpl.
  - now rewrite app_nil_r.
  - apply Forall_cons in F. destruct F as [Pa F].
    simpl in N. apply NoDup_cons in N. destruct N as [Na N].
    destruct (insert_fresh t a W P Pa (D a (or_introl eq_refl))) as (t' & E & W' & Pe).
    destruct (insert_wf t a W P Pa) as [_ P'].
    rewrite E in *. simpl in *.
    rewrite (IH t' W' P' F N).
    + rewrite Pe. simpl. now rewrite Permutation_middle.
    + intros i Hi.
      replace t' with (fst (insert t a)) by now rewrite E.
      rewrite insert_other; auto.
      intros Eq. apply Na. rewrite <- Eq. apply list_elem_of_In, in_map.
      exact Hi.
Qed.

Lemma top_bit_high_all b : small b -> 0 < b -> top_bit b = 2 ^ Z.log2 b.
Proof.
  intros Hs Hp.
  pose proof (forall_small (fun b => (b =? 0) || (top_bit b =? 2 ^ Z.log2 b))
                eq_refl b Hs) as G.
  simpl in G. apply orb_true_iff in G. destruct G as [G | G]; lia.
Qed.

Lemma filter_sublist_eq {A} (P : A -> bool) (l1 l2 : list A) :
  l1 `sublist_of` l2 -> NoDup l2 ->
  (forall x, In x l1 <-> In x l2 /\ P x = true) ->
  l1 = List.filter P l2.
Proof.
  induction 1 as [| x l1 l2 Hs IH | x l1 l2 Hs IH]; intros N H.
  - reflexivity.
  - apply NoDup_cons in N. destruct N as [Nx N]. simpl.
    destruct (proj1 (H x) (or_introl eq_refl)) as [_ ->]. f_equal.
    apply IH; [assumption|]. intros y. split.
    + intros Hy. destruct (proj1 (H y) (or_intror Hy)) as [[-> | Hy'] Py].
      * exfalso. apply Nx. eapply elem_of_sublist; [|exact Hs]. now apply list_elem_of_In.
      * auto.
    + intros [Hy Py]. destruct (proj2 (H y) (conj (or_intror Hy) Py)) as [-> | Hy']; auto.
      exfalso. apply Nx. now apply list_elem_of_In.
  - apply NoDup_cons in N. destruct N as [Nx N]. simpl.
    destruct (P x) eqn:Px.
    + exfalso. apply Nx. eapply elem_of_sublist; [|exact Hs].
      apply list_elem_of_In. apply (proj2 (H x)). split; [now left|exact Px].
    + apply IH; [assumption|]. intros y. split.
      * intros Hy. destruct (proj1 (H y) Hy) as [[-> | Hy'] Py]; [congruence|auto].
      * intros [Hy Py]. apply (proj2 (H y)). split; [now right|exact Py].
Qed.

Lemma wf_NoDup r : wf r -> NoDup (leaves r).
Proof.
  intros W. pose proof (wf_sorted_bits r W) as S.
  induction S as [|x l S IH F]; constructor; [|assumption].
  intros Hx. rewrite Forall_forall in F. specialize (F x Hx).
  exact (blt_asym _ _ F F).
Qed.

Section MoreTraversalFacts.
Context {S : Type}.
Implicit Types (f : @visitor S) (s : S).

(** A visitor that always returns nil is called on every leaf that is not
    skipped or ignored. *)
Lemma calls_of_all r f :
  (forall i s, snd (f i s) = None) ->
  forall skips s,
    snd (walkiter r f skips s) = None
    /\ map fst (calls_of r f skips s)
       = List.filter (fun i => negb (skipped skips (ipath i)) && negb (Ignored i))
                     (leaves r).
Proof.
  intros Hf. induction r as [i | c0 IH0 c1 IH1 off bit]; intros skips s.
  - simpl. unfold visit_leaf.
    destruct (skipped skips (ipath i)); [now split|].
    destruct (Ignored i); [now split|]. simpl.
    specialize (Hf i s). destruct (f i s) as [s' e]. simpl in Hf. subst e.
    simpl. now split.
  - simpl. destruct (IH0 skips s) as [E0 C0].
    destruct (walkiter c0 f skips s) as [s0 e0]. simpl in E0. subst e0.
    destruct (IH1 skips s0) as [E1 C1].
    destruct (walkiter c1 f skips s0) as [s1 e1]. simpl in E1. subst e1.
    split; [reflexivity|].
    now rewrite map_app, List.filter_app, C0, C1.
Qed.
End MoreTraversalFacts.

Lemma subtree_of_filter root r :
  wf r -> plain root -> (forall i, In i (leaves r) -> plain (ipath i)) ->
  has_prefix (ipath (best r root)) root = true ->
  leaves (subtree_of r root)
  = List.filter (fun i => has_prefix (ipath i) root) (leaves r).
Proof.
  intros W Pr P H. apply filter_sublist_eq.
  - apply subtree_of_sublist.
  - now apply wf_NoDup.
  - now apply subtree_of_spec.
Qed.

Lemma filter_none {A} (P : A -> bool) l :
  (forall x, In x l -> P x = false) -> List.filter P l = [].
Proof.
  induction l as [|a l IH]; intros H; simpl; [reflexivity|].
  rewrite (H a (or_introl eq_refl)). apply IH. intros x Hx. apply H. now right.
Qed.

Lemma filter_filter_and {A} (P Q : A -> bool) l :
  List.filter Q (List.filter P l) = List.filter (fun x => P x && Q x) l.
Proof.
  induction l as [|a l IH]; simpl; [reflexivity|].
  destruct (P a); simpl; [destruct (Q a)|]; now rewrite IH.
Qed.

(** The calls of [walk] are among the visible entries, in their order. *)
Lemma walk_calls_visible {S} t root (f : @visitor S) s :
  wf_tree t -> plain_tree t ->
  map fst (walk_calls t root f s) `sublist_of` visible t root.
Proof.
  intros W P. rewrite walk_calls_shape by assumption. unfold visible.
  destruct (get t root) as [fi|] eqn:G; [|reflexivity].
  destruct t as [r|]; [|discriminate].
  destruct (Ignored fi); [reflexivity|].
  cbv zeta. set (root' := root ++ [PathSeparator]).
  simpl map. apply sublist_skip.
  destruct (IsDir fi); simpl; [|reflexivity].
  destruct (bool_decide (snd (f fi s) = None)); simpl; [|apply sublist_nil_l].
  destruct (has_prefix (ipath (best r root')) root') eqn:Hp; [|apply sublist_nil_l].
  apply get_in in G. destruct G as [Hfi Er].
  assert (Pr' : plain root').
  { apply plain_app. split; [rewrite <- Er; now apply P|apply plain_sep]. }
  pose proof (calls_of_not_ignored (subtree_of r root') f [] (fst (f fi s))) as Hni.
  pose proof (calls_of_sublist (subtree_of r root') f [] (fst (f fi s))) as Hs.
  rewrite (subtree_of_filter root' r W Pr' P Hp) in Hs.
  assert (E : map fst (calls_of (subtree_of r root') f [] (fst (f fi s)))
              = List.filter (fun i => negb (Ignored i))
                  (map fst (calls_of (subtree_of r root') f [] (fst (f fi s))))).
  { symmetry. apply forallb_filter_id. apply forallb_forall. intros x Hx.
    apply in_map_iff in Hx. destruct Hx as (c & <- & Hc).
    now rewrite (Hni c Hc). }
  rewrite E. unfold below. fold root'.
  rewrite <- (filter_filter_and (fun i => has_prefix (ipath i) root')
                                (fun i => negb (Ignored i))).
  simpl entries. clear E.
  induction Hs as [| x l1 l2 Hs IH | x l1 l2 Hs IH]; simpl.
  - constructor.
  - destruct (negb (Ignored x)); [now apply sublist_skip|assumption].
  - destruct (negb (Ignored x)); [now apply sublist_cons|assumption].
Qed.


(** A visitor that always returns nil is called on every visible entry. *)
Lemma walk_calls_all {S} t root (f : @visitor S) s :
  wf_tree t -> plain_tree t -> (forall i s, snd (f i s) = None) ->
  map fst (walk_calls t root f s) = visible t root
  /\ snd (walk t root f s)
     = match visible t root with
       | [] => not_exist root
       | _ :: _ => None
       end.
Proof.
  intros W P Hf. rewrite walk_calls_shape, walk_result by assumption. unfold visible.
  destruct (get t root) as [fi|] eqn:G; [|now split].
  destruct t as [r|]; [|discriminate].
  destruct (Ignored fi); [now split|].
  cbv zeta. set (root' := root ++ [PathSeparator]).
  rewrite (Hf fi s). rewrite bool_decide_eq_true_2 by reflexivity.
  rewrite andb_true_r. simpl map.
  destruct (IsDir fi); simpl; [|now split].
  apply get_in in G. destruct G as [Hfi Er].
  assert (Pr' : plain root').
  { apply plain_app. split; [rewrite <- Er; now apply P|apply plain_sep]. }
  destruct (has_prefix (ipath (best r root')) root') eqn:Hp.
  - destruct (calls_of_all (subtree_of r root') f Hf [] (fst (f fi s))) as [E C].
    rewrite E, C. split; [|reflexivity]. f_equal.
    rewrite (subtree_of_filter root' r W Pr' P Hp).
    rewrite filter_filter_and. reflexivity.
  - split; [|reflexivity]. f_equal. symmetry. apply filter_none.
    intros x Hx. unfold below. fold root'.
    now rewrite (subtree_of_none root' r W Pr' P Hp x Hx).
Qed.

(** ** [deleteAll] *)

Lemma member_loop_best key p : forall here wp d,
  snd (member_loop p here wp d key) = best p key.
Proof.
  induction p as [i | c0 IH0 c1 IH1 off bit]; intros here wp d; simpl; [reflexivity|].
  destruct (dir off bit key); simpl; auto.
Qed.

Lemma member_loop_leaf key i here wp d :
  member_loop (Leaf i) here wp d key = (wp, d, i).
Proof. reflexivity. Qed.

(** The write through [wp] removes the leaf that the first loop found. *)
Lemma member_loop_unlink key p : forall here wp0 d0 (ctx : ref -> ref),
  (forall y l x, ref_set (ctx y) (here ++ l) x = ctx (ref_set y l x)) ->
  unlink (ctx p) (fst (fst (member_loop p here wp0 d0 key)))
         (snd (fst (member_loop p here wp0 d0 key)))
  = match delete_best p key with
    | Some p' => Some (ctx p')
    | None => unlink (ctx p) wp0 d0
    end.
Proof.
  induction p as [i | c0 IH0 c1 IH1 off bit]; intros here wp0 d0 ctx H; [reflexivity|].
  simpl. destruct (dir off bit key) eqn:D; simpl.
  - specialize (IH1 (here ++ [true]) (Some (mkParent here c0 c1)) true
                    (fun x => ctx (Node c0 x off bit))).
    simpl in IH1. rewrite IH1.
    + destruct (delete_best c1 key); [reflexivity|].
      simpl. f_equal. specialize (H (Node c0 c1 off bit) [] c0).
      rewrite app_nil_r in H. exact H.
    + intros y l x. rewrite <- app_assoc. simpl. now rewrite H.
  - specialize (IH0 (here ++ [false]) (Some (mkParent here c0 c1)) false
                    (fun x => ctx (Node x c1 off bit))).
    simpl in IH0. rewrite IH0.
    + destruct (delete_best c0 key); [reflexivity|].
      simpl. f_equal. specialize (H (Node c0 c1 off bit) [] c1).
      rewrite app_nil_r in H. exact H.
    + intros y l x. rewrite <- app_assoc. simpl. now rewrite H.
Qed.

Lemma member_loop_remove key r :
  unlink r (fst (fst (member_loop r [] None false key)))
         (snd (fst (member_loop r [] None false key)))
  = delete_best r key.
Proof.
  rewrite (member_loop_unlink key r [] None false (fun x => x)) by reflexivity.
  now destruct (delete_best r key).
Qed.

Lemma delete_best_leaves key r :
  exists l1 l2, leaves r = l1 ++ best r key :: l2
                /\ match delete_best r key with
                   | Some r' => leaves r' = l1 ++ l2
                   | None => l1 ++ l2 = []
                   end.
Proof.
  induction r as [i | c0 IH0 c1 IH1 off bit]; simpl.
  - now exists [], [].
  - destruct (dir off bit key); simpl.
    + destruct IH1 as (l1 & l2 & E & H). exists (leaves c0 ++ l1), l2.
      rewrite E, <- app_assoc. split; [reflexivity|].
      destruct (delete_best c1 key) as [c1'|]; simpl.
      * now rewrite H, app_assoc.
      * apply app_eq_nil in H. destruct H as [-> ->]. now rewrite !app_nil_r.
    + destruct IH0 as (l1 & l2 & E & H). exists l1, (l2 ++ leaves c1).
      rewrite E, <- app_assoc. split; [reflexivity|].
      destruct (delete_best c0 key) as [c0'|]; simpl.
      * now rewrite H, app_assoc.
      * apply app_eq_nil in H. now destruct H as [-> ->].
Qed.

Lemma delete_best_sub key r r' x :
  delete_best r key = Some r' -> In x (leaves r') -> In x (leaves r).
Proof.
  intros E Hx. destruct (delete_best_leaves key r) as (l1 & l2 & El & H).
  rewrite E in H. rewrite El. rewrite H in Hx.
  apply in_app_or in Hx. apply in_or_app. simpl. tauto.
Qed.

Lemma delete_best_wf key r : wf r ->
  match delete_best r key with
  | Some r' => wf r'
  | None => True
  end.
Proof.
  induction 1 as [j | c0 c1 off bit Hb W0 IH0 W1 IH1 H0 H1 Hag]; simpl; [exact I|].
  destruct (dir off bit key).
  - destruct (delete_best c1 key) as [c1'|] eqn:E; [|assumption].
    pose proof (delete_best_sub key c1 c1' ) as Sub.
    constructor; auto.
    intros i j Hi Hj. apply Hag; apply in_or_app; apply in_app_or in Hi, Hj;
      destruct Hi, Hj; eauto.
  - destruct (delete_best c0 key) as [c0'|] eqn:E; [|assumption].
    pose proof (delete_best_sub key c0 c0') as Sub.
    constructor; auto.
    intros i j Hi Hj. apply Hag; apply in_or_app; apply in_app_or in Hi, Hj;
      destruct Hi, Hj; eauto.
Qed.

Lemma remove_entry_wf t key : wf_tree t -> wf_tree (remove_entry t key).
Proof.
  destruct t as [r|]; simpl; [|auto]. intros W.
  pose proof (delete_best_wf key r W). now destruct (delete_best r key).
Qed.

Lemma filter_all {A} (P : A -> bool) l :
  (forall x, In x l -> P x = true) -> List.filter P l = l.
Proof.
  induction l as [|a l IH]; intros H; simpl; [reflexivity|].
  rewrite (H a (or_introl eq_refl)). f_equal. apply IH. intros x Hx. apply H. now right.
Qed.

(** In a well-formed tree, removing the entry of [key] removes just it. *)
Lemma remove_entry_entries t key i :
  wf_tree t -> get t key = Some i ->
  entries (remove_entry t key)
  = List.filter (fun x => negb (path_eqb (ipath x) key)) (entries t).
Proof.
  destruct t as [r|]; [|discriminate]. intros W G.
  assert (Hb : best r key = i /\ ipath i = key).
  { unfold get in G. destruct (path_eqb key (ipath (best r key))) eqn:E; [|discriminate].
    apply path_eqb_true in E. injection G as <-. auto. }
  destruct Hb as [Hb Hk]. simpl.
  destruct (delete_best_leaves key r) as (l1 & l2 & El & H). rewrite Hb in El.
  pose proof (wf_NoDup r W) as N. rewrite El in N.
  assert (F : List.filter (fun x => negb (path_eqb (ipath x) key)) (leaves r) = l1 ++ l2).
  { rewrite El, List.filter_app. simpl. rewrite Hk, path_eqb_refl. simpl.
    rewrite <- List.filter_app. apply filter_all. intros x Hx.
    destruct (path_eqb (ipath x) key) eqn:E; [|reflexivity]. exfalso.
    apply path_eqb_true in E.
    assert (x = i).
    { apply (leaves_unique r); auto; [|rewrite El; apply in_or_app; simpl; auto|congruence].
      rewrite El. apply in_app_or in Hx. apply in_or_app. simpl. tauto. }
    subst x. apply NoDup_app in N. destruct N as (_ & N1 & N2).
    apply NoDup_cons in N2. destruct N2 as [N2 _].
    apply in_app_or in Hx. destruct Hx as [Hx | Hx].
    - apply (N1 i); [now apply list_elem_of_In|]. left.
    - apply N2. now apply list_elem_of_In. }
  rewrite F. destruct (delete_best r key); simpl; congruence.
Qed.

Lemma remove_entry_get t key i q :
  wf_tree t -> get t key = Some i ->
  get (remove_entry t key) q = if path_eqb q key then None else get t q.
Proof.
  intros W G. pose proof (remove_entry_wf t key W) as W'.
  pose proof (remove_entry_entries t key i W G) as E.
  destruct (path_eqb q key) eqn:Eq.
  - apply path_eqb_true in Eq. subst q. apply get_none; [assumption|].
    intros x Hx. rewrite E in Hx. apply filter_In in Hx. destruct Hx as [_ Hx].
    intros Ex. rewrite Ex, path_eqb_refl in Hx. discriminate.
  - destruct (get t q) as [j|] eqn:Gq.
    + apply get_spec; [assumption|]. apply get_in in Gq. destruct Gq as [Hj Ej].
      split; [|assumption]. rewrite E. apply filter_In. split; [assumption|].
      rewrite Ej. destruct (path_eqb q key) eqn:Eq'; [discriminate|reflexivity].
    + apply get_none; [assumption|]. intros x Hx. rewrite E in Hx.
      apply filter_In in Hx. destruct Hx as [Hx _].
      now apply (proj1 (get_none t q W) Gq).
Qed.

Section DeleteFacts.
Context {S : Type}.
Implicit Types (f : info -> S -> S) (s : S).

Lemma deliter_fold f p : forall s, deliter p f s = handle_all f (leaves p) s.
Proof.
  unfold handle_all.
  induction p as [i | c0 IH0 c1 IH1 off bit]; intros s; simpl; [reflexivity|].
  now rewrite fold_left_app, IH0, IH1.
Qed.

(** [deleteAll] of a path that is not in the index. *)
Lemma deleteAll_absent t root f s :
  get t root = None -> deleteAll t root f s = (t, s).
Proof.
  destruct t as [r|]; [|reflexivity]. unfold get, deleteAll. intros G.
  pose proof (member_loop_best root r [] None false) as B.
  destruct (member_loop r [] None false root) as [[wp d] i]. simpl in B. subst i.
  destruct (path_eqb root (ipath (best r root))); [discriminate|reflexivity].
Qed.
End DeleteFacts.

(** *** A directory and the entries below it

    The keys of the entries below [k] continue [k] with the byte 0x01, the
    key [k] itself with the padding 0x00: they part at the lowest bit of
    the byte at [length k]. *)

Lemma below_self k b : has_prefix k (k ++ [b]) = false.
Proof.
  destruct (has_prefix k (k ++ [b])) eqn:E; [|reflexivity].
  apply has_prefix_split in E. destruct E as [rest E].
  apply (f_equal length) in E. rewrite !length_app in E. simpl in E. lia.
Qed.

Lemma member_ch_app_l k rest o :
  (o < length k)%nat -> member_ch (k ++ rest) o = member_ch k o.
Proof. intros H. unfold member_ch. now rewrite lookup_app_l. Qed.

Lemma member_ch_sep k rest : member_ch (k ++ PathSeparator :: rest) (length k) = 1.
Proof.
  unfold member_ch. rewrite lookup_app_r by lia. now rewrite Nat.sub_diag.
Qed.

Lemma nbit_split n : exists o j, (j < 8)%nat /\ n = (8 * o + (7 - j))%nat
                                /\ o = (n / 8)%nat.
Proof.
  exists (n / 8)%nat, (7 - n mod 8)%nat.
  pose proof (Nat.mod_upper_bound n 8 ltac:(lia)).
  pose proof (Nat.div_mod_eq n 8). repeat split; lia.
Qed.

Lemma below_crit k y :
  has_prefix y (k ++ [PathSeparator]) = true ->
  agree k y (8 * length k + 7)
  /\ nbit k (8 * length k + 7) = false /\ nbit y (8 * length k + 7) = true.
Proof.
  intros H. apply has_prefix_split in H. destruct H as [rest ->].
  rewrite <- app_assoc. change ([PathSeparator] ++ rest) with (PathSeparator :: rest).
  assert (Z0 : member_ch k (length k) = 0) by (apply member_ch_ge; lia).
  pose proof (member_ch_sep k rest) as Z1.
  split; [|split].
  - intros m Hm. destruct (nbit_split m) as (o & j & Hj & -> & Ho).
    rewrite (nbit_byte k o j Hj), (nbit_byte (k ++ PathSeparator :: rest) o j Hj).
    destruct (Nat.lt_ge_cases o (length k)) as [L | L].
    + now rewrite member_ch_app_l.
    + assert (o = length k) by lia. subst o. rewrite Z0, Z1.
      rewrite Z.bits_0. symmetry.
      assert (j <> 0)%nat by lia.
      do 8 (destruct j as [|j]; [try lia; reflexivity|]). lia.
  - replace (8 * length k + 7)%nat with (8 * length k + (7 - 0))%nat by lia.
    rewrite nbit_byte by lia. rewrite Z0. apply Z.bits_0.
  - replace (8 * length k + 7)%nat with (8 * length k + (7 - 0))%nat by lia.
    rewrite nbit_byte by lia. rewrite Z1. reflexivity.
Qed.

Lemma first_diff_unique a b n m :
  agree a b n -> nbit a n <> nbit b n ->
  agree a b m -> nbit a m <> nbit b m -> n = m.
Proof.
  intros An Dn Am Dm. destruct (Nat.lt_trichotomy n m) as [L | [E | L]]; [|assumption|].
  - exfalso. apply Dn. now apply Am.
  - exfalso. apply Dm. now apply An.
Qed.

Lemma single_leaf c p :
  wf c -> (forall z, In z (leaves c) -> ipath z = p) -> exists i, c = Leaf i.
Proof.
  intros W H. destruct W as [i | c0 c1 off bit Hb W0 W1 H0 H1 Hag]; [now exists i|].
  exfalso. destruct (leaves_nonempty c0) as [x Hx]. destruct (leaves_nonempty c1) as [y Hy].
  pose proof (H0 x Hx) as E0. pose proof (H1 y Hy) as E1.
  rewrite (H x) in E0 by (simpl; apply in_or_app; auto).
  rewrite (H y) in E1 by (simpl; apply in_or_app; auto). congruence.
Qed.

Lemma same_key_plain z k :
  plain z -> plain k -> agree z k (8 * length k + 8) -> z = k.
Proof.
  intros Pz Pk A. apply plain_member_ch_inj; try assumption.
  assert (E : forall o, (o <= length k)%nat -> member_ch z o = member_ch k o).
  { intros o Ho. apply (agree_bytes z k _ o A). lia. }
  assert (Lz : (length z <= length k)%nat).
  { destruct (Nat.le_gt_cases (length z) (length k)) as [L|L]; [assumption|].
    pose proof (plain_member_ch z (length k) Pz L) as G.
    rewrite (E (length k)) in G by lia. rewrite member_ch_ge in G by lia. lia. }
  intros o. destruct (Nat.le_gt_cases o (length k)) as [L|L]; [now apply E|].
  rewrite !member_ch_ge by lia. reflexivity.
Qed.

(** An entry below the key of a leaf on the right of a node is not on its
    left. *)
Lemma below_not_left c0 c1 off bit i z :
  wf (Node c0 c1 off bit) -> In i (leaves c1) -> In z (leaves c0) ->
  below (ipath i) z = true -> False.
Proof.
  intros W Hi Hz B. inversion W as [|? ? ? ? Hb W0 W1 H0 H1 Hag]; subst.
  destruct (below_crit _ _ B) as (A & F & T).
  assert (E : pos off bit = (8 * length (ipath i) + 7)%nat).
  { apply (first_diff_unique (ipath i) (ipath z)); try assumption.
    - apply Hag; apply in_or_app; auto.
    - rewrite (H1 i Hi), (H0 z Hz). discriminate.
    - rewrite F, T. discriminate. }
  rewrite <- E in F. rewrite (H1 i Hi) in F. discriminate.
Qed.

(** A directory on the left of a node that has an entry below it on the
    right is the only leaf on the left, and the right holds entries below
    it only. *)
Lemma below_right c0 c1 off bit i z :
  wf (Node c0 c1 off bit) ->
  (forall x, In x (leaves c0 ++ leaves c1) -> plain (ipath x)) ->
  In i (leaves c0) -> In z (leaves c1) -> below (ipath i) z = true ->
  c0 = Leaf i /\ forall y, In y (leaves c1) -> below (ipath i) y = true.
Proof.
  intros W P Hi Hz B. inversion W as [|? ? ? ? Hb W0 W1 H0 H1 Hag]; subst.
  destruct (below_crit _ _ B) as (A & F & T).
  assert (E : pos off bit = (8 * length (ipath i) + 7)%nat).
  { apply (first_diff_unique (ipath i) (ipath z)); try assumption.
    - apply Hag; apply in_or_app; auto.
    - rewrite (H0 i Hi), (H1 z Hz). discriminate.
    - rewrite F, T. discriminate. }
  split.
  - destruct (single_leaf c0 (ipath i) W0) as [j Ej].
    + intros x Hx. apply same_key_plain.
      * apply P, in_or_app. auto.
      * apply P, in_or_app. auto.
      * replace (8 * length (ipath i) + 8)%nat with (S (pos off bit)) by lia.
        apply agree_S; [apply Hag; apply in_or_app; auto|].
        now rewrite (H0 x Hx), (H0 i Hi).
    + subst c0. destruct Hi as [-> | []]. reflexivity.
  - intros y Hy. unfold below. apply agree_has_prefix.
    + apply P, in_or_app. auto.
    + apply plain_app. split; [apply P, in_or_app; auto|apply plain_sep].
    + rewrite length_app. change (length [PathSeparator]) with 1%nat.
      replace (8 * (length (ipath i) + 1))%nat with (S (pos off bit)) by lia.
      apply (agree_trans _ (ipath z)).
      * apply agree_S; [apply Hag; apply in_or_app; auto|].
        now rewrite (H1 y Hy), (H1 z Hz).
      * pose proof (has_prefix_agree _ _ B) as G. rewrite length_app in G.
        change (length [PathSeparator]) with 1%nat in G.
        replace (S (pos off bit)) with (8 * (length (ipath i) + 1))%nat by lia.
        exact G.
Qed.

Lemma below_agree k x y :
  below k x = true -> below k y = true ->
  agree (ipath x) (ipath y) (8 * length (k ++ [PathSeparator])).
Proof.
  intros Hx Hy. apply (agree_trans _ (k ++ [PathSeparator])).
  - now apply has_prefix_agree.
  - apply agree_sym. now apply has_prefix_agree.
Qed.

(** The first loop of [deleteAll] on a directory that has entries below
    it: the leaf of the directory is the left child of the node found, and
    the right child holds the entries below it. *)
Lemma member_loop_dir key p i :
  wf p -> (forall x, In x (leaves p) -> plain (ipath x)) ->
  In i (leaves p) -> ipath i = key ->
  (exists x, In x (leaves p) /\ below key x = true) ->
  forall here wp0 d0,
  exists loc c1,
    member_loop p here wp0 d0 key = (Some (mkParent loc (Leaf i) c1), false, i)
    /\ wf c1
    /\ leaves c1 = List.filter (below key) (leaves p).
Proof.
  induction 1 as [j | c0 c1 off bit Hb W0 IH0 W1 IH1 H0 H1 Hag];
    intros P Hi Ek (x & Hx & Bx) here wp0 d0; subst key.
  - exfalso. destruct Hi as [-> | []]. destruct Hx as [<- | []].
    unfold below in Bx. rewrite below_self in Bx. discriminate.
  - assert (W : wf (Node c0 c1 off bit)) by (constructor; assumption).
    simpl in Hi, Hx, P. simpl leaves. rewrite List.filter_app. simpl member_loop.
    rewrite dir_nbit by assumption.
    apply in_app_or in Hi, Hx. destruct Hi as [Hi | Hi].
    + rewrite (H0 i Hi). simpl child. destruct Hx as [Hx | Hx].
      * assert (N : List.filter (below (ipath i)) (leaves c1) = []).
        { apply filter_none. intros z Hz.
          destruct (below (ipath i) z) eqn:Bz; [|reflexivity]. exfalso.
          destruct (below_right c0 c1 off bit i z W P Hi Hz Bz) as [-> _].
          destruct Hx as [<- | []]. unfold below in Bx. rewrite below_self in Bx.
          discriminate. }
        rewrite N, app_nil_r. apply IH0; auto.
        -- intros y Hy. apply P, in_or_app. auto.
        -- eauto.
      * destruct (below_right c0 c1 off bit i x W P Hi Hx Bx) as [-> Hall].
        exists here, c1. split; [reflexivity|]. split; [assumption|].
        simpl. unfold below at 1. rewrite below_self. simpl.
        symmetry. now apply filter_all.
    + rewrite (H1 i Hi). simpl child. destruct Hx as [Hx | Hx].
      * exfalso. exact (below_not_left c0 c1 off bit i x W Hi Hx Bx).
      * assert (N : List.filter (below (ipath i)) (leaves c0) = []).
        { apply filter_none. intros z Hz.
          destruct (below (ipath i) z) eqn:Bz; [|reflexivity]. exfalso.
          exact (below_not_left c0 c1 off bit i z W Hi Hz Bz). }
        rewrite N. simpl. apply IH1; auto.
        -- intros y Hy. apply P, in_or_app. auto.
        -- eauto.
Qed.

(** The pointer [wp] of the first loop points to a node of the tree. *)
Lemma member_loop_sub key p c0 c1 off bit : forall here wp0 d0,
  p = Node c0 c1 off bit ->
  exists w, fst (fst (member_loop p here wp0 d0 key)) = Some w
            /\ forall x, In x (leaves (p_c0 w) ++ leaves (p_c1 w)) -> In x (leaves p).
Proof.
  revert c0 c1 off bit.
  induction p as [i | a IHa b IHb o bt]; intros c0 c1 off bit here wp0 d0 E;
    [discriminate|].
  simpl. destruct (dir o bt key); simpl.
  - destruct b as [j | b0 b1 bo bb].
    + simpl. exists (mkParent here a (Leaf j)). split; [reflexivity|]. auto.
    + destruct (IHb b0 b1 bo bb (here ++ [true]) (Some (mkParent here a (Node b0 b1 bo bb)))
                    true eq_refl) as (w & Ew & Hw).
      exists w. split; [exact Ew|]. intros x Hx. apply in_or_app. right. now apply Hw.
  - destruct a as [j | a0 a1 ao ab].
    + simpl. exists (mkParent here (Leaf j) b). split; [reflexivity|]. auto.
    + destruct (IHa a0 a1 ao ab (here ++ [false]) (Some (mkParent here (Node a0 a1 ao ab) b))
                    false eq_refl) as (w & Ew & Hw).
      exists w. split; [exact Ew|]. intros x Hx. apply in_or_app. left. now apply Hw.
Qed.

Lemma subtree_loop_in root p : forall here top wp d,
  In (fst (fst (fst (subtree_loop p here top wp d root)))) (leaves p).
Proof.
  induction p as [i | c0 IH0 c1 IH1 off bit]; intros here top wp d; simpl; [auto|].
  apply in_or_app.
  destruct (off <? length root)%nat; destruct d; simpl; auto.
Qed.

(** Below the end of [root] the second loop never moves [top] or [wp]. *)
Lemma subtree_loop_deep root p : forall here top d,
  wf p ->
  (forall x y, In x (leaves p) -> In y (leaves p) ->
               agree (ipath x) (ipath y) (8 * length root)) ->
  exists j, In j (leaves p) /\ subtree_loop p here top None d root = (j, top, None, d).
Proof.
  induction p as [i | c0 IH0 c1 IH1 off bit]; intros here top d W Hag.
  - exists i. simpl. auto.
  - inversion W as [|? ? ? ? Hb W0 W1 H0 H1 Hag']; subst. simpl.
    assert (L : (off <? length root)%nat = false).
    { apply Nat.ltb_ge. destruct (Nat.le_gt_cases (length root) off) as [L|L]; [assumption|].
      exfalso. apply (pos_lt_len off bit _ Hb) in L.
      destruct (leaves_nonempty c0) as [x Hx]. destruct (leaves_nonempty c1) as [y Hy].
      pose proof (Hag x y ltac:(simpl; apply in_or_app; auto)
                          ltac:(simpl; apply in_or_app; auto) _ L) as E.
      rewrite (H0 x Hx), (H1 y Hy) in E. discriminate. }
    rewrite L. destruct d; simpl.
    + destruct (IH1 (here ++ [true]) top true W1) as (j & Hj & E).
      * intros x y Hx Hy. apply Hag; simpl; apply in_or_app; auto.
      * exists j. split; [apply in_or_app; auto|exact E].
    + destruct (IH0 (here ++ [false]) top false W0) as (j & Hj & E).
      * intros x y Hx Hy. apply Hag; simpl; apply in_or_app; auto.
      * exists j. split; [apply in_or_app; auto|exact E].
Qed.

Section DeleteSpec.
Context {S : Type}.
Implicit Types (f : info -> S -> S) (s : S).

(** [deleteAll] of a directory that has entries below it: the handler is
    called on it and on the entries below it, and the index is left
    empty. *)
Lemma deleteAll_dir t root f s i :
  wf_tree t -> plain_tree t -> get t root = Some i -> IsDir i = true ->
  (exists x, In x (entries t) /\ below root x = true) ->
  deleteAll t root f s
  = (None, handle_all f (List.filter (below root) (entries t)) (f i s)).
Proof.
  intros W P G D Hx. destruct t as [r|]; [|discriminate].
  apply get_in in G. destruct G as [Hi Ek]. simpl in Hi, Hx, W.
  destruct (member_loop_dir root r i W P Hi Ek Hx [] None false)
    as (loc & c1 & E & W1 & L1).
  pose proof (member_loop_remove root r) as U. rewrite E in U. simpl in U.
  unfold deleteAll. rewrite E. rewrite Ek, path_eqb_refl. simpl negb. cbv iota.
  rewrite D. simpl negb. cbv iota.
  change (unlink r (Some (mkParent loc (Leaf i) c1)) false)
    with (Some (ref_set r loc c1)).
  cbv iota beta. simpl p_c0. simpl p_c1. simpl p_loc. simpl child.
  destruct (subtree_loop_deep (root ++ [PathSeparator]) c1 loc c1 false W1)
    as (j & Hj & El).
  { intros x y Hx' Hy'. rewrite L1 in Hx', Hy'.
    apply filter_In in Hx', Hy'. apply below_agree; tauto. }
  rewrite El.
  assert (Bj : has_prefix (ipath j) (root ++ [PathSeparator]) = true).
  { rewrite L1 in Hj. apply filter_In in Hj. apply Hj. }
  rewrite Bj. simpl. rewrite deliter_fold, L1. reflexivity.
Qed.

(** [deleteAll] of an entry that is not a directory, or has no entry below
    it: the handler is called on it, and it is removed. *)
Lemma deleteAll_single t root f s i :
  get t root = Some i ->
  IsDir i = false \/ (forall x, In x (entries t) -> below root x = false) ->
  deleteAll t root f s = (remove_entry t root, f i s).
Proof.
  intros G H. destruct t as [r|]; [|discriminate].
  assert (Hb : best r root = i /\ ipath i = root).
  { unfold get in G. destruct (path_eqb root (ipath (best r root))) eqn:E; [|discriminate].
    apply path_eqb_true in E. injection G as <-. auto. }
  destruct Hb as [Hb Ek].
  pose proof (member_loop_remove root r) as U.
  pose proof (member_loop_best root r [] None false) as B.
  unfold deleteAll. simpl remove_entry.
  destruct r as [j | c0 c1 off bit].
  - simpl in *. subst j. rewrite Ek, path_eqb_refl. reflexivity.
  - destruct (member_loop_sub root (Node c0 c1 off bit) c0 c1 off bit [] None false eq_refl)
      as (w & Ew & Hw).
    destruct (member_loop (Node c0 c1 off bit) [] None false root) as [[wp d] i'].
    cbn [fst snd] in U, B, Ew. subst wp. rewrite Hb in B. subst i'.
    rewrite Ek, path_eqb_refl. simpl negb. cbv iota.
    rewrite U.
    destruct (delete_best (Node c0 c1 off bit) root) as [r1|] eqn:E1; [|reflexivity].
    destruct (IsDir i) eqn:D; [|reflexivity]. simpl negb. cbv iota.
    destruct H as [H | H]; [discriminate|].
    pose proof (subtree_loop_in (root ++ [PathSeparator])
                  (child (p_c0 w) (p_c1 w) (negb d)) (p_loc w)
                  (child (p_c0 w) (p_c1 w) (negb d)) None d) as Hin.
    destruct (subtree_loop (child (p_c0 w) (p_c1 w) (negb d)) (p_loc w)
                (child (p_c0 w) (p_c1 w) (negb d)) None d (root ++ [PathSeparator]))
      as [[[pi top] wp2] d2].
    simpl in Hin.
    assert (Hpi : In pi (entries (Some (Node c0 c1 off bit)))).
    { apply Hw. apply in_or_app. destruct (negb d); simpl in Hin; auto. }
    specialize (H pi Hpi). unfold below in H. rewrite H. reflexivity.
Qed.
End DeleteSpec.

(** ** [SkipDir] on a directory *)

Lemma skipped_app skips e p :
  skipped (skips ++ [e]) p = skipped skips p || has_prefix p e.
Proof. unfold skipped. rewrite existsb_app. simpl. now rewrite orb_false_r. Qed.

Section SkipFacts.
Context {S : Type}.
Implicit Types (f : @visitor S) (s : S).

Lemma calls_of_not_skipped r f : forall skips s c,
  In c (calls_of r f skips s) -> skipped skips (ipath (fst c)) = false.
Proof.
  induction r as [i | c0 IH0 c1 IH1 off bit]; intros skips s c; simpl.
  - destruct (skipped skips (ipath i)) eqn:E; [intros []|].
    destruct (Ignored i); [intros []|]. intros [<- | []]. exact E.
  - destruct (walkiter c0 f skips s) as [s0 e0]. intros H.
    apply in_app_or in H. destruct H as [H | H]; [now apply (IH0 skips s)|].
    destruct e0 as [[]|]; try (now apply (IH1 skips s0)); try contradiction.
    apply IH1 in H. rewrite skipped_app in H. now apply orb_false_iff in H.
Qed.

Lemma calls_of_leaf_skip i f skips s pre post :
  calls_of (Leaf i) f skips s = pre ++ (i, Some SkipDir) :: post -> IsDir i = true ->
  pre = [] /\ post = []
  /\ snd (walkiter (Leaf i) f skips s) = Some (skip (ipath i ++ [PathSeparator])).
Proof.
  simpl. unfold visit_leaf. intros E D.
  destruct (skipped skips (ipath i)); [now destruct pre|].
  destruct (Ignored i); [now destruct pre|].
  destruct (f i s) as [s' e]. simpl in E.
  destruct pre as [|c pre]; [|destruct pre; discriminate].
  simpl in E. injection E as -> <-. now rewrite D.
Qed.

(** After the visitor returned [SkipDir] on a directory, it is not called
    on an entry below that directory. *)
Lemma calls_of_skip r f :
  wf r -> (forall x, In x (leaves r) -> plain (ipath x)) ->
  forall skips s pre D post,
    calls_of r f skips s = pre ++ (D, Some SkipDir) :: post -> IsDir D = true ->
    forall c, In c post -> below (ipath D) (fst c) = false.
Proof.
  induction 1 as [j | c0 c1 off bit Hb W0 IH0 W1 IH1 H0 H1 Hag];
    intros P skips s pre D post E HD c Hc.
  - exfalso. simpl in E.
    destruct (skipped skips (ipath j)); [now destruct pre|].
    destruct (Ignored j); [now destruct pre|].
    destruct pre as [|? pre]; [|destruct pre; discriminate].
    injection E as _ _ <-. contradiction.
  - assert (W : wf (Node c0 c1 off bit)) by (constructor; assumption).
    assert (P0 : forall x, In x (leaves c0) -> plain (ipath x)).
    { intros x Hx. apply P. simpl. apply in_or_app. auto. }
    assert (P1 : forall x, In x (leaves c1) -> plain (ipath x)).
    { intros x Hx. apply P. simpl. apply in_or_app. auto. }
    simpl in E. destruct (walkiter c0 f skips s) as [s0 e0] eqn:Ew.
    assert (IHr : forall l, match e0 with
                            | None => calls_of c1 f skips s0
                            | Some (skip e) => calls_of c1 f (skips ++ [e]) s0
                            | Some _ => []
                            end = l ++ (D, Some SkipDir) :: post ->
                            below (ipath D) (fst c) = false).
    { intros l El. destruct e0 as [[]|];
        try (now destruct l); eapply IH1; eauto. }
    apply app_eq_app in E. destruct E as (l & [[E1 E2] | [E1 E2]]).
    + destruct l as [|x l].
      * simpl in E2. apply (IHr []). now rewrite <- E2.
      * simpl in E2. injection E2 as <- E2.
        rewrite E2 in Hc. apply in_app_or in Hc. destruct Hc as [Hc | Hc].
        -- eapply IH0; eauto.
        -- destruct (below (ipath D) (fst c)) eqn:B; [|reflexivity]. exfalso.
           assert (HD0 : In D (leaves c0)).
           { apply list_elem_of_In. eapply elem_of_sublist; [|apply (calls_of_sublist c0 f skips s)].
             rewrite E1. apply list_elem_of_In, in_map_iff. exists (D, Some SkipDir).
             split; [reflexivity|]. apply in_or_app. simpl. auto. }
           assert (Hc1 : In (fst c) (leaves c1)).
           { assert (G : forall sk, In c (calls_of c1 f sk s0) -> In (fst c) (leaves c1)).
             { intros sk Hin. apply list_elem_of_In.
               eapply elem_of_sublist; [|apply (calls_of_sublist c1 f sk s0)].
               apply list_elem_of_In, in_map. exact Hin. }
             destruct e0 as [[]|]; try contradiction; eapply G; exact Hc. }
           destruct (below_right c0 c1 off bit D (fst c) W P HD0 Hc1 B) as [-> _].
           destruct (calls_of_leaf_skip D f skips s pre l E1 HD) as (_ & _ & Es).
           rewrite Ew in Es. simpl in Es. subst e0.
           apply calls_of_not_skipped in Hc. rewrite skipped_app in Hc.
           apply orb_false_iff in Hc. unfold below in B. destruct Hc. congruence.
    + apply (IHr l). exact E2.
Qed.
End SkipFacts.

Lemma leaves_single p d : leaves p = [d] -> p = Leaf d.
Proof.
  destruct p as [i | c0 c1 off bit]; simpl; [congruence|]. intros E. exfalso.
  destruct (leaves_nonempty c0) as [x Hx]. destruct (leaves_nonempty c1) as [y Hy].
  apply (f_equal length) in E. rewrite length_app in E. simpl in E.
  destruct (leaves c0); [contradiction|]. destruct (leaves c1); [contradiction|].
  simpl in E. lia.
Qed.

(** The subtree that [walk] traverses, when some entry lies below [root]. *)
Lemma subtree_below t r root :
  t = Some r -> wf_tree t -> plain_tree t -> plain root ->
  (exists x, In x (entries t) /\ below root x = true) ->
  has_prefix (ipath (best r (root ++ [PathSeparator]))) (root ++ [PathSeparator]) = true
  /\ leaves (subtree_of r (root ++ [PathSeparator]))
     = List.filter (below root) (entries t).
Proof.
  intros -> W P Pr (x & Hx & Bx).
  assert (Pr' : plain (root ++ [PathSeparator])).
  { apply plain_app. split; [assumption|apply plain_sep]. }
  assert (Hp : has_prefix (ipath (best r (root ++ [PathSeparator])))
                          (root ++ [PathSeparator]) = true).
  { destruct (has_prefix (ipath (best r (root ++ [PathSeparator])))
                         (root ++ [PathSeparator])) eqn:E; [reflexivity|].
    pose proof (subtree_of_none _ r W Pr' P E x Hx) as F.
    unfold below in Bx. congruence. }
  split; [exact Hp|]. now apply subtree_of_filter.
Qed.

Lemma Forall_plainb l :
  forallb (fun i => plainb (ipath i)) l = true -> Forall (fun i => plain (ipath i)) l.
Proof.
  intros H. rewrite forallb_forall in H. apply Forall_forall. intros i Hi.
  apply plainb_spec, H. now apply list_elem_of_In.
Qed.

(** * Further facts about the watcher *)

Lemma Split_no_sep p : ~ In PathSeparator p -> Split p = ([], p).
Proof.
  induction p as [|b p IH]; intros H; simpl; [reflexivity|].
  rewrite IH by (intros Hp; apply H; now right).
  rewrite bool_decide_eq_false_2; [reflexivity|].
  intros ->. apply H. now left.
Qed.

Lemma load_flags_explicit r : (Z.land (load_flags r) explicit =? 0) = false.
Proof. now destruct r. Qed.

Section LoadEdge.
Variable fs : fnode.
Variable Filter : info -> bool.
Variable watchFilter : info -> bool.
Variable add : sys -> info -> Z -> sys * info * option error.

Lemma loadImpl_missing st root lflags ev rflags oflags :
  fs_find fs (split_sep root) = None ->
  loadImpl fs Filter watchFilter add st root lflags ev rflags oflags
  = (st, Some (PathError "lstat" root ErrNotExist)).
Proof. intros H. unfold loadImpl, os_Lstat. now rewrite H. Qed.

Lemma loadImpl_not_dir st root lflags ev rflags oflags n :
  fs_find fs (split_sep root) = Some n -> node_isdir n = false ->
  (Z.land lflags explicit =? 0) = false ->
  loadImpl fs Filter watchFilter add st root lflags ev rflags oflags = (st, Some ErrNotDir).
Proof.
  intros H D E. unfold loadImpl, os_Lstat. rewrite H.
  assert (F : fi_IsDir (node_info n) = false).
  { destruct n as [fi | fi es]; [|discriminate]. unfold fi_IsDir. simpl.
    rewrite Z.land_ldiff. reflexivity. }
  now rewrite F, E.
Qed.

Lemma loadImpl_filtered st root lflags ev rflags oflags n :
  fs_find fs (split_sep root) = Some n ->
  node_isdir n = true \/ (Z.land lflags explicit =? 0) = true ->
  Filter (newInfo root (node_info n)) = false ->
  loadImpl fs Filter watchFilter add st root lflags ev rflags oflags = (st, None).
Proof.
  intros H D E. unfold loadImpl, os_Lstat. rewrite H.
  assert (F : negb (fi_IsDir (node_info n)) && negb (Z.land lflags explicit =? 0) = false).
  { destruct D as [D | D]; [|rewrite D; apply andb_false_r].
    destruct n as [fi | fi es]; [discriminate|]. unfold fi_IsDir. simpl.
    replace (Z.land (Z.lor (fi_mode fi) ModeDir) ModeDir =? 0) with false; [reflexivity|].
    symmetry. apply Z.eqb_neq. intros Z0.
    apply (f_equal (fun z => Z.testbit z 31)) in Z0.
    rewrite Z.land_spec, Z.lor_spec, Z.bits_0 in Z0.
    change (Z.testbit ModeDir 31) with true in Z0. rewrite orb_true_r in Z0.
    discriminate. }
  now rewrite F, E.
Qed.
End LoadEdge.

Lemma fi_IsDir_node_info n : fi_IsDir (node_info n) = node_isdir n.
Proof.
  destruct n as [fi | fi es]; unfold fi_IsDir; simpl.
  - now rewrite Z.land_ldiff.
  - replace (Z.land (Z.lor (fi_mode fi) ModeDir) ModeDir =? 0) with false; [reflexivity|].
    symmetry. apply Z.eqb_neq. intros Z0.
    apply (f_equal (fun z => Z.testbit z 31)) in Z0.
    rewrite Z.land_spec, Z.lor_spec, Z.bits_0 in Z0.
    change (Z.testbit ModeDir 31) with true in Z0. rewrite orb_true_r in Z0.
    discriminate.
Qed.

Lemma loadImpl_turned_down fs Filter watchFilter add st root r ev rflags oflags :
  turned_down fs Filter st root
    (let '(st', err) :=
       loadImpl fs Filter watchFilter add st root (load_flags r) ev rflags oflags in
     if is_SkipDir err then (st', None) else (st', err)).
Proof.
  unfold turned_down, os_Lstat.
  destruct (fs_find fs (split_sep root)) as [n|] eqn:E.
  - rewrite fi_IsDir_node_info. split.
    + intros D. rewrite (loadImpl_not_dir fs Filter watchFilter add st root _ ev rflags
                           oflags n E D (load_flags_explicit r)). reflexivity.
    + intros D F. rewrite (loadImpl_filtered fs Filter watchFilter add st root _ ev rflags
                             oflags n E (or_introl D) F). reflexivity.
  - now rewrite loadImpl_missing.
Qed.

(** ** Releasing watches *)

Lemma kqueue_rm_release st i fd :
  watch i = Some fd -> is_Some (k_watches (kern st) !! fd) ->
  Kqueue.rm st i = (release st fd, None).
Proof.
  intros Hw [p Hp]. unfold Kqueue.rm, Kqueue.sys_Close. now rewrite Hw, Hp.
Qed.

Lemma inotify_rm_release st i fd :
  k_open (kern st) = true -> watch i = Some fd -> is_Some (k_watches (kern st) !! fd) ->
  Inotify.rm st i = (release st fd, None).
Proof.
  intros Ho Hw [p Hp]. unfold Inotify.rm, Inotify.InotifyRmWatch.
  rewrite Hw, Ho. cbn [negb]. cbv iota. rewrite Hp. unfold release. now rewrite Ho.
Qed.

Lemma release_fields st fd :
  w_fdmap (wat (release st fd)) = fdmap_delete (w_fdmap (wat st)) fd
  /\ k_watches (kern (release st fd)) = delete fd (k_watches (kern st))
  /\ k_open (kern (release st fd)) = k_open (kern st)
  /\ k_next (kern (release st fd)) = k_next (kern st)
  /\ w_tree (wat (release st fd)) = w_tree (wat st)
  /\ w_errors (wat (release st fd)) = w_errors (wat st)
  /\ w_events (wat (release st fd)) = w_events (wat st)
  /\ w_fd (wat (release st fd)) = w_fd (wat st)
  /\ w_signal (wat (release st fd)) = w_signal (wat st).
Proof. repeat split. Qed.

Lemma fold_release_step (step : sys -> info -> sys) (ok : sys -> Prop)
    (l : list (Z * info)) :
  (forall st i fd, ok st -> watch i = Some fd ->
                   is_Some (k_watches (kern st) !! fd) -> step st i = release st fd) ->
  (forall st fd, ok st -> ok (release st fd)) ->
  forall st, ok st -> NoDup (l.*1) ->
    (forall fd i, (fd, i) ∈ l -> watch i = Some fd
                                 /\ is_Some (k_watches (kern st) !! fd)) ->
    fold_left step (l.*2) st = fold_left release (l.*1) st.
Proof.
  intros Hstep Hok. induction l as [|[fd i] l IH]; intros st Ho N H; [reflexivity|].
  simpl in *. apply NoDup_cons in N. destruct N as [Nfd N].
  destruct (H fd i ltac:(left)) as [Hw Hk].
  rewrite (Hstep st i fd Ho Hw Hk). apply IH; auto.
  intros fd' i' Hin. destruct (H fd' i' ltac:(now right)) as [Hw' Hk'].
  split; [assumption|]. simpl. rewrite lookup_delete_ne; [assumption|].
  intros <-. apply Nfd. apply list_elem_of_fmap. now exists (fd, i').
Qed.

Lemma fold_release_fields fds : forall st,
  w_fdmap (wat (fold_left release fds st))
  = fold_left fdmap_delete fds (w_fdmap (wat st))
  /\ k_watches (kern (fold_left release fds st))
     = fold_left (fun m fd => delete fd m) fds (k_watches (kern st))
  /\ k_open (kern (fold_left release fds st)) = k_open (kern st)
  /\ w_tree (wat (fold_left release fds st)) = w_tree (wat st)
  /\ w_errors (wat (fold_left release fds st)) = w_errors (wat st)
  /\ w_events (wat (fold_left release fds st)) = w_events (wat st)
  /\ w_fd (wat (fold_left release fds st)) = w_fd (wat st)
  /\ w_signal (wat (fold_left release fds st)) = w_signal (wat st).
Proof.
  induction fds as [|fd fds IH]; intros st; simpl; [repeat split|].
  destruct (IH (release st fd)) as (A & B & C & D & E & F & G & H).
  rewrite A, B, C, D, E, F, G, H. repeat split.
Qed.

Lemma fold_delete_lookup {A} fds : forall (m : gmap Z A) k,
  fold_left (fun m fd => delete fd m) fds m !! k
  = if bool_decide (k ∈ fds) then None else m !! k.
Proof.
  induction fds as [|fd fds IH]; intros m k; simpl; [reflexivity|].
  rewrite IH. destruct (decide (k = fd)) as [-> | Hne].
  - rewrite lookup_delete_eq. rewrite (bool_decide_eq_true_2 (fd ∈ fd :: fds)) by left.
    now destruct (bool_decide (fd ∈ fds)).
  - rewrite lookup_delete_ne by congruence.
    destruct (bool_decide (k ∈ fds)) eqn:E.
    + apply bool_decide_eq_true in E. rewrite bool_decide_eq_true_2; [reflexivity|now right].
    + apply bool_decide_eq_false in E. rewrite bool_decide_eq_false_2; [reflexivity|].
      intros Hin. apply elem_of_cons in Hin. destruct Hin; [congruence|contradiction].
Qed.

Lemma fold_fdmap_delete fds (m : gmap Z info) :
  fold_left fdmap_delete fds (Some m)
  = Some (fold_left (fun m fd => delete fd m) fds m).
Proof.
  revert m. induction fds as [|fd fds IH]; intros m; simpl; [reflexivity|]. apply IH.
Qed.

Lemma fold_delete_all (m : gmap Z info) :
  fold_left (fun m fd => delete fd m) ((map_to_list m).*1) m = ∅.
Proof.
  apply map_eq. intros k. rewrite fold_delete_lookup, lookup_empty.
  destruct (bool_decide (k ∈ (map_to_list m).*1)) eqn:E; [reflexivity|].
  apply bool_decide_eq_false in E.
  destruct (m !! k) as [v|] eqn:L; [|reflexivity]. exfalso. apply E.
  apply list_elem_of_fmap. exists (k, v). split; [reflexivity|].
  now apply elem_of_map_to_list.
Qed.

(** The loop of [close] over [fdmap], on a watcher whose entries of
    [fdmap] are filed under their own descriptors, which the kernel holds. *)
Lemma close_loop (rm : sys -> info -> sys * option error) (ok : sys -> Prop) st m :
  (forall st i fd, ok st -> watch i = Some fd ->
                   is_Some (k_watches (kern st) !! fd) -> rm st i = (release st fd, None)) ->
  (forall st fd, ok st -> ok (release st fd)) ->
  ok st -> w_fdmap (wat st) = Some m ->
  (forall fd i, m !! fd = Some i ->
                watch i = Some fd /\ is_Some (k_watches (kern st) !! fd)) ->
  let st' := fold_left (rm_logged rm) (fdmap_values (w_fdmap (wat st))) st in
  w_fdmap (wat st') = Some ∅
  /\ (forall fd, k_watches (kern st') !! fd
                 = if bool_decide (is_Some (m !! fd)) then None
                   else k_watches (kern st) !! fd)
  /\ k_open (kern st') = k_open (kern st)
  /\ w_tree (wat st') = w_tree (wat st)
  /\ w_errors (wat st') = w_errors (wat st)
  /\ w_events (wat st') = w_events (wat st)
  /\ w_fd (wat st') = w_fd (wat st)
  /\ w_signal (wat st') = w_signal (wat st).
Proof.
  intros Hrm Hok Ho Em H. rewrite Em. unfold fdmap_values.
  rewrite (fold_release_step (rm_logged rm) ok (map_to_list m)); auto.
  - destruct (fold_release_fields ((map_to_list m).*1) st) as (A & B & C & D & E & F & G & I).
    cbv zeta. rewrite A, B, C, D, E, F, G, I, Em, fold_fdmap_delete, fold_delete_all.
    repeat split. intros fd. rewrite fold_delete_lookup.
    destruct (m !! fd) as [v|] eqn:L.
    + rewrite bool_decide_eq_true_2; [now rewrite bool_decide_eq_true_2|].
      apply list_elem_of_fmap. exists (fd, v). split; [reflexivity|].
      now apply elem_of_map_to_list.
    + rewrite bool_decide_eq_false_2.
      * rewrite bool_decide_eq_false_2; [reflexivity|]. now intros [? ?].
      * intros Hin. apply list_elem_of_fmap in Hin. destruct Hin as ([k v] & -> & Hin).
        apply elem_of_map_to_list in Hin. simpl in L. congruence.
  - intros st1 i fd Ho1 Hw Hk. unfold rm_logged. now rewrite (Hrm st1 i fd Ho1 Hw Hk).
  - apply NoDup_fst_map_to_list.
  - intros fd i Hin. apply elem_of_map_to_list in Hin. now apply H.
Qed.

Lemma find_wd_some (m : gmap Z path) p wd : find_wd m p = Some wd -> m !! wd = Some p.
Proof.
  unfold find_wd. intros H.
  destruct (head (filter (fun kv => snd kv = p) (map_to_list m))) as [[k v]|] eqn:E;
    [|discriminate].
  simpl in H. injection H as ->.
  apply head_Some_elem_of in E. apply list_elem_of_filter in E. destruct E as [Ev E].
  simpl in Ev. subst v. now apply elem_of_map_to_list.
Qed.

Lemma kqueue_close_releases st m :
  w_fd (wat st) <> -1 -> w_signal (wat st) = [] ->
  w_fdmap (wat st) = Some m ->
  (forall fd i, m !! fd = Some i ->
                watch i = Some fd /\ is_Some (k_watches (kern st) !! fd)) ->
  exists st', Kqueue.close st = Some (st', None) /\ all_released m st st'.
Proof.
  intros Hfd Hs Em H. unfold Kqueue.close.
  rewrite (proj2 (Z.eqb_neq _ _) Hfd), Hs. eexists. split; [reflexivity|].
  set (st1 := set_signal st [sig_close (w_fd (wat st))]).
  destruct (close_loop Kqueue.rm (fun _ => True) st1 m) as (A & B & _ & D & E & _); auto.
  - intros st0 i fd _. apply kqueue_rm_release.
  - unfold all_released. simpl. split; [exact A|]. split; [|split; assumption].
    intros fd Hin. unfold rm_logged in B. rewrite B. now rewrite bool_decide_eq_true_2.
Qed.

Lemma kqueue_close_late_keeps st m :
  w_fd (wat st) <> -1 -> w_signal (wat st) = [] -> k_open (kern st) = true ->
  (forall fd i, m !! fd = Some i ->
                watch i = Some fd /\ is_Some (k_watches (kern st) !! fd)) ->
  exists st', Kqueue.close_late st = Some (st', None) /\ none_released m st st'.
Proof.
  intros Hfd Hs Ho H. unfold Kqueue.close_late.
  rewrite (proj2 (Z.eqb_neq _ _) Hfd), Hs. eexists. split; [reflexivity|].
  unfold Kqueue.run_signal, Kqueue.close_fd. cbn [set_signal wat w_signal set_wat].
  cbn [kern set_signal set_wat]. rewrite Ho. cbn.
  repeat split; try reflexivity.
  intros fd [i Hi]. now apply (H fd i).
Qed.

Lemma inotify_close_releases fs st m :
  w_fd (wat st) <> -1 -> w_signal (wat st) = [] -> k_open (kern st) = true ->
  w_fdmap (wat st) = Some m ->
  (forall fd i, m !! fd = Some i ->
                watch i = Some fd /\ is_Some (k_watches (kern st) !! fd)) ->
  exists st', Inotify.close fs st = Some (st', None) /\ all_released m st st'.
Proof.
  intros Hfd Hs Ho Em H. unfold Inotify.close. rewrite (proj2 (Z.eqb_neq _ _) Hfd).
  assert (G : forall st1 m1,
             w_signal (wat st1) = [] -> k_open (kern st1) = true ->
             w_fdmap (wat st1) = Some m1 ->
             w_tree (wat st1) = w_tree (wat st) -> w_errors (wat st1) = w_errors (wat st) ->
             (forall fd, is_Some (m !! fd) -> is_Some (m1 !! fd)) ->
             (forall fd i, m1 !! fd = Some i ->
                           watch i = Some fd /\ is_Some (k_watches (kern st1) !! fd)) ->
             exists st',
               match w_signal (wat st1) with
               | _ :: _ => None
               | [] =>
                   let st2 := set_signal st1 [sig_close (w_fd (wat st1))] in
                   Some (fold_left (rm_logged (Inotify.rm))
                                   (fdmap_values (w_fdmap (wat st2))) st2,
                         (None : option error))
               end = Some (st', None) /\ all_released m st st').
  { intros st1 m1 Hs1 Ho1 Em1 Et Ee Sub H1. rewrite Hs1. eexists. split; [reflexivity|].
    set (st2 := set_signal st1 [sig_close (w_fd (wat st1))]).
    destruct (close_loop Inotify.rm (fun st => k_open (kern st) = true) st2 m1)
      as (A & B & _ & D & E & _); auto.
    - intros st0 i fd. apply inotify_rm_release.
    - change (w_tree (wat st2)) with (w_tree (wat st1)) in D.
      change (w_errors (wat st2)) with (w_errors (wat st1)) in E.
      unfold all_released. split; [exact A|]. split; [|split; congruence].
      intros fd Hin. rewrite B. rewrite bool_decide_eq_true_2; auto. }
  destruct (w_tree (wat st)) as [r|] eqn:T.
  - apply (G st m); auto.
  - unfold Inotify.InotifyAddWatch. rewrite Ho. cbn [negb]. cbv iota.
    rewrite fs_find_root.
    destruct (find_wd (k_watches (kern st)) [PathSeparator]) as [wd|] eqn:F.
    + rewrite Em. simpl fdmap_set. cbv iota beta.
      apply (G _ (<[wd := mkInfo (Some wd) [PathSeparator] 0 0 0 0]> m)); auto.
      * intros fd [v Hv]. destruct (decide (fd = wd)) as [-> | Hne].
        -- rewrite lookup_insert_eq. eauto.
        -- rewrite lookup_insert_ne by congruence. eauto.
      * intros fd i Hi. apply find_wd_some in F.
        destruct (decide (fd = wd)) as [-> | Hne].
        -- rewrite lookup_insert_eq in Hi. injection Hi as <-. simpl. eauto.
        -- rewrite lookup_insert_ne in Hi by congruence. now apply H.
    + rewrite Em. simpl fdmap_set. cbv iota beta.
      apply (G _ (<[k_next (kern st) := mkInfo (Some (k_next (kern st))) [PathSeparator]
                                               0 0 0 0]> m)); auto.
      * intros fd [v Hv]. destruct (decide (fd = k_next (kern st))) as [-> | Hne].
        -- rewrite lookup_insert_eq. eauto.
        -- rewrite lookup_insert_ne by congruence. eauto.
      * intros fd i Hi. simpl.
        destruct (decide (fd = k_next (kern st))) as [-> | Hne].
        -- rewrite lookup_insert_eq in Hi. injection Hi as <-. simpl.
           rewrite lookup_insert_eq. eauto.
        -- rewrite lookup_insert_ne in Hi by congruence.
           rewrite lookup_insert_ne by congruence. now apply H.
Qed.

(** ** Writes through an info pointer *)

Lemma set_leaf_leaves r i : leaves (set_leaf r i) = map (rewrite_with i) (leaves r).
Proof.
  induction r as [j | c0 IH0 c1 IH1 off bit]; simpl.
  - unfold rewrite_with. now destruct (path_eqb (ipath j) (ipath i)).
  - now rewrite map_app, IH0, IH1.
Qed.

Lemma rewrite_with_path i j : ipath (rewrite_with i j) = ipath j.
Proof.
  unfold rewrite_with. destruct (path_eqb (ipath j) (ipath i)) eqn:E; [|reflexivity].
  apply path_eqb_true in E. congruence.
Qed.

Lemma set_leaf_in r i x :
  In x (leaves (set_leaf r i)) -> exists j, In j (leaves r) /\ ipath j = ipath x.
Proof.
  rewrite set_leaf_leaves. intros H. apply in_map_iff in H. destruct H as (j & <- & Hj).
  exists j. split; [assumption|]. now rewrite rewrite_with_path.
Qed.

Lemma set_leaf_wf r i : wf r -> wf (set_leaf r i).
Proof.
  induction 1 as [j | c0 c1 off bit Hb W0 IH0 W1 IH1 H0 H1 Hag]; simpl.
  - destruct (path_eqb (ipath j) (ipath i)); constructor.
  - constructor; auto.
    + intros x Hx. apply set_leaf_in in Hx. destruct Hx as (j & Hj & <-). auto.
    + intros x Hx. apply set_leaf_in in Hx. destruct Hx as (j & Hj & <-). auto.
    + intros x y Hx Hy.
      assert (G : forall z, In z (leaves (set_leaf c0 i) ++ leaves (set_leaf c1 i)) ->
                            exists j, In j (leaves c0 ++ leaves c1) /\ ipath j = ipath z).
      { intros z Hz. apply in_app_or in Hz.
        destruct Hz as [Hz | Hz]; apply set_leaf_in in Hz; destruct Hz as (j & Hj & E);
          exists j; (split; [apply in_or_app; auto|exact E]). }
      destruct (G x Hx) as (jx & Hjx & <-). destruct (G y Hy) as (jy & Hjy & <-). auto.
Qed.

Lemma set_leaf_best r i k : best (set_leaf r i) k = rewrite_with i (best r k).
Proof.
  induction r as [j | c0 IH0 c1 IH1 off bit]; simpl.
  - unfold rewrite_with. now destruct (path_eqb (ipath j) (ipath i)).
  - destruct (dir off bit k); simpl; auto.
Qed.

Lemma set_leaf_get t i k :
  get (option_map (fun r => set_leaf r i) t) k = rewrite_with i <$> get t k.
Proof.
  destruct t as [r|]; [|reflexivity]. simpl. rewrite set_leaf_best, rewrite_with_path.
  now destruct (path_eqb k (ipath (best r k))).
Qed.

Lemma set_leaf_plain t i :
  plain_tree t -> plain_tree (option_map (fun r => set_leaf r i) t).
Proof.
  intros P x Hx. destruct t as [r|]; [|contradiction]. simpl in Hx.
  apply set_leaf_in in Hx. destruct Hx as (j & Hj & <-). now apply P.
Qed.

Lemma set_leaf_wf_tree t i :
  wf_tree t -> wf_tree (option_map (fun r => set_leaf r i) t).
Proof. destruct t as [r|]; simpl; [apply set_leaf_wf|auto]. Qed.

(** ** [Clean] and [Join] keep paths plain *)

Lemma plain_dot : plain [dot].
Proof. repeat constructor. vm_compute. discriminate. Qed.

Lemma split_sep_plain p : plain p -> Forall plain (split_sep p).
Proof.
  induction p as [|b p IH]; intros P; simpl.
  - repeat constructor.
  - apply plain_cons in P. destruct P as [Pb P]. specialize (IH P).
    destruct (bool_decide (b = PathSeparator)).
    + constructor; [constructor|assumption].
    + destruct (split_sep p) as [|n ns]; [repeat constructor; assumption|].
      apply Forall_cons in IH. destruct IH as [Pn Pns].
      constructor; [|assumption]. apply plain_cons. auto.
Qed.

Lemma clean_elems_plain rooted elems : forall stack,
  Forall plain elems -> Forall plain stack ->
  Forall plain (clean_elems rooted elems stack).
Proof.
  induction elems as [|e rest IH]; intros stack Pe Ps; simpl; [assumption|].
  apply Forall_cons in Pe. destruct Pe as [Pe Pr].
  destruct (bool_decide (e = [])); [now apply IH|].
  destruct (bool_decide (e = [dot])); [now apply IH|].
  destruct (bool_decide (e = [dot; dot])).
  - destruct stack as [|top stack'].
    + destruct rooted; apply IH; auto.
    + apply Forall_cons in Ps. destruct Ps as [Pt Ps'].
      destruct (bool_decide (top = [dot; dot])); apply IH; auto.
  - apply IH; auto.
Qed.

Lemma join_sep_plain l : Forall plain l -> plain (join_sep l).
Proof.
  induction l as [|e l IH]; intros P; simpl; [constructor|].
  apply Forall_cons in P. destruct P as [Pe Pl].
  destruct l as [|e' l']; [assumption|].
  apply plain_app. split; [assumption|]. apply plain_cons. split; [|now apply IH].
  vm_compute. discriminate.
Qed.

Lemma Clean_plain p : plain p -> plain (Clean p).
Proof.
  intros P. unfold Clean.
  assert (B : plain (join_sep (rev (clean_elems (is_rooted p) (split_sep p) [])))).
  { apply join_sep_plain. apply Forall_rev. apply clean_elems_plain; [|constructor].
    now apply split_sep_plain. }
  destruct (is_rooted p).
  - apply plain_cons. split; [vm_compute; discriminate|assumption].
  - destruct (join_sep _); [apply plain_dot|assumption].
Qed.

Lemma Join_plain a b : plain a -> plain b -> plain (Join a b).
Proof.
  intros Pa Pb. unfold Join. destruct a as [|x a]; [now apply Clean_plain|].
  apply Clean_plain. apply plain_app. split; [assumption|].
  apply plain_cons. split; [vm_compute; discriminate|assumption].
Qed.

(** ** What a load keeps *)

Lemma has_flags_refl fl : has_flags fl fl.
Proof. unfold has_flags. apply Z.land_diag. Qed.

Lemma has_flags_trans a b c : has_flags a b -> has_flags b c -> has_flags a c.
Proof.
  unfold has_flags. intros H1 H2. rewrite <- H2 at 1. rewrite Z.land_assoc, H1. exact H2.
Qed.

Lemma has_flags_lor_l a b : has_flags (Z.lor a b) a.
Proof.
  unfold has_flags. apply Z.bits_inj'. intros n Hn.
  rewrite Z.land_spec, Z.lor_spec. now destruct (Z.testbit a n), (Z.testbit b n).
Qed.

Lemma has_flags_lor_r a b : has_flags (Z.lor a b) b.
Proof. rewrite Z.lor_comm. apply has_flags_lor_l. Qed.

Lemma extends_refl t : extends t t.
Proof. intros q i G. exists i. auto using has_flags_refl. Qed.

Lemma extends_trans t1 t2 t3 : extends t1 t2 -> extends t2 t3 -> extends t1 t3.
Proof.
  intros H1 H2 q i G. destruct (H1 q i G) as (i2 & G2 & M2 & F2).
  destruct (H2 q i2 G2) as (i3 & G3 & M3 & F3). exists i3.
  split; [assumption|]. split; [congruence|]. eapply has_flags_trans; eassumption.
Qed.

Lemma insert_none_fresh t i t' :
  wf_tree t -> insert t i = (t', None) -> get t (ipath i) = None.
Proof.
  intros W E. destruct (get t (ipath i)) as [d|] eqn:G; [|reflexivity].
  rewrite (insert_found t i d W G) in E. discriminate.
Qed.

Lemma insert_extends t i :
  wf_tree t -> plain_tree t -> plain (ipath i) -> extends t (fst (insert t i)).
Proof.
  intros W P Pi q j G. exists j. split; [|auto using has_flags_refl].
  destruct (decide (q = ipath i)) as [-> | Hq].
  - rewrite (insert_found t i j W G). exact G.
  - now rewrite insert_other.
Qed.

(** A write through the pointer to the entry stored at the path of [x]. *)
Lemma set_leaf_extends t x j :
  get t (ipath x) = Some j -> mode x = mode j -> has_flags (flags x) (flags j) ->
  extends t (option_map (fun r => set_leaf r x) t).
Proof.
  intros G M F q i Gq. rewrite set_leaf_get, Gq. simpl. exists (rewrite_with x i).
  split; [reflexivity|]. unfold rewrite_with.
  destruct (path_eqb (ipath i) (ipath x)) eqn:E; [|auto using has_flags_refl].
  apply path_eqb_true in E. destruct (get_in _ _ _ Gq) as [_ Eq].
  assert (i = j) by congruence. subst j. auto.
Qed.

Lemma fents_find_plain es name n :
  fents_plain es -> fents_find es name = Some n -> fs_plain n.
Proof.
  induction es as [|nm c rest IH]; simpl; [discriminate|].
  intros (Pn & Pc & Pr). destruct (path_eqb nm name); [|now apply IH].
  now intros [= <-].
Qed.

Lemma fs_find_plain elems : forall fs n,
  fs_plain fs -> fs_find fs elems = Some n -> fs_plain n.
Proof.
  induction elems as [|e rest IH]; intros fs n P; simpl; [now intros [= <-]|].
  destruct (bool_decide (e = []) || bool_decide (e = [dot])); [now apply IH|].
  destruct fs as [fi | fi es]; [discriminate|].
  destruct (fents_find es e) as [c|] eqn:E; [|discriminate].
  apply IH. simpl in P. eapply fents_find_plain; eassumption.
Qed.

Section WalkInvariant.
Context {S : Type}.
Variable Inv : S -> Prop.
Variable fn : @FsWalkFunc S.
Hypothesis fn_keeps : forall q fi err s, plain q -> Inv s -> Inv (fst (fn q fi err s)).

(** An invariant of the function handed to [filepath.Walk] is an invariant
    of the walk, when all the paths walked are plain. *)
Lemma fwalk_keeps n :
  forall p s, fs_plain n -> plain p -> Inv s -> Inv (fst (fwalk n p fn s)).
Proof.
  induction n as [fi | fi es IHes | | name c IHc rest IHrest]
    using fnode_fents_ind
    with (P0 := fun es => forall p s, fents_plain es -> plain p -> Inv s ->
                                      Inv (fst (fwalk_ents es p fn s))).
  - intros p s _ Pp Hs. simpl. now apply fn_keeps.
  - intros p s Pn Pp Hs. simpl.
    match goal with
    | |- context [fn p ?a None s] =>
        pose proof (fn_keeps p a None s Pp Hs) as H1;
        destruct (fn p a None s) as [s1 [e|]]; [exact H1|]
    end.
    now apply IHes.
  - intros p s _ _ Hs. exact Hs.
  - intros p s (Pn & Pc & Pr) Pp Hs. simpl.
    pose proof (IHc (Join p name) s Pc (Join_plain _ _ Pp Pn) Hs) as H1.
    destruct (fwalk c (Join p name) fn s) as [s1 [e|]]; simpl in H1.
    + destruct (node_isdir c && _); [now apply IHrest|exact H1].
    + now apply IHrest.
Qed.

Lemma filepath_Walk_keeps fs root s :
  fs_plain fs -> plain root -> Inv s -> Inv (fst (filepath_Walk fs root fn s)).
Proof.
  intros Pf Pr Hs. unfold filepath_Walk.
  destruct (fs_find fs (split_sep root)) as [n|] eqn:E.
  - pose proof (fwalk_keeps n root s (fs_find_plain _ _ _ Pf E) Pr Hs) as H.
    destruct (fwalk n root fn s) as [s1 e]. now destruct (is_SkipDir e).
  - pose proof (fn_keeps root None (Some (PathError "lstat" root ErrNotExist)) s Pr Hs) as H.
    destruct (fn root None _ s) as [s1 e]. now destruct (is_SkipDir e).
Qed.
End WalkInvariant.

Lemma write_info_tree st old new :
  w_tree (wat (write_info st old new))
  = option_map (fun r => set_leaf r new) (w_tree (wat st)).
Proof. reflexivity. Qed.

Lemma log_tree st err : w_tree (wat (log_unless_not_exist st err)) = w_tree (wat st).
Proof. destruct err as [e|]; simpl; [|reflexivity]. now destruct (IsNotExist e). Qed.

Lemma fold_Handle_tree ev l : forall st,
  w_tree (wat (fold_left (fun st f => ctx_Handle st ev f) l st)) = w_tree (wat st).
Proof. induction l as [|a l IH]; intros st; simpl; [reflexivity|]. now rewrite IH. Qed.

Lemma index_ok_tree st st' :
  w_tree (wat st') = w_tree (wat st) -> index_ok st -> index_ok st'.
Proof. unfold index_ok. now intros ->. Qed.

Section LoadInvariant.
Variable fs : fnode.
Variable Filter : info -> bool.
Variable watchFilter : info -> bool.
Variable add : sys -> info -> Z -> sys * info * option error.
Hypothesis add_ok : add_writes_watch add.

(** The state of the loader: the index is well-formed and extends [t0]. *)
Let loaded (t0 : tree) (st : sys) : Prop :=
  index_ok st /\ extends t0 (w_tree (wat st)).

Lemma loaded_tree t0 st st' :
  w_tree (wat st') = w_tree (wat st) -> loaded t0 st -> loaded t0 st'.
Proof. unfold loaded, index_ok. now intros ->. Qed.

(** [add] on an entry that is in the index. *)
Lemma add_keeps t0 st f fl :
  loaded t0 st -> get (w_tree (wat st)) (ipath f) = Some f ->
  loaded t0 (fst (fst (add st f fl)))
  /\ get (w_tree (wat (fst (fst (add st f fl))))) (ipath f)
     = Some (snd (fst (add st f fl)))
  /\ mode (snd (fst (add st f fl))) = mode f
  /\ flags (snd (fst (add st f fl))) = flags f.
Proof.
  intros [[W P] E] G. pose proof (add_ok st f fl) as H.
  destruct (add st f fl) as [[st' f'] err]. simpl. unfold loaded, index_ok.
  destruct H as [[Ht ->] | (Ht & Ep & Em & Ef)].
  - rewrite Ht. repeat split; auto.
  - rewrite Ht. split; [split; [split|]|split; [|auto]].
    + now apply set_leaf_wf_tree.
    + now apply set_leaf_plain.
    + eapply extends_trans; [exact E|].
      apply (set_leaf_extends _ f' f); [now rewrite Ep|assumption|].
      rewrite Ef. apply has_flags_refl.
    + rewrite set_leaf_get, G. simpl. unfold rewrite_with.
      now rewrite Ep, path_eqb_refl.
Qed.

(** The function handed to [filepath.Walk] keeps the state of the loader. *)
Lemma walker_keeps t0 root lflags event oflags q fi err s :
  plain q -> loaded t0 (fst s) ->
  loaded t0 (fst (fst (walker Filter watchFilter add root lflags event oflags q fi err s))).
Proof.
  intros Pq L. destruct s as [st list]. simpl in L. unfold walker.
  destruct err as [e|].
  { cbn [fst]. apply (loaded_tree _ st); [apply log_tree|exact L]. }
  destruct fi as [fi|]; [|exact L].
  destruct (path_eqb q root); [exact L|].
  set (f := newInfo q fi).
  destruct L as [[W P] E].
  destruct (insert (w_tree (wat st)) f) as [t' dup] eqn:Ei.
  destruct dup as [d|]; [now repeat split|].
  pose proof (insert_wf _ f W P Pq) as [W' P']. rewrite Ei in W', P'. simpl in W', P'.
  pose proof (insert_get _ f W P Pq (insert_none_fresh _ _ _ W Ei)) as G.
  rewrite Ei in G. simpl in G.
  pose proof (insert_extends _ f W P Pq) as X. rewrite Ei in X. simpl in X.
  assert (L1 : loaded t0 (set_tree st t')).
  { split; [split; assumption|]. eapply extends_trans; eassumption. }
  destruct (negb (Filter f)).
  - simpl. split; [split|].
    + now apply set_leaf_wf_tree.
    + now apply set_leaf_plain.
    + eapply extends_trans; [exact (proj2 L1)|].
      apply (set_leaf_extends _ _ f); [exact G|reflexivity|apply has_flags_lor_l].
  - destruct (watchFilter f).
    + destruct (add_keeps t0 (set_tree st t') f oflags L1 G) as (L2 & _).
      destruct (add (set_tree st t') f oflags) as [[st2 f2] err2]. cbn [fst] in *.
      apply (loaded_tree _ st2); [apply log_tree|exact L2].
    + exact L1.
Qed.

(** [loadImpl] keeps the index well-formed and drops no entry; after it
    went past the filter, the index holds the root with the flags asked
    for. *)
Lemma loadImpl_keeps st root lflags event rflags oflags :
  fs_plain fs -> plain root -> index_ok st ->
  let st' := fst (loadImpl fs Filter watchFilter add st root lflags event rflags oflags) in
  index_ok st' /\ extends (w_tree (wat st)) (w_tree (wat st'))
  /\ forall fi, os_Lstat fs root = inl fi ->
       negb (fi_IsDir fi) && negb (Z.land lflags explicit =? 0) = false ->
       Filter (newInfo root fi) = true ->
       exists i, get (w_tree (wat st')) root = Some i
                 /\ has_flags (flags i) lflags
                 /\ (get (w_tree (wat st)) root = None -> mode i = fi_mode fi).
Proof.
  intros Pf Pr [W P]. cbv zeta. unfold loadImpl.
  destruct (os_Lstat fs root) as [fi | err];
    [|split; [now split|]; split; [apply extends_refl|discriminate]].
  destruct (negb (fi_IsDir fi) && negb (Z.land lflags explicit =? 0)) eqn:Ed.
  { split; [now split|]. split; [apply extends_refl|]. intros fi' [= <-] H. congruence. }
  destruct (negb (Filter (newInfo root fi))) eqn:Ef.
  { split; [now split|]. split; [apply extends_refl|]. intros fi' [= <-] _ H.
    rewrite H in Ef. discriminate. }
  set (f := with_flags (newInfo root fi) (Z.lor (flags (newInfo root fi)) lflags)).
  assert (Pfp : plain (ipath f)) by exact Pr.
  destruct (insert (w_tree (wat st)) f) as [t' dup] eqn:Ei.
  pose proof (insert_wf _ f W P Pfp) as [W' P']. rewrite Ei in W', P'. simpl in W', P'.
  pose proof (insert_extends _ f W P Pfp) as X. rewrite Ei in X. simpl in X.
  (* the state before the walk *)
  assert (R : exists st1 f1,
             match dup with
             | Some d =>
                 (write_info (set_tree st t') d
                             (with_flags d (Z.lor (flags d) (flags f))),
                  with_flags d (Z.lor (flags d) (flags f)))
             | None =>
                 if watchFilter f
                 then let '(st, f', err) := add (set_tree st t') f rflags in
                      (log_unless_not_exist st err, f')
                 else (set_tree st t', f)
             end = (st1, f1)
             /\ loaded (w_tree (wat st)) st1
             /\ exists i, get (w_tree (wat st1)) root = Some i
                          /\ has_flags (flags i) lflags
                          /\ (get (w_tree (wat st)) root = None -> mode i = fi_mode fi)).
  { destruct dup as [d|].
    - assert (Gd : get (w_tree (wat st)) root = Some d /\ t' = w_tree (wat st)).
      { destruct (get (w_tree (wat st)) root) as [d0|] eqn:G0.
        - rewrite (insert_found _ f d0 W G0) in Ei. injection Ei as <- <-. auto.
        - pose proof (insert_fresh _ f W P Pfp G0) as (t2 & E2 & _). congruence. }
      destruct Gd as [Gd ->].
      eexists _, _. split; [reflexivity|]. split; [split; [split|]|].
      + now apply set_leaf_wf_tree.
      + now apply set_leaf_plain.
      + apply (set_leaf_extends _ _ d); [|reflexivity|apply has_flags_lor_l].
        destruct (get_in _ _ _ Gd) as [_ Ep]. simpl. now rewrite Ep.
      + exists (with_flags d (Z.lor (flags d) (flags f))).
        rewrite write_info_tree, set_leaf_get. simpl w_tree. rewrite Gd. simpl.
        destruct (get_in _ _ _ Gd) as [_ Ep].
        split; [unfold rewrite_with; simpl; now rewrite path_eqb_refl|].
        split; [|congruence]. simpl.
        eapply has_flags_trans; [apply has_flags_lor_r|]. simpl. apply has_flags_lor_r.
    - pose proof (insert_get _ f W P Pfp (insert_none_fresh _ _ _ W Ei)) as G.
      rewrite Ei in G. simpl in G.
      assert (L1 : loaded (w_tree (wat st)) (set_tree st t')).
      { split; [split; assumption|exact X]. }
      destruct (watchFilter f).
      + destruct (add_keeps _ (set_tree st t') f rflags L1 G) as ([Ok X2] & G2 & M2 & F2).
        destruct (add (set_tree st t') f rflags) as [[st2 f2] err2]. simpl in *.
        eexists _, _. split; [reflexivity|]. split; [split|].
        * eapply index_ok_tree; [|exact Ok]. apply log_tree.
        * now rewrite log_tree.
        * exists f2. rewrite log_tree. split; [exact G2|]. split; [|intros _; exact M2].
          rewrite F2. apply has_flags_lor_r.
      + eexists _, _. split; [reflexivity|]. split; [exact L1|].
        exists f. split; [exact G|]. split; [apply has_flags_lor_r|reflexivity]. }
  destruct R as (st1 & f1 & -> & L1 & i & Gi & Fi & Mi).
  pose proof (filepath_Walk_keeps
                (fun s => loaded (w_tree (wat st)) (fst s)
                          /\ extends (w_tree (wat st1)) (w_tree (wat (fst s))))
                (walker Filter watchFilter add root lflags event oflags)) as K.
  specialize (K (fun q fi0 err s Pq H =>
                   conj (walker_keeps _ root lflags event oflags q fi0 err s Pq (proj1 H))
                        (proj2 (walker_keeps (w_tree (wat st1)) root lflags event oflags
                                  q fi0 err s Pq
                                  (conj (proj1 (proj1 H)) (proj2 H)))))).
  specialize (K fs root (st1, []) Pf Pr (conj L1 (extends_refl _))).
  destruct (filepath_Walk fs root _ (st1, [])) as [[st2 list] err]. simpl in K.
  destruct K as [[Ok2 X2] X12].
  assert (Et : w_tree (wat (match event with
                            | Some ev =>
                                fold_left (fun st f => ctx_Handle st ev f) list
                                  (match dup with
                                   | None => ctx_Handle st2 ev f1
                                   | Some _ => st2
                                   end)
                            | None => st2
                            end)) = w_tree (wat st2)).
  { destruct event as [ev|]; [|reflexivity]. rewrite fold_Handle_tree.
    now destruct dup. }
  simpl fst. split; [eapply index_ok_tree; eassumption|]. rewrite Et.
  split; [exact X2|]. intros fi' [= <-] _ _.
  destruct (X12 root i Gi) as (i' & Gi' & Mi' & Fi'). exists i'.
  split; [exact Gi'|]. split; [eapply has_flags_trans; eassumption|].
  intros G0. rewrite Mi'. now apply Mi.
Qed.
End LoadInvariant.

Lemma kqueue_add_writes_watch fs : add_writes_watch (Kqueue.add fs).
Proof.
  intros st f fl. unfold Kqueue.add, Kqueue.sys_Open.
  destruct (fs_find fs (split_sep (ipath f))); [|left; now split].
  cbv iota beta. cbn [k_open].
  destruct (negb (k_open (kern st))); [left; now split|].
  destruct (fdmap_set _ _ _) as [m|]; right; repeat split.
Qed.

Lemma inotify_add_writes_watch fs : add_writes_watch (Inotify.add fs).
Proof.
  intros st f fl. unfold Inotify.add, Inotify.InotifyAddWatch.
  destruct (negb (k_open (kern st))); [left; now split|].
  destruct (fs_find fs (split_sep (ipath f))); [|left; now split].
  destruct (find_wd (k_watches (kern st)) (ipath f));
    cbv iota beta; destruct (fdmap_set _ _ _) as [m|]; right; repeat split.
Qed.

(** [Load] of either backend, as far as the index goes. *)
Lemma kqueue_load_tree fs Filter st p r :
  w_tree (wat (fst (Kqueue.load fs Filter st p r)))
  = w_tree (wat (fst (loadImpl fs Filter Kqueue.watchFilter (Kqueue.add fs) st p
                               (load_flags r) None Kqueue.allFlags Kqueue.allFlags)))
  \/ fst (Kqueue.load fs Filter st p r) = st.
Proof.
  unfold Kqueue.load. destruct (w_fd (wat st) =? -1); [now right|]. left.
  destruct (loadImpl _ _ _ _ _ _ _ _ _ _) as [st' err]. now destruct (is_SkipDir err).
Qed.

Lemma kqueue_load_open fs Filter st p r :
  w_fd (wat st) <> -1 ->
  w_tree (wat (fst (Kqueue.load fs Filter st p r)))
  = w_tree (wat (fst (loadImpl fs Filter Kqueue.watchFilter (Kqueue.add fs) st p
                               (load_flags r) None Kqueue.allFlags Kqueue.allFlags))).
Proof.
  intros H. unfold Kqueue.load. rewrite (proj2 (Z.eqb_neq _ _) H).
  destruct (loadImpl _ _ _ _ _ _ _ _ _ _) as [st' err]. now destruct (is_SkipDir err).
Qed.

Lemma inotify_load_open fs Filter st p r :
  w_fd (wat st) <> -1 -> Inotify.hasParentWatch (wat st) p <> None ->
  exists rf,
    w_tree (wat (fst (Inotify.load fs Filter st p r)))
    = w_tree (wat (fst (loadImpl fs Filter Inotify.watchFilter (Inotify.add fs) st p
                                 (load_flags r) None rf Inotify.allFlags))).
Proof.
  intros H Hp. unfold Inotify.load.
  destruct (Inotify.hasParentWatch (wat st) p) as [b|]; [|contradiction].
  rewrite (proj2 (Z.eqb_neq _ _) H).
  exists (if b then Inotify.allFlags else Z.lor Inotify.allFlags Inotify.IN_DELETE_SELF).
  destruct (loadImpl _ _ _ _ _ _ _ _ _ _) as [st' err].
  destruct (is_SkipDir err); reflexivity.
Qed.

Lemma inotify_load_tree fs Filter st p r :
  (exists rf,
     w_tree (wat (fst (Inotify.load fs Filter st p r)))
     = w_tree (wat (fst (loadImpl fs Filter Inotify.watchFilter (Inotify.add fs) st p
                                  (load_flags r) None rf Inotify.allFlags))))
  \/ fst (Inotify.load fs Filter st p r) = st.
Proof.
  unfold Inotify.load. destruct (Inotify.hasParentWatch (wat st) p) as [b|]; [|now right].
  destruct (w_fd (wat st) =? -1); [now right|]. left.
  exists (if b then Inotify.allFlags else Z.lor Inotify.allFlags Inotify.IN_DELETE_SELF).
  destruct (loadImpl _ _ _ _ _ _ _ _ _ _) as [st' err].
  destruct (is_SkipDir err); reflexivity.
Qed.

(** ** [Unload] *)

Section DeleteGeneric.
Context {S S' : Type}.

(** The tree that [deleteAll] leaves does not depend on the handler. *)
Lemma deleteAll_fst t root (f : info -> S -> S) (g : info -> S' -> S') s s' :
  fst (deleteAll t root f s) = fst (deleteAll t root g s').
Proof.
  destruct t as [r|]; [|reflexivity]. unfold deleteAll.
  destruct (member_loop r [] None false root) as [[wp d] i].
  destruct (negb (path_eqb root (ipath i))); [reflexivity|].
  destruct (unlink r wp d) as [r1|]; [|reflexivity].
  destruct wp as [w|]; [|reflexivity].
  destruct (negb (IsDir i)); [reflexivity|].
  destruct (subtree_loop _ _ _ _ _ _) as [[[pi top] wp2] d2].
  destruct (negb (has_prefix (ipath pi) (root ++ [PathSeparator]))); reflexivity.
Qed.

(** What every call of the handler keeps, [deleteAll] keeps. *)
Lemma deleteAll_state (Q : S -> Prop) t root (f : info -> S -> S) s :
  (forall i s, Q s -> Q (f i s)) -> Q s -> Q (snd (deleteAll t root f s)).
Proof.
  intros Hf Hs.
  assert (D : forall p s, Q s -> Q (deliter p f s)).
  { induction p as [i | c0 IH0 c1 IH1 off bit]; intros s0 H0; simpl; auto. }
  destruct t as [r|]; [|exact Hs]. unfold deleteAll.
  destruct (member_loop r [] None false root) as [[wp d] i].
  destruct (negb (path_eqb root (ipath i))); [exact Hs|].
  destruct (unlink r wp d) as [r1|]; [|simpl; auto].
  destruct wp as [w|]; [|simpl; auto].
  destruct (negb (IsDir i)); [simpl; auto|].
  destruct (subtree_loop _ _ _ _ _ _) as [[[pi top] wp2] d2].
  destruct (negb (has_prefix (ipath pi) (root ++ [PathSeparator]))); simpl; auto.
Qed.
End DeleteGeneric.

Lemma kqueue_rm_tree st nfo : w_tree (wat (fst (Kqueue.rm st nfo))) = w_tree (wat st).
Proof.
  unfold Kqueue.rm. destruct (watch nfo); [|reflexivity].
  destruct (Kqueue.sys_Close _ _) as [k [e|]]; reflexivity.
Qed.

Lemma inotify_rm_tree st nfo : w_tree (wat (fst (Inotify.rm st nfo))) = w_tree (wat st).
Proof.
  unfold Inotify.rm. destruct (watch nfo); [|reflexivity].
  destruct (Inotify.InotifyRmWatch _ _) as [k [e|]]; reflexivity.
Qed.

(** The index after a recursive [unload] of a watched entry [nfo]: the one
    that [deleteAll] leaves, the field [watch] of [nfo] cleared before. *)
Lemma kqueue_unload_tree st p nfo fd :
  w_fd (wat st) <> -1 -> get (w_tree (wat st)) p = Some nfo -> watch nfo = Some fd ->
  w_tree (wat (fst (Kqueue.unload st p true)))
  = fst (deleteAll (option_map (fun r => set_leaf r (with_watch nfo None))
                               (w_tree (wat st)))
                   p (fun _ (s : unit) => s) tt).
Proof.
  intros Hfd G Hw. unfold Kqueue.unload.
  rewrite (proj2 (Z.eqb_neq _ _) Hfd), G, Hw.
  pose proof (kqueue_rm_tree st nfo) as Et.
  destruct (Kqueue.rm st nfo) as [st1 err]. simpl in Et.
  set (st2 := write_info st1 nfo (with_watch nfo None)).
  assert (E2 : w_tree (wat st2)
               = option_map (fun r => set_leaf r (with_watch nfo None)) (w_tree (wat st)))
    by (unfold st2; now rewrite write_info_tree, Et).
  destruct (get_in _ _ _ G) as [_ Ep]. simpl ipath. rewrite Ep.
  pose proof (deleteAll_fst (w_tree (wat st2)) p (Kqueue.unload_handler p true)
                (fun _ (s : unit) => s) (st2, []) tt) as F.
  pose proof (deleteAll_state (fun s : sys * list info => snd s = [])
                (w_tree (wat st2)) p (Kqueue.unload_handler p true) (st2, [])) as Q.
  destruct (deleteAll (w_tree (wat st2)) p (Kqueue.unload_handler p true) (st2, []))
    as [t' [st3 reload]].
  cbn [fst snd] in F, Q.
  rewrite Q;
    [cbn [fold_left fst]; change (w_tree (wat (set_tree st3 t'))) with t';
     now rewrite F, E2| |reflexivity].
  intros i [s0 l0] H0. simpl in H0. subst l0. unfold Kqueue.unload_handler. simpl.
  destruct (watch i); [|reflexivity]. now destruct (Kqueue.rm s0 i).
Qed.

Lemma inotify_unload_tree fs Filter st p nfo fd :
  w_fd (wat st) <> -1 -> get (w_tree (wat st)) p = Some nfo -> watch nfo = Some fd ->
  w_tree (wat (fst (Inotify.unload fs Filter st p true)))
  = fst (deleteAll (option_map (fun r => set_leaf r (with_watch nfo None))
                               (w_tree (wat st)))
                   p (fun _ (s : unit) => s) tt).
Proof.
  intros Hfd G Hw. unfold Inotify.unload.
  rewrite (proj2 (Z.eqb_neq _ _) Hfd), G, Hw.
  pose proof (inotify_rm_tree st nfo) as Et.
  destruct (Inotify.rm st nfo) as [st1 err]. simpl in Et.
  set (st2 := write_info st1 nfo (with_watch nfo None)).
  assert (E2 : w_tree (wat st2)
               = option_map (fun r => set_leaf r (with_watch nfo None)) (w_tree (wat st)))
    by (unfold st2; now rewrite write_info_tree, Et).
  destruct (get_in _ _ _ G) as [_ Ep]. simpl ipath. rewrite Ep.
  pose proof (deleteAll_fst (w_tree (wat st2)) p (Inotify.unload_handler p true)
                (fun _ (s : unit) => s) (st2, []) tt) as F.
  pose proof (deleteAll_state (fun s : sys * list info => snd s = [])
                (w_tree (wat st2)) p (Inotify.unload_handler p true) (st2, [])) as Q.
  destruct (deleteAll (w_tree (wat st2)) p (Inotify.unload_handler p true) (st2, []))
    as [t' [st3 reload]].
  cbn [fst snd] in F, Q.
  rewrite Q;
    [cbn [fold_left fst]; change (w_tree (wat (set_tree st3 t'))) with t';
     now rewrite F, E2| |reflexivity].
  intros i [s0 l0] H0. simpl in H0. subst l0. unfold Inotify.unload_handler. simpl.
  destruct (watch i); [|reflexivity]. now destruct (Inotify.rm s0 i).
Qed.

(** The index after the field [watch] of the entry at [p] was cleared. *)
Lemma unwatched_index t p nfo :
  wf_tree t -> plain_tree t -> get t p = Some nfo ->
  let t1 := option_map (fun r => set_leaf r (with_watch nfo None)) t in
  wf_tree t1 /\ plain_tree t1
  /\ get t1 p = Some (with_watch nfo None)
  /\ (forall q, q <> p -> get t1 q = get t q)
  /\ (forall x, In x (entries t) -> exists x', In x' (entries t1) /\ ipath x' = ipath x)
  /\ (forall x', In x' (entries t1) -> exists x, In x (entries t) /\ ipath x = ipath x').
Proof.
  intros W P G. cbv zeta. destruct (get_in _ _ _ G) as [_ Ep].
  split; [now apply set_leaf_wf_tree|]. split; [now apply set_leaf_plain|].
  split; [|split; [|split]].
  - rewrite set_leaf_get, G. simpl. unfold rewrite_with. simpl.
    now rewrite Ep, path_eqb_refl.
  - intros q Hq. rewrite set_leaf_get. destruct (get t q) as [j|] eqn:Gq; [|reflexivity].
    simpl. unfold rewrite_with. simpl. destruct (get_in _ _ _ Gq) as [_ Ej].
    destruct (path_eqb (ipath j) (ipath nfo)) eqn:E; [|reflexivity].
    apply path_eqb_true in E. congruence.
  - intros x Hx. destruct t as [r|]; [|contradiction]. simpl.
    exists (rewrite_with (with_watch nfo None) x). rewrite set_leaf_leaves.
    split; [now apply in_map|apply rewrite_with_path].
  - intros x' Hx'. destruct t as [r|]; [|contradiction]. simpl in *.
    now apply set_leaf_in in Hx'.
Qed.

Lemma fs0_plain : fs_plain fs0.
Proof. simpl. repeat split; apply plainb_spec; reflexivity. Qed.

Lemma new_sys_ok : index_ok new_sys.
Proof. split; [exact I|intros i []]. Qed.

Lemma kqueue_Load_ok fs Filter st p r :
  fs_plain fs -> plain p -> index_ok st -> index_ok (fst (Kqueue.Load fs Filter st p r)).
Proof.
  intros Pf Pp Ok. apply Clean_plain in Pp. unfold Kqueue.Load.
  destruct (kqueue_load_tree fs Filter st (Clean p) r) as [E | E].
  - destruct (loadImpl_keeps fs Filter Kqueue.watchFilter (Kqueue.add fs)
                (kqueue_add_writes_watch fs) st (Clean p) (load_flags r) None
                Kqueue.allFlags Kqueue.allFlags Pf Pp Ok) as ([W P] & _).
    unfold index_ok. rewrite E. auto.
  - now rewrite E.
Qed.

Lemma inotify_Load_ok fs Filter st p r :
  fs_plain fs -> plain p -> index_ok st -> index_ok (fst (Inotify.Load fs Filter st p r)).
Proof.
  intros Pf Pp Ok. apply Clean_plain in Pp. unfold Inotify.Load.
  destruct (inotify_load_tree fs Filter st (Clean p) r) as [[rf E] | E].
  - destruct (loadImpl_keeps fs Filter Inotify.watchFilter (Inotify.add fs)
                (inotify_add_writes_watch fs) st (Clean p) (load_flags r) None
                rf Inotify.allFlags Pf Pp Ok) as ([W P] & _).
    unfold index_ok. rewrite E. auto.
  - now rewrite E.
Qed.

Lemma kq_loaded_ok : index_ok kq_loaded.
Proof.
  apply kqueue_Load_ok; [apply fs0_plain|apply plainb_spec; reflexivity|apply new_sys_ok].
Qed.

Lemma in_loaded_ok : index_ok in_loaded.
Proof.
  apply inotify_Load_ok; [apply fs0_plain|apply plainb_spec; reflexivity|apply new_sys_ok].
Qed.

(** The index that a recursive [Unload] leaves, for either backend. *)
Lemma unload_recursive_index t p nfo :
  wf_tree t -> plain_tree t -> get t p = Some nfo ->
  let t' := fst (deleteAll (option_map (fun r => set_leaf r (with_watch nfo None)) t)
                           p (fun _ (s : unit) => s) tt) in
  (IsDir nfo = true -> (exists x, In x (entries t) /\ below p x = true) -> t' = None)
  /\ (IsDir nfo = false \/ (forall x, In x (entries t) -> below p x = false) ->
      forall q, get t' q = if path_eqb q p then None else get t q).
Proof.
  intros W P G. cbv zeta.
  destruct (unwatched_index t p nfo W P G) as (W1 & P1 & G1 & O1 & I1 & I2).
  split.
  - intros D (x & Hx & Bx). destruct (I1 x Hx) as (x' & Hx' & Ex').
    rewrite (deleteAll_dir _ p _ tt (with_watch nfo None) W1 P1 G1 D); [reflexivity|].
    exists x'. split; [assumption|]. unfold below in *. now rewrite Ex'.
  - intros H q. rewrite (deleteAll_single _ p _ tt (with_watch nfo None) G1).
    + simpl. rewrite (remove_entry_get _ p _ q W1 G1).
      destruct (path_eqb q p) eqn:E; [reflexivity|]. apply O1.
      intros ->. now rewrite path_eqb_refl in E.
    + destruct H as [H | H]; [now left|right].
      intros x' Hx'. destruct (I2 x' Hx') as (x & Hx & Ex).
      specialize (H x Hx). unfold below in *. now rewrite <- Ex.
Qed.

(** ** The event handlers *)

Section RemovedFacts.
Context {S : Type}.
Implicit Types (f : info -> S -> S) (s : S).

(** [deleteAll] calls its handler on the entries of [removed_by]. *)
Lemma deleteAll_removed t root f s :
  wf_tree t -> plain_tree t ->
  snd (deleteAll t root f s) = handle_all f (removed_by t root) s.
Proof.
  intros W P. unfold removed_by. destruct (get t root) as [i|] eqn:G.
  - destruct (IsDir i) eqn:D.
    + destruct (List.filter (below root) (entries t)) as [|x l] eqn:F.
      * rewrite (deleteAll_single t root f s i G); [reflexivity|]. right.
        intros y Hy. destruct (below root y) eqn:B; [|reflexivity].
        assert (Hin : In y (List.filter (below root) (entries t)))
          by (apply filter_In; auto).
        rewrite F in Hin. contradiction.
      * rewrite (deleteAll_dir t root f s i W P G D); [now rewrite F|].
        exists x. apply filter_In. rewrite F. now left.
    + rewrite (deleteAll_single t root f s i G); [reflexivity|now left].
  - now rewrite deleteAll_absent.
Qed.
End RemovedFacts.

(** The entries of [removed_by] are gone after [deleteAll]. *)
Lemma deleteAll_gone t root x :
  wf_tree t -> plain_tree t -> In x (removed_by t root) ->
  get (fst (deleteAll t root (fun _ (s : unit) => s) tt)) (ipath x) = None.
Proof.
  intros W P. unfold removed_by. destruct (get t root) as [i|] eqn:G; [|intros []].
  destruct (IsDir i) eqn:D.
  - destruct (List.filter (below root) (entries t)) as [|y l] eqn:F.
    + intros [<- | []]. rewrite (deleteAll_single t root _ tt i G).
      * simpl. rewrite (remove_entry_get t root i _ W G).
        destruct (get_in _ _ _ G) as [_ ->]. now rewrite path_eqb_refl.
      * right. intros z Hz. destruct (below root z) eqn:B; [|reflexivity].
        assert (Hin : In z (List.filter (below root) (entries t)))
          by (apply filter_In; auto).
        rewrite F in Hin. contradiction.
    + intros _. rewrite (deleteAll_dir t root _ tt i W P G D); [reflexivity|].
      exists y. apply filter_In. rewrite F. now left.
  - intros [<- | []]. rewrite (deleteAll_single t root _ tt i G); [|now left].
    simpl. rewrite (remove_entry_get t root i _ W G).
    destruct (get_in _ _ _ G) as [_ ->]. now rewrite path_eqb_refl.
Qed.

Lemma delete_handler_fold l : forall st acc,
  exists st',
    handle_all delete_handler l (st, acc) = (st', acc ++ l)
    /\ kern st' = kern st /\ w_tree (wat st') = w_tree (wat st)
    /\ w_events (wat st') = w_events (wat st)
    /\ w_errors (wat st') = w_errors (wat st)
    /\ w_fdmap (wat st') = unfiled l (w_fdmap (wat st)).
Proof.
  unfold handle_all, unfiled.
  induction l as [|x l IH]; intros st acc; simpl.
  - exists st. rewrite app_nil_r. repeat split.
  - destruct (watch x) as [fd|].
    + destruct (IH (set_fdmap st (fdmap_delete (w_fdmap (wat st)) fd)) (acc ++ [x]))
        as (st' & E & A & B & C & D & F).
      exists st'. rewrite E, <- app_assoc. simpl. repeat split; assumption.
    + destruct (IH st (acc ++ [x])) as (st' & E & A & B & C & D & F).
      exists st'. rewrite E, <- app_assoc. simpl. repeat split; assumption.
Qed.

Lemma unfiled_none l : unfiled l None = None.
Proof.
  unfold unfiled. induction l as [|x l IH]; simpl; [reflexivity|].
  now destruct (watch x).
Qed.

Lemma unfiled_lookup l : forall m m' x fd,
  unfiled l (Some m) = Some m' -> In x l -> watch x = Some fd -> m' !! fd = None.
Proof.
  assert (K : forall l m m' fd, unfiled l (Some m) = Some m' -> m !! fd = None ->
                                m' !! fd = None).
  { intros l0. unfold unfiled. induction l0 as [|y l0 IH]; intros m m' fd E H; simpl in E.
    - now injection E as <-.
    - destruct (watch y) as [fd'|]; [|eauto]. simpl in E. eapply IH; [exact E|].
      destruct (decide (fd = fd')) as [-> | Hne].
      + apply lookup_delete_eq.
      + now rewrite lookup_delete_ne by congruence. }
  induction l as [|y l IH]; intros m m' x fd E Hin Hw; [contradiction|].
  unfold unfiled in E. simpl in E. destruct Hin as [-> | Hin].
  - rewrite Hw in E. simpl in E. eapply K; [exact E|]. apply lookup_delete_eq.
  - destruct (watch y) as [fd'|]; [simpl in E|]; eapply IH; eauto.
Qed.

Lemma fold_Handle_fields ev l : forall st,
  let st' := fold_left (fun st f => ctx_Handle st ev f) l st in
  w_events (wat st') = w_events (wat st) ++ map (pair ev) l
  /\ kern st' = kern st /\ w_errors (wat st') = w_errors (wat st)
  /\ w_fdmap (wat st') = w_fdmap (wat st) /\ w_tree (wat st') = w_tree (wat st).
Proof.
  induction l as [|x l IH]; intros st; simpl.
  - rewrite app_nil_r. repeat split.
  - destruct (IH (ctx_Handle st ev x)) as (A & B & C & D & E).
    rewrite A, B, C, D, E. simpl. rewrite <- app_assoc. repeat split.
Qed.

Lemma handle_delete_reports st p :
  index_ok st -> reports_delete st (handle_delete st p) p.
Proof.
  intros [W P]. unfold reports_delete, handle_delete. cbv zeta.
  pose proof (deleteAll_removed (w_tree (wat st)) p delete_handler (st, []) W P) as Hs.
  pose proof (deleteAll_fst (w_tree (wat st)) p delete_handler (fun _ (s : unit) => s)
                (st, []) tt) as Ht.
  destruct (deleteAll (w_tree (wat st)) p delete_handler (st, [])) as [t' [st1 list]].
  cbn [fst snd] in Hs, Ht.
  destruct (delete_handler_fold (removed_by (w_tree (wat st)) p) st [])
    as (st2 & E & A & B & C & D & F).
  rewrite E in Hs. injection Hs as -> ->. simpl app.
  destruct (fold_Handle_fields Delete (removed_by (w_tree (wat st)) p) (set_tree st2 t'))
    as (A' & B' & C' & D' & E').
  rewrite A', B', C', D', E'. simpl. rewrite C, A, D.
  split; [reflexivity|]. split; [|split; [|split; reflexivity]].
  - intros x Hx. rewrite Ht. now apply deleteAll_gone.
  - intros x fd m' Hx Hw Em. rewrite F in Em.
    destruct (w_fdmap (wat st)) as [m|]; [|now rewrite unfiled_none in Em].
    eapply unfiled_lookup; eassumption.
Qed.

Lemma handle_modify_reports fs st p fi :
  get (w_tree (wat st)) p = Some fi -> reports_modify fs st (handle_modify fs st p fi) p fi.
Proof.
  intros G. unfold reports_modify, handle_modify, os_Lstat.
  destruct (fs_find fs (split_sep p)) as [n|]; [|reflexivity].
  destruct (get_in _ _ _ G) as [_ Ep].
  split; [reflexivity|]. split; [|split; [|split; reflexivity]].
  - simpl. rewrite set_leaf_get, G. simpl. unfold rewrite_with. simpl.
    now rewrite Ep, path_eqb_refl.
  - intros q Hq. simpl. rewrite set_leaf_get.
    destruct (get (w_tree (wat st)) q) as [j|] eqn:Gq; [|reflexivity].
    simpl. unfold rewrite_with. simpl. destruct (get_in _ _ _ Gq) as [_ Ej].
    destruct (path_eqb (ipath j) (ipath fi)) eqn:E; [|reflexivity].
    apply path_eqb_true in E. congruence.
Qed.

(** ** What a load makes of the file system *)

Lemma set_leaf_get_other t i x :
  ipath i <> x -> get (option_map (fun r => set_leaf r i) t) x = get t x.
Proof.
  intros H. rewrite set_leaf_get. destruct (get t x) as [j|] eqn:G; [|reflexivity].
  simpl. unfold rewrite_with. destruct (get_in _ _ _ G) as [_ Ej].
  destruct (path_eqb (ipath j) (ipath i)) eqn:E; [|reflexivity].
  apply path_eqb_true in E. congruence.
Qed.

Lemma set_leaf_get_same t i j :
  get t (ipath i) = Some j -> get (option_map (fun r => set_leaf r i) t) (ipath i) = Some i.
Proof.
  intros G. rewrite set_leaf_get, G. simpl. unfold rewrite_with.
  destruct (get_in _ _ _ G) as [_ ->]. now rewrite path_eqb_refl.
Qed.

Lemma adds_files_nil Filter st : index_ok st -> adds_files Filter st st [].
Proof. intros Ok. split; [assumption|]. split; [reflexivity|intros x fi []]. Qed.

Lemma adds_files_app Filter st st1 st2 A B :
  adds_files Filter st st1 A -> adds_files Filter st1 st2 B ->
  (forall x, In x (map fst A) -> ~ In x (map fst B)) ->
  adds_files Filter st st2 (A ++ B).
Proof.
  intros (Ok1 & O1 & N1) (Ok2 & O2 & N2) D. split; [assumption|]. split.
  - intros x Hx. rewrite map_app in Hx.
    rewrite O2, O1; [reflexivity| |]; intros H; apply Hx, in_or_app; auto.
  - intros x fi Hin. apply in_app_or in Hin. destruct Hin as [Hin | Hin].
    + destruct (N1 x fi Hin) as (i & G & E). exists i. split; [|exact E].
      rewrite O2; [exact G|]. apply D. apply in_map_iff. now exists (x, fi).
    + now apply N2.
Qed.

Lemma fresh_for_step Filter st st1 root A B :
  adds_files Filter st st1 A -> fresh_for st root B ->
  (forall x, In x (map fst A) -> ~ In x B) -> fresh_for st1 root B.
Proof.
  intros (_ & O1 & _) F D q Hq. destruct (F q Hq) as [Hr G]. split; [assumption|].
  rewrite O1; [exact G|]. intros H. exact (D q H Hq).
Qed.

Section LoadMirror.
Variable fs : fnode.
Variable Filter : info -> bool.
Variable watchFilter : info -> bool.
Variable add : sys -> info -> Z -> sys * info * option error.
Hypothesis add_ok : add_writes_watch add.
Hypothesis add_w : add_only_watch add.
Variable root : path.
Variable lflags : Z.
Variable event : option Event.
Variable oflags : Z.

Let rec : bool := negb (Z.land lflags recurse =? 0).
Let W := walker Filter watchFilter add root lflags event oflags.

(** [add] on an entry that is in the index, path by path. *)
Lemma add_gets st f fl :
  index_ok st -> get (w_tree (wat st)) (ipath f) = Some f ->
  index_ok (fst (fst (add st f fl)))
  /\ (forall x, x <> ipath f ->
        get (w_tree (wat (fst (fst (add st f fl))))) x = get (w_tree (wat st)) x)
  /\ exists i, get (w_tree (wat (fst (fst (add st f fl))))) (ipath f) = Some i
               /\ with_watch i None = with_watch f None.
Proof.
  intros [Wf P] G. pose proof (add_ok st f fl) as H. pose proof (add_w st f fl) as Hw.
  destruct (add st f fl) as [[st' f'] err]. simpl in *. unfold index_ok.
  destruct H as [[Ht ->] | (Ht & Ep & _)]; rewrite Ht.
  - split; [now split|]. split; [reflexivity|]. now exists f.
  - split; [split; [now apply set_leaf_wf_tree|now apply set_leaf_plain]|].
    split.
    + intros x Hx. apply set_leaf_get_other. congruence.
    + exists f'. split; [|exact Hw]. rewrite <- Ep. apply (set_leaf_get_same _ f' f).
      now rewrite Ep.
Qed.

(** The function handed to [filepath.Walk], on a path new to the index. *)
Lemma walker_fresh q fi st list :
  index_ok st -> plain q -> q <> root -> get (w_tree (wat st)) q = None ->
  exists st' list',
    W q (Some fi) None (st, list)
    = ((st', list'),
       if fi_IsDir fi && negb (Filter (newInfo q fi) && rec) then Some SkipDir else None)
    /\ adds_files Filter st st' [(q, fi)].
Proof.
  intros [Wf P] Pq Hr G. unfold W, walker.
  rewrite (proj2 (bool_decide_eq_false _) Hr : path_eqb q root = false).
  set (f := newInfo q fi).
  destruct (insert_fresh _ f Wf P Pq G) as (t' & Ei & W' & Pe).
  pose proof (insert_wf _ f Wf P Pq) as [_ P']. rewrite Ei in P'. simpl in P'.
  pose proof (insert_get _ f Wf P Pq G) as G'. rewrite Ei in G'. simpl in G'.
  assert (O : forall x, x <> q -> get t' x = get (w_tree (wat st)) x).
  { intros x Hx. pose proof (insert_other _ f x Wf P Pq Hx) as H.
    now rewrite Ei in H. }
  rewrite Ei. unfold expected. fold f.
  assert (Nin : forall x, ~ In x (map fst [(q, fi)]) -> x <> q).
  { intros x Hx ->. apply Hx. now left. }
  destruct (Filter f) eqn:Ef; simpl negb; cbv iota.
  - assert (A : exists st' f',
               (if watchFilter f
                then let '(st, f', err) := add (set_tree st t') f oflags in
                     (log_unless_not_exist st err, f')
                else (set_tree st t', f)) = (st', f')
               /\ adds_files Filter st st' [(q, fi)]).
    { destruct (watchFilter f).
      - destruct (add_gets (set_tree st t') f oflags (conj W' P') G') as (Ok & O2 & i & Gi & Ei').
        destruct (add (set_tree st t') f oflags) as [[st2 f2] err2]. simpl in *.
        eexists _, _. split; [reflexivity|]. split; [|split].
        + eapply index_ok_tree; [|exact Ok]. apply log_tree.
        + intros x Hx. rewrite log_tree, O2, O; auto.
        + intros x fi' [[= <- <-] | []]. exists i. rewrite log_tree.
          split; [exact Gi|]. unfold expected. fold f. now rewrite Ef.
      - eexists _, _. split; [reflexivity|]. split; [now split|]. split.
        + intros x Hx. simpl. auto.
        + intros x fi' [[= <- <-] | []]. exists f. split; [exact G'|].
          unfold expected. fold f. now rewrite Ef. }
    destruct A as (st' & f' & -> & A).
    eexists _, _. split; [|exact A]. f_equal. unfold rec. simpl.
    now destruct (fi_IsDir fi), (Z.land lflags recurse =? 0).
  - eexists _, _. split.
    + f_equal. now destruct (fi_IsDir fi).
    + split; [split; [now apply set_leaf_wf_tree|now apply set_leaf_plain]|]. split.
      * intros x Hx. simpl. rewrite set_leaf_get_other; [auto|]. simpl.
        intros E. apply (Nin x Hx). now symmetry.
      * intros x fi' [[= <- <-] | []]. eexists. split.
        -- apply (set_leaf_get_same t' (with_flags f (Z.lor (flags f) ignored)) f).
           exact G'.
        -- unfold expected. fold f. now rewrite Ef.
Qed.

Lemma NoDup_app_In {A} (l1 l2 : list A) :
  NoDup (l1 ++ l2) -> NoDup l1 /\ NoDup l2 /\ forall x, In x l1 -> ~ In x l2.
Proof.
  intros N. apply NoDup_app in N. destruct N as (N1 & D & N2).
  split; [assumption|]. split; [assumption|].
  intros x H1 H2. apply (D x); now apply list_elem_of_In.
Qed.

(** The walk of a load below a node whose files are new to the index adds
    them all. *)
Lemma fwalk_lists n :
  forall q st list,
    fs_plain n -> plain q -> index_ok st ->
    NoDup (map fst (listed Filter rec n q)) ->
    fresh_for st root (map fst (listed Filter rec n q)) ->
    exists st' list' err,
      fwalk n q W (st, list) = ((st', list'), err)
      /\ adds_files Filter st st' (listed Filter rec n q)
      /\ (err = None \/ (err = Some SkipDir /\ node_isdir n = true)).
Proof.
  induction n as [fi | fi es IHes | | name c IHc rest IHrest]
    using fnode_fents_ind
    with (P0 := fun es => forall q st list,
                  fents_plain es -> plain q -> index_ok st ->
                  NoDup (map fst (listed_ents Filter rec es q)) ->
                  fresh_for st root (map fst (listed_ents Filter rec es q)) ->
                  exists st' list',
                    fwalk_ents es q W (st, list) = ((st', list'), None)
                    /\ adds_files Filter st st' (listed_ents Filter rec es q)).
  - intros q st list _ Pq Ok N F.
    destruct (F q (or_introl eq_refl)) as [Hr G].
    destruct (walker_fresh q (node_info (FFile fi)) st list Ok Pq Hr G)
      as (st' & list' & E & A).
    rewrite fi_IsDir_node_info in E. simpl node_isdir in E. simpl andb in E.
    exists st', list', None. cbn [fwalk]. rewrite E. auto.
  - intros q st list Pn Pq Ok N F.
    destruct (F q (or_introl eq_refl)) as [Hr G].
    destruct (walker_fresh q (node_info (FDir fi es)) st list Ok Pq Hr G)
      as (st1 & list1 & E & A).
    rewrite fi_IsDir_node_info in E. simpl node_isdir in E. rewrite andb_true_l in E.
    cbn [fwalk listed]. rewrite E.
    destruct (Filter (newInfo q (node_info (FDir fi es))) && rec) eqn:D; simpl negb; cbv iota.
    + cbn [listed] in N, F. rewrite D in N, F. simpl map in N, F.
      apply NoDup_cons in N. destruct N as [Nq N].
      destruct (IHes q st1 list1 Pn Pq (proj1 A) N) as (st2 & list2 & E2 & A2).
      { apply (fresh_for_step Filter st st1 root [(q, node_info (FDir fi es))]);
          [exact A| |].
        - intros x Hx. apply F. now right.
        - intros x [<- | []] Hin. apply Nq. now apply list_elem_of_In. }
      exists st2, list2, None. rewrite E2. split; [reflexivity|]. split; [|now left].
      apply (adds_files_app Filter st st1 st2 [(q, node_info (FDir fi es))]); auto.
      intros x [<- | []] Hin. apply Nq. now apply list_elem_of_In.
    + exists st1, list1, (Some SkipDir). split; [reflexivity|]. split; [exact A|].
      right. now split.
  - intros q st list _ _ Ok _ _. exists st, list. split; [reflexivity|].
    now apply adds_files_nil.
  - intros q st list (Pn & Pc & Pr) Pq Ok N F. cbn [listed_ents] in N, F |- *.
    rewrite map_app in N, F. apply NoDup_app_In in N. destruct N as (N1 & N2 & D).
    destruct (IHc (Join q name) st list Pc (Join_plain _ _ Pq Pn) Ok N1)
      as (st1 & list1 & err & E1 & A1 & He).
    { intros x Hx. apply F, in_or_app. now left. }
    destruct (IHrest q st1 list1 Pr Pq (proj1 A1) N2) as (st2 & list2 & E2 & A2).
    { apply (fresh_for_step Filter st st1 root (listed Filter rec c (Join q name)));
        [exact A1| |exact D].
      intros x Hx. apply F, in_or_app. now right. }
    exists st2, list2. cbn [fwalk_ents]. rewrite E1. split.
    + destruct He as [-> | [-> Hd]]; [exact E2|]. rewrite Hd. simpl. exact E2.
    + now apply (adds_files_app Filter st st1 st2).
Qed.
End LoadMirror.

Section LoadMirrorRoot.
Variable fs : fnode.
Variable Filter : info -> bool.
Variable watchFilter : info -> bool.
Variable add : sys -> info -> Z -> sys * info * option error.
Hypothesis add_ok : add_writes_watch add.
Hypothesis add_w : add_only_watch add.

Lemma fwalk_ents_lists root lflags event oflags es :
  forall q st list,
    fents_plain es -> plain q -> index_ok st ->
    NoDup (map fst (listed_ents Filter (negb (Z.land lflags recurse =? 0)) es q)) ->
    fresh_for st root
      (map fst (listed_ents Filter (negb (Z.land lflags recurse =? 0)) es q)) ->
    exists st' list',
      fwalk_ents es q (walker Filter watchFilter add root lflags event oflags) (st, list)
      = ((st', list'), None)
      /\ adds_files Filter st st'
           (listed_ents Filter (negb (Z.land lflags recurse =? 0)) es q).
Proof.
  induction es as [|name c rest IH]; intros q st list Pe Pq Ok N F.
  - exists st, list. split; [reflexivity|]. now apply adds_files_nil.
  - destruct Pe as (Pn & Pc & Pr). cbn [listed_ents] in N, F |- *.
    rewrite map_app in N, F. apply NoDup_app_In in N. destruct N as (N1 & N2 & D).
    destruct (fwalk_lists Filter watchFilter add add_ok add_w root lflags event oflags c
                (Join q name) st list Pc (Join_plain _ _ Pq Pn) Ok N1)
      as (st1 & list1 & err & E1 & A1 & He).
    { intros x Hx. apply F, in_or_app. now left. }
    destruct (IH q st1 list1 Pr Pq (proj1 A1) N2) as (st2 & list2 & E2 & A2).
    { eapply fresh_for_step; [exact A1| |exact D].
      intros x Hx. apply F, in_or_app. now right. }
    exists st2, list2. cbn [fwalk_ents]. rewrite E1. split.
    + destruct He as [-> | [-> Hd]]; [exact E2|]. rewrite Hd. simpl. exact E2.
    + now apply (adds_files_app Filter st st1 st2).
Qed.

(** [loadImpl] of a directory that, like the files its walk reaches, is
    new to the index: the index holds them all afterwards, and nothing
    else has changed. *)
Lemma loadImpl_mirrors st root lflags event rflags oflags fi es :
  fs_plain fs -> plain root -> index_ok st ->
  fs_find fs (split_sep root) = Some (FDir fi es) ->
  Filter (newInfo root (node_info (FDir fi es))) = true ->
  NoDup (root :: map fst (listed_ents Filter (negb (Z.land lflags recurse =? 0)) es root)) ->
  (forall q, In q (root :: map fst (listed_ents Filter (negb (Z.land lflags recurse =? 0))
                                                es root)) ->
             get (w_tree (wat st)) q = None) ->
  exists st',
    loadImpl fs Filter watchFilter add st root lflags event rflags oflags = (st', None)
    /\ index_ok st'
    /\ (forall x, ~ In x (root :: map fst (listed_ents Filter
                                             (negb (Z.land lflags recurse =? 0)) es root)) ->
                  get (w_tree (wat st')) x = get (w_tree (wat st)) x)
    /\ (exists i, get (w_tree (wat st')) root = Some i
                  /\ with_watch i None
                     = with_flags (newInfo root (node_info (FDir fi es))) lflags)
    /\ (forall x fi', In (x, fi') (listed_ents Filter (negb (Z.land lflags recurse =? 0))
                                               es root) ->
          exists i, get (w_tree (wat st')) x = Some i
                    /\ with_watch i None = expected Filter x fi').
Proof.
  intros Pf Pr [Wf P] Ef HF N Fr.
  set (L := listed_ents Filter (negb (Z.land lflags recurse =? 0)) es root) in *.
  apply NoDup_cons in N. destruct N as [Nr N].
  assert (Nr' : ~ In root (map fst L)) by (intros H; apply Nr; now apply list_elem_of_In).
  unfold loadImpl, os_Lstat. rewrite Ef. cbv iota beta.
  rewrite fi_IsDir_node_info, HF. cbn [node_isdir negb andb]. cbv iota.
  set (f := with_flags (newInfo root (node_info (FDir fi es)))
                       (Z.lor (flags (newInfo root (node_info (FDir fi es)))) lflags)).
  assert (Pfp : plain (ipath f)) by exact Pr.
  pose proof (Fr root (or_introl eq_refl)) as G0.
  destruct (insert_fresh _ f Wf P Pfp G0) as (t' & Ei & W' & _).
  pose proof (insert_wf _ f Wf P Pfp) as [_ P']. rewrite Ei in P'. simpl in P'.
  pose proof (insert_get _ f Wf P Pfp G0) as G'. rewrite Ei in G'. simpl in G'.
  assert (O : forall x, x <> root -> get t' x = get (w_tree (wat st)) x).
  { intros x Hx. pose proof (insert_other _ f x Wf P Pfp Hx) as H. now rewrite Ei in H. }
  rewrite Ei.
  assert (A : exists st1 f1,
             (if watchFilter f
              then let '(st, f', err) := add (set_tree st t') f rflags in
                   (log_unless_not_exist st err, f')
              else (set_tree st t', f)) = (st1, f1)
             /\ index_ok st1
             /\ (forall x, x <> root -> get (w_tree (wat st1)) x = get (w_tree (wat st)) x)
             /\ exists i, get (w_tree (wat st1)) root = Some i
                          /\ with_watch i None = f).
  { destruct (watchFilter f).
    - destruct (add_gets add add_ok add_w (set_tree st t') f rflags (conj W' P') G')
        as (Ok & O2 & i & Gi & Ei').
      destruct (add (set_tree st t') f rflags) as [[st2 f2] err2]. simpl in *.
      eexists _, _. split; [reflexivity|]. split; [|split].
      + eapply index_ok_tree; [|exact Ok]. apply log_tree.
      + intros x Hx. rewrite log_tree, O2, O; auto.
      + exists i. rewrite log_tree. split; [exact Gi|exact Ei'].
    - eexists _, _. split; [reflexivity|]. split; [now split|]. split; [exact O|].
      exists f. split; [exact G'|reflexivity]. }
  destruct A as (st1 & f1 & -> & Ok1 & O1 & i0 & Gi0 & Ei0).
  unfold filepath_Walk. rewrite Ef. cbn [fwalk].
  unfold walker at 1. rewrite path_eqb_refl.
  pose proof (fs_find_plain _ _ _ Pf Ef : fents_plain es) as Pes.
  destruct (fwalk_ents_lists root lflags event oflags es root st1 [] Pes Pr Ok1 N)
    as (st2 & list2 & E2 & A2).
  { intros q Hq. split; [intros ->; contradiction|].
    rewrite O1; [apply Fr; now right|]. intros ->. contradiction. }
  fold L in A2. rewrite E2. simpl is_SkipDir. cbv iota.
  destruct A2 as (Ok2 & O2 & N2).
  set (st3 := match event with
              | Some ev => fold_left (fun st f => ctx_Handle st ev f) list2
                                     (ctx_Handle st2 ev f1)
              | None => st2
              end).
  assert (Et : w_tree (wat st3) = w_tree (wat st2)).
  { unfold st3. destruct event as [ev|]; [|reflexivity]. now rewrite fold_Handle_tree. }
  exists st3. split; [reflexivity|]. unfold index_ok. rewrite Et.
  split; [exact Ok2|]. split; [|split].
  - intros x Hx. rewrite O2, O1; [reflexivity| |]; intros H; apply Hx; [now left|now right].
  - exists i0. rewrite O2 by exact Nr'. split; [exact Gi0|]. exact Ei0.
  - exact N2.
Qed.
End LoadMirrorRoot.

Lemma kqueue_add_only_watch fs : add_only_watch (Kqueue.add fs).
Proof.
  intros st f fl. unfold Kqueue.add, Kqueue.sys_Open.
  destruct (fs_find fs (split_sep (ipath f))); [|reflexivity].
  cbv iota beta. cbn [k_open].
  destruct (negb (k_open (kern st))); [reflexivity|].
  destruct (fdmap_set _ _ _) as [m|]; reflexivity.
Qed.

Lemma inotify_add_only_watch fs : add_only_watch (Inotify.add fs).
Proof.
  intros st f fl. unfold Inotify.add, Inotify.InotifyAddWatch.
  destruct (negb (k_open (kern st))); [reflexivity|].
  destruct (fs_find fs (split_sep (ipath f))); [|reflexivity].
  destruct (find_wd (k_watches (kern st)) (ipath f));
    cbv iota beta; destruct (fdmap_set _ _ _) as [m|]; reflexivity.
Qed.

Lemma load_flags_rec r : negb (Z.land (load_flags r) recurse =? 0) = r.
Proof. now destruct r. Qed.

Lemma loadImpl_load_mirrors fs Filter watchFilter add st p r rflags oflags fi es :
  add_writes_watch add -> add_only_watch add ->
  fs_plain fs -> plain p -> index_ok st ->
  fs_find fs (split_sep p) = Some (FDir fi es) ->
  Filter (newInfo p (node_info (FDir fi es))) = true ->
  NoDup (p :: map fst (listed_ents Filter r es p)) ->
  (forall q, In q (p :: map fst (listed_ents Filter r es p)) ->
             get (w_tree (wat st)) q = None) ->
  exists st',
    loadImpl fs Filter watchFilter add st p (load_flags r) None rflags oflags = (st', None)
    /\ mirrors Filter st st' p r (node_info (FDir fi es)) (listed_ents Filter r es p).
Proof.
  intros Ha Hw Pf Pp Ok Ef HF N Fr.
  destruct (loadImpl_mirrors fs Filter watchFilter add Ha Hw st p (load_flags r) None
              rflags oflags fi es Pf Pp Ok Ef HF) as (st' & E & M).
  - now rewrite load_flags_rec.
  - now rewrite load_flags_rec.
  - exists st'. split; [exact E|]. rewrite load_flags_rec in M. exact M.
Qed.

(** ** [insert], for every path *)

Lemma insert_at_splits r i off bit ndir :
  exists l1 l2, leaves r = l1 ++ l2
                /\ leaves (insert_at r i off bit ndir) = l1 ++ i :: l2.
Proof.
  assert (N : forall wp, exists l1 l2,
               leaves wp = l1 ++ l2
               /\ leaves (new_node wp i off bit ndir) = l1 ++ i :: l2).
  { intros wp. unfold new_node. destruct ndir; simpl.
    - now exists [], (leaves wp).
    - exists (leaves wp), []. now rewrite app_nil_r. }
  induction r as [j | c0 IH0 c1 IH1 noff nbit]; [apply N|].
  simpl. destruct ((off <? noff)%nat || ((noff =? off)%nat && (nbit <? bit)));
    [apply (N (Node c0 c1 noff nbit))|].
  destruct (dir noff nbit (ipath i)); simpl.
  - destruct IH1 as (l1 & l2 & E & E'). exists (leaves c0 ++ l1), l2.
    now rewrite E, E', !app_assoc.
  - destruct IH0 as (l1 & l2 & E & E'). exists l1, (l2 ++ leaves c1).
    rewrite E, E', <- !app_assoc. now split.
Qed.

(** ** Loading what is loaded *)

Lemma set_tree_id st : set_tree st (w_tree (wat st)) = st.
Proof. now destruct st as [k [fd t m sg ev er]]. Qed.

Lemma set_fdmap_id st : set_fdmap st (w_fdmap (wat st)) = st.
Proof. now destruct st as [k [fd t m sg ev er]]. Qed.

Lemma with_flags_id d : with_flags d (flags d) = d.
Proof. now destruct d. Qed.

Lemma has_flags_lor a b : has_flags a b -> Z.lor a b = a.
Proof.
  unfold has_flags. intros H. apply Z.bits_inj'. intros n Hn.
  apply (f_equal (fun z => Z.testbit z n)) in H. rewrite Z.land_spec in H.
  rewrite Z.lor_spec. destruct (Z.testbit a n), (Z.testbit b n); simpl in *; congruence.
Qed.

Lemma set_leaf_id r d :
  (forall j, In j (leaves r) -> ipath j = ipath d -> j = d) -> set_leaf r d = r.
Proof.
  induction r as [j | c0 IH0 c1 IH1 off bit]; intros H; simpl.
  - destruct (path_eqb (ipath j) (ipath d)) eqn:E; [|reflexivity].
    apply path_eqb_true in E. now rewrite (H j (or_introl eq_refl) E).
  - rewrite IH0, IH1; [reflexivity| |]; intros j Hj; apply H; simpl; apply in_or_app; auto.
Qed.

Lemma write_info_id st d :
  wf_tree (w_tree (wat st)) -> shared st -> get (w_tree (wat st)) (ipath d) = Some d ->
  write_info st d d = st.
Proof.
  intros Wf Sh G. unfold write_info.
  assert (Et : option_map (fun r => set_leaf r d) (w_tree (wat st)) = w_tree (wat st)).
  { destruct (w_tree (wat st)) as [r|] eqn:T; [|reflexivity]. simpl. f_equal.
    apply set_leaf_id. intros j Hj Ej. destruct (get_in _ _ _ G) as [Hd _].
    now apply (leaves_unique r). }
  rewrite Et, set_tree_id.
  assert (Em : sync_fdmap (w_fdmap (wat st)) d d = w_fdmap (wat st)).
  { unfold sync_fdmap. destruct (w_fdmap (wat st)) as [m|] eqn:M; [|reflexivity].
    destruct (watch d) as [fd|]; [|reflexivity].
    destruct (m !! fd) as [x|] eqn:L; [|reflexivity].
    destruct (path_eqb (ipath x) (ipath d)) eqn:E; [|reflexivity].
    apply path_eqb_true in E.
    assert (Gx : get (w_tree (wat st)) (ipath x) = Some x).
    { unfold shared in Sh. rewrite M in Sh. exact (Sh fd x L). }
    rewrite E, G in Gx. injection Gx as ->. f_equal. now apply insert_id. }
  rewrite Em. apply set_fdmap_id.
Qed.

Section LoadAgain.
Variable fs : fnode.
Variable Filter : info -> bool.
Variable watchFilter : info -> bool.
Variable add : sys -> info -> Z -> sys * info * option error.

Lemma walker_known root lflags event oflags q fi st list :
  wf_tree (w_tree (wat st)) -> q <> root -> is_Some (get (w_tree (wat st)) q) ->
  walker Filter watchFilter add root lflags event oflags q (Some fi) None (st, list)
  = ((st, list), Some SkipDir).
Proof.
  intros Wf Hr [d G]. unfold walker.
  rewrite (proj2 (bool_decide_eq_false _) Hr : path_eqb q root = false).
  now rewrite (insert_found _ (newInfo q fi) d Wf G).
Qed.

Lemma fents_known_all t P es : fents_known t P es -> fents_known_until t P es.
Proof.
  induction es as [|name c rest IH]; simpl; [auto|].
  intros (H1 & H2 & H3). repeat split; auto. destruct (node_isdir c); auto.
Qed.

Lemma fwalk_ents_known root lflags event oflags es : forall st list,
  wf_tree (w_tree (wat st)) -> fents_known_until (w_tree (wat st)) root es ->
  exists e,
    fwalk_ents es root (walker Filter watchFilter add root lflags event oflags) (st, list)
    = ((st, list), e)
    /\ is_SkipDir e || bool_decide (e = None) = true.
Proof.
  induction es as [|name c rest IH]; intros st list Wf K.
  - exists None. now split.
  - destruct K as (Hr & G & K). cbn [fwalk_ents].
    assert (E : fwalk c (Join root name)
                  (walker Filter watchFilter add root lflags event oflags) (st, list)
                = ((st, list), Some SkipDir)).
    { destruct c as [fi | fi es]; cbn [fwalk]; now rewrite walker_known. }
    rewrite E. destruct (node_isdir c); simpl.
    + now apply IH.
    + exists (Some SkipDir). now split.
Qed.

(** [loadImpl] of a directory that the index holds with the flags asked
    for, together with the files in it up to the first one that is not a
    directory, changes nothing and reports nothing. *)
Lemma loadImpl_again st root lflags event rflags oflags fi es :
  wf_tree (w_tree (wat st)) -> shared st ->
  fs_find fs (split_sep root) = Some (FDir fi es) ->
  (exists d, get (w_tree (wat st)) root = Some d /\ has_flags (flags d) lflags) ->
  fents_known_until (w_tree (wat st)) root es ->
  loadImpl fs Filter watchFilter add st root lflags event rflags oflags = (st, None).
Proof.
  intros Wf Sh Ef (d & G & Hf) K. unfold loadImpl, os_Lstat. rewrite Ef. cbv iota beta.
  rewrite fi_IsDir_node_info. cbn [node_isdir negb andb]. cbv iota.
  destruct (negb (Filter (newInfo root (node_info (FDir fi es))))); [reflexivity|].
  set (f := with_flags _ _).
  rewrite (insert_found _ f d Wf G). rewrite set_tree_id.
  assert (Ed : with_flags d (Z.lor (flags d) (flags f)) = d).
  { change (flags f) with lflags. rewrite (has_flags_lor _ _ Hf). apply with_flags_id. }
  rewrite Ed. destruct (get_in _ _ _ G) as [_ Ep].
  rewrite write_info_id; [|assumption|assumption|now rewrite Ep].
  unfold filepath_Walk. rewrite Ef. cbn [fwalk]. unfold walker at 1.
  rewrite path_eqb_refl.
  destruct (fwalk_ents_known root lflags event oflags es st [] Wf K) as (e & -> & He).
  assert (Ee : (if is_SkipDir e then ((st, @nil info), @None error) else ((st, []), e))
               = ((st, []), None)).
  { destruct (is_SkipDir e) eqn:Es; [reflexivity|].
    simpl in He. apply bool_decide_eq_true in He. now subst e. }
  rewrite Ee. now destruct event.
Qed.
End LoadAgain.

Lemma kq_loaded_open : w_fd (wat kq_loaded) <> -1.
Proof. vm_compute. discriminate. Qed.

Lemma kq_loaded_idle :
  w_signal (wat kq_loaded) = [] /\ k_open (kern kq_loaded) = true
  /\ w_fdmap (wat kq_loaded) = Some (default ∅ (w_fdmap (wat kq_loaded))).
Proof. vm_compute. auto. Qed.

Lemma has_flags_land a b : has_flags a (Z.land a b).
Proof. unfold has_flags. now rewrite Z.land_assoc, Z.land_diag. Qed.

(** * The claims of the specification *)

(** C1, evaluated where the code departs from it: [/t] holds the directory
    [a] with the file [b], and a file whose name is [a] followed by the
    byte 0x01.  [Load] of [/t] returns nil, reports no error and indexes
    the four paths.  [filepath.Walk] over these files visits [b] right
    after its directory [a] and the file [a\001] last; [Walk] over the
    index visits [a\001], a sibling of the directory [a], between [a] and
    the file under it, although the walk order of the specification puts
    [/t/a/b] before [/t/a\001] (both backends). *)
Theorem C1_walk_order_departs :
  let st := fst (Inotify.Load fs_c1 accept_all new_sys (bytes "/t") true) in
  let st' := fst (Kqueue.Load fs_c1 accept_all new_sys (bytes "/t") true) in
  snd (Inotify.Load fs_c1 accept_all new_sys (bytes "/t") true) = None
  /\ snd (Kqueue.Load fs_c1 accept_all new_sys (bytes "/t") true) = None
  /\ w_errors (wat st) = [] /\ w_errors (wat st') = []
  /\ filepath_Walk fs_c1 (bytes "/t") record_walk []
     = ([bytes "/t"; bytes "/t/a"; bytes "/t/a/b"; bytes "/t/a" ++ [x01]], None)
  /\ Walk (wat st) (bytes "/t") record_walk []
     = ([bytes "/t"; bytes "/t/a"; bytes "/t/a" ++ [x01]; bytes "/t/a/b"], None)
  /\ Walk (wat st') (bytes "/t") record_walk []
     = ([bytes "/t"; bytes "/t/a"; bytes "/t/a" ++ [x01]; bytes "/t/a/b"], None)
  /\ walk_before (bytes "/t/a/b") (bytes "/t/a" ++ [x01]).
Proof.
  cbv zeta. repeat (split; [vm_compute; reflexivity|]). vm_compute. reflexivity.
Qed.

(** C5, evaluated where the code departs from it.  With [/a/b] in the
    index, no entry exists at [/a\001b]; [insert] of an entry at that path
    returns the entry of [/a/b] all the same and stores nothing, so that
    [get] finds no entry at the path afterwards.  [Load] runs into this:
    where [/t] holds the directory [a] with the file [b], a file named
    [a\001b] and the file [z], [Load] of [/t] returns nil and reports no
    error, but the index holds neither [/t/a\001b] nor [/t/z] (both
    backends). *)
Theorem C5_insert_takes_other_path :
  let st := fst (Inotify.Load fs_c5 accept_all new_sys (bytes "/t") true) in
  let st' := fst (Kqueue.Load fs_c5 accept_all new_sys (bytes "/t") true) in
  ipath c5_old <> ipath c5_new
  /\ get (index_of [c5_old]) (ipath c5_new) = None
  /\ insert (index_of [c5_old]) c5_new = (index_of [c5_old], Some c5_old)
  /\ get (fst (insert (index_of [c5_old]) c5_new)) (ipath c5_new) = None
  /\ fst (filepath_Walk fs_c5 (bytes "/t") record_walk [])
     = [bytes "/t"; bytes "/t/a"; bytes "/t/a/b";
        bytes "/t/a" ++ [x01] ++ bytes "b"; bytes "/t/z"]
  /\ snd (Inotify.Load fs_c5 accept_all new_sys (bytes "/t") true) = None
  /\ snd (Kqueue.Load fs_c5 accept_all new_sys (bytes "/t") true) = None
  /\ w_errors (wat st) = [] /\ w_errors (wat st') = []
  /\ map ipath (entries (w_tree (wat st))) = [bytes "/t"; bytes "/t/a"; bytes "/t/a/b"]
  /\ map ipath (entries (w_tree (wat st'))) = [bytes "/t"; bytes "/t/a"; bytes "/t/a/b"]
  /\ Get (wat st) (bytes "/t/a" ++ [x01] ++ bytes "b") = None
  /\ Get (wat st) (bytes "/t/z") = None.
Proof.
  cbv zeta. split; [discriminate|].
  repeat (split; [vm_compute; reflexivity|]). vm_compute. reflexivity.
Qed.

(** C6 (amended).  A visitor that returns [SkipDir] on an entry that is not
    a directory ends the traversal: that call is the last one [walk] makes,
    and [walk] returns [SkipDir] to its caller. *)
Theorem C6_skipdir_on_file {S} (t : tree) (root : path) (f : @visitor S) (s : S)
    (i : info) :
  In (i, Some SkipDir) (walk_calls t root f s) -> IsDir i = false ->
  (exists pre, walk_calls t root f s = pre ++ [(i, Some SkipDir)])
  /\ snd (walk t root f s) = Some SkipDir.
Proof.
  intros H D. apply walk_calls_stop; [assumption|].
  unfold continues. simpl. exact D.
Qed.

Lemma C6_skipdir_on_file_witness :
  snd (walk (index_of c6_entries) (bytes "/t") (skip_at (bytes "/t/a")) tt)
  = Some SkipDir.
Proof.
  refine (proj2 (C6_skipdir_on_file (index_of c6_entries) (bytes "/t")
                   (skip_at (bytes "/t/a")) tt (entry (bytes "/t/a") false 0) _ _)).
  - vm_compute. auto.
  - reflexivity.
Defined.

(** C6 as stated fails: in the index of [/t], [/t/a] and [/t/b], a visitor
    that returns [SkipDir] on the file [/t/a] is never called on [/t/b] and
    [walk] returns [SkipDir], while the visitor that returns nil there is
    called on [/t/b] and [walk] returns nil. *)
Lemma C6_counterexample :
  IsDir (entry (bytes "/t/a") false 0) = false
  /\ map (fun c => ipath (fst c))
         (walk_calls (index_of c6_entries) (bytes "/t") (skip_at (bytes "/t/a")) tt)
     = [bytes "/t"; bytes "/t/a"]
  /\ snd (walk (index_of c6_entries) (bytes "/t") (skip_at (bytes "/t/a")) tt)
     = Some SkipDir
  /\ map (fun c => ipath (fst c))
         (walk_calls (index_of c6_entries) (bytes "/t") go_on tt)
     = [bytes "/t"; bytes "/t/a"; bytes "/t/b"]
  /\ snd (walk (index_of c6_entries) (bytes "/t") go_on tt) = None.
Proof. vm_compute. auto 6. Qed.

(** C3, evaluated where the code departs from it: with [/a] (a directory),
    [/a/x] and [/ax] in the index, [deleteAll] of [/a] calls the handler on
    [/a] and [/a/x] only, yet leaves the index empty, so that the entry of
    [/ax] is removed as well. *)
Theorem C3_deleteAll_empties_index :
  map ipath (entries (index_of c3_entries)) = [bytes "/a"; bytes "/a/x"; bytes "/ax"]
  /\ deleteAll (index_of c3_entries) (bytes "/a") (fun i l => l ++ [ipath i]) []
     = (None, [bytes "/a"; bytes "/a/x"])
  /\ get (fst (deleteAll (index_of c3_entries) (bytes "/a")
                         (fun i l => l ++ [ipath i]) [])) (bytes "/ax") = None.
Proof. vm_compute. auto. Qed.

(** C2.  An entry [E] of the index with the flag [ignored] set, stored under
    its cleaned path, is hidden from the read operations: [Get] returns nil
    and [Lstat] a not-exist error for its path, [walk] and [Traverse] never
    call the visitor on it, and [walk] fails with a not-exist error for
    every root that is absent or ignored; yet [E] keeps its slot: [insert]
    of an entry with the same path returns [E]. *)
Theorem C2_ignored_invisible (w : watcher) (E : info) :
  wf_tree (w_tree w) -> In E (entries (w_tree w)) -> Ignored E = true ->
  Clean (ipath E) = ipath E ->
  Get w (ipath E) = None
  /\ Lstat w (ipath E) = (None, Some (PathError "stat" (ipath E) ErrNotExist))
  /\ (forall S root (f : @visitor S) s,
        ~ In E (map fst (walk_calls (w_tree w) root f s)))
  /\ (forall S root (f : @visitor S) s,
        ~ In E (map fst (snd (fst (Traverse w root (traced f) (s, []))))))
  /\ (forall S root (f : @visitor S) s,
        get (w_tree w) root = None
        \/ (exists fi, get (w_tree w) root = Some fi /\ Ignored fi = true) ->
        walk (w_tree w) root f s = (s, Some (PathError "stat" root ErrNotExist)))
  /\ (forall e', ipath e' = ipath E ->
        insert (w_tree w) e' = (w_tree w, Some E)).
Proof.
  intros W HE Ig Cl.
  assert (G : Get w (ipath E) = None).
  { unfold Get. rewrite Cl, (get_member _ E W HE), Ig. reflexivity. }
  assert (Hw : forall S root (f : @visitor S) s,
             ~ In E (map fst (walk_calls (w_tree w) root f s))).
  { intros S root f s H. apply in_map_iff in H. destruct H as (c & <- & Hc).
    apply walk_calls_not_ignored in Hc. congruence. }
  split; [exact G|]. split; [unfold Lstat; now rewrite G|].
  split; [exact Hw|]. split; [intros S root f s; apply Hw|]. split.
  - intros S root f s H. unfold walk.
    destruct H as [-> | (fi & -> & Hfi)]; [reflexivity|].
    destruct (w_tree w); [|reflexivity]. now rewrite Hfi.
  - intros e' He'. apply insert_found; [assumption|].
    rewrite He'. now apply get_member.
Qed.

Lemma C2_ignored_invisible_witness :
  Get (watcher_of (index_of c2_entries)) (bytes "/t/.git") = None
  /\ insert (index_of c2_entries) (entry (bytes "/t/.git") true 0)
     = (index_of c2_entries, Some (entry (bytes "/t/.git") true ignored)).
Proof.
  assert (Hin : In (entry (bytes "/t/.git") true ignored)
                   (entries (w_tree (watcher_of (index_of c2_entries)))))
    by (vm_compute; auto).
  destruct (C2_ignored_invisible (watcher_of (index_of c2_entries))
              (entry (bytes "/t/.git") true ignored)
              (proj1 (index_of_wf_b c2_entries eq_refl)) Hin eq_refl eq_refl)
    as (H1 & _ & _ & _ & _ & H2).
  split; [exact H1|]. apply (H2 (entry (bytes "/t/.git") true 0)). reflexivity.
Defined.

(** C9 (amended).  On the kqueue backend the first [Close] of an open
    watcher succeeds and from then on every [Close], [Load] and [Unload]
    returns [ErrClosed].  On the inotify backend the first [Close] of an
    open watcher succeeds too, but the watcher is marked closed by the
    dispatcher when it runs the function that [Close] sent on the signal
    channel: from then on every [Close] and [Unload] returns [ErrClosed],
    and so does every [Load] of a path whose directory part is not empty. *)
Theorem C9_close (fs : fnode) (Filter : info -> bool) :
  (forall st, w_fd (wat st) <> -1 -> w_signal (wat st) = [] ->
     exists st', Kqueue.Close st = Some (st', None)
       /\ forall st'', kq_later fs Filter st' st'' ->
            Kqueue.Close st'' = Some (st'', Some ErrClosed)
            /\ (forall p r, Kqueue.Load fs Filter st'' p r = (st'', Some ErrClosed))
            /\ (forall p r, Kqueue.Unload st'' p r = (st'', Some ErrClosed)))
  /\ (forall st, w_fd (wat st) <> -1 -> w_signal (wat st) = [] ->
        k_open (kern st) = true -> w_fdmap (wat st) <> None ->
        exists st', Inotify.Close fs st = Some (st', None)
          /\ forall st'', in_later fs Filter (Inotify.run_signal st') st'' ->
               Inotify.Close fs st'' = Some (st'', Some ErrClosed)
               /\ (forall p r, Inotify.hasParentWatch (wat st'') (Clean p) <> None ->
                     Inotify.Load fs Filter st'' p r = (st'', Some ErrClosed))
               /\ (forall p r,
                     Inotify.Unload fs Filter st'' p r = (st'', Some ErrClosed))).
Proof.
  split.
  - intros st Hfd Hs. destruct (kqueue_close_open st Hfd Hs) as (st' & E & C).
    exists st'. split; [exact E|]. intros st'' L.
    assert (Hc : w_fd (wat st'') = -1).
    { induction L as [| st1 p r L IH | st1 p r L IH | st1 st2 e L IH E2 | st1 L IH].
      - exact C.
      - unfold Kqueue.Load.
        now rewrite (proj1 (proj2 (kqueue_closed fs Filter st1 IH))).
      - unfold Kqueue.Unload.
        now rewrite (proj1 (proj2 (proj2 (kqueue_closed fs Filter st1 IH)))).
      - unfold Kqueue.Close in E2.
        rewrite (proj1 (kqueue_closed fs Filter st1 IH)) in E2.
        injection E2 as <- _. exact IH.
      - apply (kqueue_closed fs Filter st1 IH). }
    destruct (kqueue_closed fs Filter st'' Hc) as (H1 & H2 & H3 & _).
    unfold Kqueue.Close, Kqueue.Load, Kqueue.Unload. auto.
  - intros st Hfd Hs Hk Hm.
    destruct (inotify_close_open fs st Hfd Hs Hk Hm) as (st' & E & _ & _ & C).
    exists st'. split; [exact E|]. intros st'' L.
    assert (Hc : w_fd (wat st'') = -1).
    { induction L as [| st1 p r L IH | st1 p r L IH | st1 st2 e L IH E2 | st1 L IH].
      - exact C.
      - unfold Inotify.Load, Inotify.load.
        destruct (Inotify.hasParentWatch (wat st1) (Clean p)); [|exact IH].
        rewrite IH. simpl. exact IH.
      - unfold Inotify.Unload.
        now rewrite (proj1 (proj2 (proj2 (inotify_closed fs Filter st1 IH)))).
      - unfold Inotify.Close in E2.
        rewrite (proj1 (inotify_closed fs Filter st1 IH)) in E2.
        injection E2 as <- _. exact IH.
      - apply (inotify_closed fs Filter st1 IH). }
    destruct (inotify_closed fs Filter st'' Hc) as (H1 & H2 & H3 & _).
    unfold Inotify.Close, Inotify.Load, Inotify.Unload. auto.
Qed.

Lemma C9_close_witness :
  exists st', Kqueue.Close new_sys = Some (st', None)
              /\ Kqueue.Close st' = Some (st', Some ErrClosed).
Proof.
  destruct (proj1 (C9_close fs0 accept_all) new_sys) as (st' & E & H).
  - discriminate.
  - reflexivity.
  - exists st'. split; [exact E|]. apply (H st'). constructor.
Defined.

(** C9 as stated fails on the inotify backend: right after a successful
    [Close] the descriptor is still set, so [Unload] returns nil and [Load]
    loads the directory instead of returning [ErrClosed], and a second
    [Close] waits on the full signal channel. *)
Lemma C9_counterexample :
  Inotify.Close fs0 new_sys = Some (closing_sys, None)
  /\ snd (Inotify.Unload fs0 accept_all closing_sys (bytes "/t") false) = None
  /\ snd (Inotify.Load fs0 accept_all closing_sys (bytes "/t") true) = None
  /\ get (w_tree (wat (fst (Inotify.Load fs0 accept_all closing_sys
                                (bytes "/t") true)))) (bytes "/t/a") <> None
  /\ Inotify.Close fs0 closing_sys = None.
Proof. vm_compute. repeat split; discriminate. Qed.

(** C10 (amended).  [Get], [Traverse], [Load] and [Unload] give for a path
    the result they give for its cleaned form.  So do [Lstat] and [Walk]
    when the cleaned path is in the index and not ignored; otherwise the
    error of [Lstat] names the path as it was given, and so does the call
    that [Walk] makes to its function. *)
Theorem C10_clean (fs : fnode) (Filter : info -> bool) (w : watcher) (st : sys)
    (p : path) (r : bool) :
  Get w p = Get w (Clean p)
  /\ (forall S (f : @visitor S) s, Traverse w p f s = Traverse w (Clean p) f s)
  /\ Inotify.Load fs Filter st p r = Inotify.Load fs Filter st (Clean p) r
  /\ Inotify.Unload fs Filter st p r = Inotify.Unload fs Filter st (Clean p) r
  /\ Kqueue.Load fs Filter st p r = Kqueue.Load fs Filter st (Clean p) r
  /\ Kqueue.Unload st p r = Kqueue.Unload st (Clean p) r
  /\ (Get w p <> None -> Lstat w p = Lstat w (Clean p))
  /\ (forall S (fn : WalkFunc S) s,
        Get w p <> None -> Walk w p fn s = Walk w (Clean p) fn s)
  /\ (Get w p = None -> Lstat w p = (None, Some (PathError "stat" p ErrNotExist)))
  /\ (forall S (fn : WalkFunc S) s,
        Get w p = None ->
        Walk w p fn s = fn p None (Some (PathError "stat" (Clean p) ErrNotExist)) s).
Proof.
  repeat split.
  - now rewrite Get_clean.
  - intros. now rewrite Traverse_clean.
  - unfold Inotify.Load. now rewrite Clean_idempotent.
  - unfold Inotify.Unload. now rewrite Clean_idempotent.
  - unfold Kqueue.Load. now rewrite Clean_idempotent.
  - unfold Kqueue.Unload. now rewrite Clean_idempotent.
  - intros H. unfold Lstat. rewrite Get_clean.
    destruct (Get w p); [reflexivity|contradiction].
  - intros S fn s H. rewrite !Walk_eq, Get_clean, Traverse_clean.
    now rewrite bool_decide_eq_true_2 by assumption.
  - intros H. unfold Lstat. now rewrite H.
  - intros S fn s H. rewrite Walk_eq.
    rewrite bool_decide_eq_false_2 by (intros H'; now apply H'). cbv zeta.
    unfold Traverse, walk. unfold Get in H.
    destruct (get (w_tree w) (Clean p)) as [fi|]; [|reflexivity].
    destruct (w_tree w); [|reflexivity].
    destruct (Ignored fi); [reflexivity|discriminate].
Qed.

(** C10 as stated fails for [Lstat] (and for [Walk]): on a watcher that
    does not hold [a/b], the error of [Lstat] of [a//b] names [a//b], the
    error of [Lstat] of the cleaned path names [a/b]. *)
Lemma C10_counterexample :
  Clean (bytes "a//b") = bytes "a/b"
  /\ Lstat (wat new_sys) (bytes "a//b")
     = (None, Some (PathError "stat" (bytes "a//b") ErrNotExist))
  /\ Lstat (wat new_sys) (Clean (bytes "a//b"))
     = (None, Some (PathError "stat" (bytes "a/b") ErrNotExist))
  /\ Lstat (wat new_sys) (bytes "a//b") <> Lstat (wat new_sys) (Clean (bytes "a//b")).
Proof. vm_compute. repeat split; discriminate. Qed.

(** C8, evaluated where the code departs from it: on a watcher that has
    loaded the directory [/u], [Load] of [/t] (which holds the directory
    [a] with the file [x], and the file [b]) followed by [Unload] of [/t],
    with either value of the recursive flag and on both backends.  The
    three calls return nil and the kernel holds the watch of [/u] as
    before, but the index is empty afterwards: the entry of [/u], which
    the watcher held before the [Load], is gone. *)
Theorem C8_load_unload_empties_index (r : bool) :
  let i0 := fst (Inotify.Load fs_two accept_all new_sys (bytes "/u") true) in
  let i1 := fst (Inotify.Load fs_two accept_all i0 (bytes "/t") r) in
  let i2 := fst (Inotify.Unload fs_two accept_all i1 (bytes "/t") r) in
  let k0 := fst (Kqueue.Load fs_two accept_all new_sys (bytes "/u") true) in
  let k1 := fst (Kqueue.Load fs_two accept_all k0 (bytes "/t") r) in
  let k2 := fst (Kqueue.Unload k1 (bytes "/t") r) in
  (snd (Inotify.Load fs_two accept_all new_sys (bytes "/u") true) = None
   /\ snd (Inotify.Load fs_two accept_all i0 (bytes "/t") r) = None
   /\ snd (Inotify.Unload fs_two accept_all i1 (bytes "/t") r) = None
   /\ indexed i0 = [bytes "/u"]
   /\ In (bytes "/u") (indexed i1) /\ In (bytes "/t") (indexed i1)
   /\ indexed i2 = []
   /\ Get (wat i0) (bytes "/u") <> None /\ Get (wat i2) (bytes "/u") = None
   /\ k_watches (kern i2) = k_watches (kern i0)
   /\ w_fdmap (wat i2) = w_fdmap (wat i0))
  /\ (snd (Kqueue.Load fs_two accept_all new_sys (bytes "/u") true) = None
      /\ snd (Kqueue.Load fs_two accept_all k0 (bytes "/t") r) = None
      /\ snd (Kqueue.Unload k1 (bytes "/t") r) = None
      /\ indexed k0 = [bytes "/u"]
      /\ In (bytes "/u") (indexed k1) /\ In (bytes "/t") (indexed k1)
      /\ indexed k2 = []
      /\ Get (wat k0) (bytes "/u") <> None /\ Get (wat k2) (bytes "/u") = None
      /\ k_watches (kern k2) = k_watches (kern k0)
      /\ w_fdmap (wat k2) = w_fdmap (wat k0)).
Proof.
  cbv zeta. destruct r.
  - split;
      repeat match goal with
             | |- _ /\ _ => split
             | |- In _ _ => vm_compute; tauto
             | |- _ <> _ => vm_compute; discriminate
             | |- _ = _ => vm_compute; reflexivity
             end.
  - split;
      repeat match goal with
             | |- _ /\ _ => split
             | |- In _ _ => vm_compute; tauto
             | |- _ <> _ => vm_compute; discriminate
             | |- _ = _ => vm_compute; reflexivity
             end.
Qed.

(** * Further properties of the code *)

(** ** The index: [get], [insert], [walk], [deleteAll] *)

(** X1.  In an index that satisfies the crit-bit invariant, [get] finds
    exactly what is stored: it returns an entry for a path if and only if
    that entry is in the index under that path, and nil if and only if no
    entry of the index has that path. *)
Theorem get_exact (t : tree) (k : path) :
  wf_tree t ->
  (forall i, get t k = Some i <-> In i (entries t) /\ ipath i = k)
  /\ (get t k = None <-> forall i, In i (entries t) -> ipath i <> k).
Proof.
  intros W. split; [intros i; now apply get_spec|now apply get_none].
Qed.

Lemma get_exact_witness :
  get (index_of c6_entries) (bytes "/t/a") = Some (entry (bytes "/t/a") false 0)
  /\ get (index_of c6_entries) (bytes "/t/c") = None.
Proof.
  destruct (get_exact (index_of c6_entries) (bytes "/t/a")
              (proj1 (index_of_wf_b c6_entries eq_refl))) as [H _].
  split; [|reflexivity]. apply H. vm_compute. auto.
Defined.

(** X2.  A sequence of [insert] calls on the empty index behaves like a
    list in which the first entry of a path wins: afterwards [get] of a
    path returns the first entry of the sequence with that path, and nil
    when there is none (paths without the bytes 0x00 and 0x01). *)
Theorem inserts_first_wins (l : list info) (p : path) :
  Forall (fun i => plain (ipath i)) l -> get (index_of l) p = first_at l p.
Proof.
  intros F. unfold index_of.
  rewrite (fold_insert_get l None p I (fun i H => match H with end) F).
  reflexivity.
Qed.

Lemma inserts_first_wins_witness :
  get (index_of (c6_entries ++ [entry (bytes "/t/a") true explicit])) (bytes "/t/a")
  = Some (entry (bytes "/t/a") false 0).
Proof.
  rewrite (inserts_first_wins (c6_entries ++ [entry (bytes "/t/a") true explicit])
                              (bytes "/t/a")).
  - reflexivity.
  - apply Forall_plainb. reflexivity.
Defined.

(** X3.  The order in which the index lists its entries does not depend on
    the order of the [insert] calls: two sequences of entries with distinct
    paths (without the bytes 0x00 and 0x01) that are permutations of each
    other give the same list of leaves. *)
Theorem entries_insert_order (l1 l2 : list info) :
  Forall (fun i => plain (ipath i)) l1 -> NoDup (map ipath l1) -> Permutation l1 l2 ->
  entries (index_of l1) = entries (index_of l2).
Proof.
  intros F1 N1 Pm.
  assert (F2 : Forall (fun i => plain (ipath i)) l2) by now rewrite <- Pm.
  assert (N2 : NoDup (map ipath l2)) by now rewrite <- Pm.
  assert (G : forall l, Forall (fun i => plain (ipath i)) l -> NoDup (map ipath l) ->
                        Permutation (entries (index_of l)) l
                        /\ StronglySorted (fun i j => blt (ipath i) (ipath j))
                                          (entries (index_of l))).
  { intros l F N. split.
    - unfold index_of.
      rewrite (fold_insert_perm l None I (fun i H => match H with end) F N); auto.
    - pose proof (proj1 (index_of_wf l F)) as W.
      destruct (index_of l) as [r|]; simpl; [now apply wf_sorted_bits|constructor]. }
  destruct (G l1 F1 N1) as [P1 S1]. destruct (G l2 F2 N2) as [P2 S2].
  apply (sorted_perm_eq (fun i j => blt (ipath i) (ipath j))); auto.
  - intros x y. apply blt_asym.
  - now rewrite P1, P2.
Qed.

Lemma entries_insert_order_witness :
  entries (index_of c6_entries)
  = entries (index_of [entry (bytes "/t/a") false 0; entry (bytes "/t") true 0;
                       entry (bytes "/t/b") false 0]).
Proof.
  apply (entries_insert_order c6_entries).
  - apply Forall_plainb. reflexivity.
  - apply (bool_decide_unpack _). vm_compute. reflexivity.
  - apply perm_swap.
Defined.

(** X4.  The lines "find differing bit" of [insert] leave in [bit] the
    highest bit that is set in the byte they start from: for every byte
    value [b] other than 0 the result is the power of two [2 ^ log2 b]. *)
Theorem top_bit_highest (b : Z) : 0 < b < 256 -> top_bit b = 2 ^ Z.log2 b.
Proof. intros H. apply top_bit_high_all; [unfold small|]; lia. Qed.

Lemma top_bit_highest_witness : top_bit 0x2e = 32.
Proof. rewrite (top_bit_highest 0x2e); [reflexivity|lia]. Defined.

(** X5.  [walk] stays within the subtree of its root: for every visitor,
    the entries it is called on are, in this order, among the entry of
    [root] followed by the entries of the index whose path starts with
    [root] and a separator, the ignored ones left out.  A visitor that
    always returns nil is called on all of them, and [walk] then returns
    nil, or the not-exist error when [root] is absent or ignored (paths
    without the bytes 0x00 and 0x01). *)
Theorem walk_visits_subtree {S} (t : tree) (root : path) (f : @visitor S) (s : S) :
  wf_tree t -> plain_tree t ->
  map fst (walk_calls t root f s) `sublist_of` visible t root
  /\ ((forall i s', snd (f i s') = None) ->
      map fst (walk_calls t root f s) = visible t root
      /\ snd (walk t root f s)
         = match visible t root with
           | [] => Some (PathError "stat" root ErrNotExist)
           | _ :: _ => None
           end).
Proof.
  intros W P. split; [now apply walk_calls_visible|].
  intros Hf. now apply walk_calls_all.
Qed.

Lemma walk_visits_subtree_witness :
  map (fun c => ipath (fst c)) (walk_calls (index_of c3_entries) (bytes "/a") go_on tt)
  = [bytes "/a"; bytes "/a/x"].
Proof.
  destruct (walk_visits_subtree (index_of c3_entries) (bytes "/a") go_on tt
              (proj1 (index_of_wf_b c3_entries eq_refl))
              (proj2 (index_of_wf_b c3_entries eq_refl))) as [_ H].
  destruct (H (fun _ _ => eq_refl)) as [E _].
  rewrite <- (map_map fst ipath), E. reflexivity.
Defined.

(** X6.  Once the visitor has returned [SkipDir] on a directory, [walk]
    does not call it on any entry below that directory; when the directory
    is the root of the walk, that call is the only one and [walk] returns
    [SkipDir] itself (paths without the bytes 0x00 and 0x01). *)
Theorem walk_skips_directory {S} (t : tree) (root : path) (f : @visitor S) (s : S)
    (pre post : list call) (D : info) :
  wf_tree t -> plain_tree t ->
  walk_calls t root f s = pre ++ (D, Some SkipDir) :: post -> IsDir D = true ->
  (forall c, In c post -> below (ipath D) (fst c) = false)
  /\ (pre = [] -> post = [] /\ snd (walk t root f s) = Some SkipDir).
Proof.
  intros W P E HD. pose proof E as E'. pose proof (walk_result t root f s W) as R.
  rewrite walk_calls_shape in E by assumption.
  destruct (get t root) as [fi|] eqn:G; [|now destruct pre].
  destruct t as [r|]; [|now destruct pre].
  destruct (Ignored fi); [now destruct pre|].
  cbv zeta in E, R. set (root' := root ++ [PathSeparator]) in *.
  destruct pre as [|c0 pre]; simpl in E.
  - injection E as -> Ee Ep. rewrite Ee in Ep, R.
    rewrite bool_decide_eq_false_2 in Ep, R by discriminate.
    rewrite andb_false_r in Ep, R. simpl in Ep, R. subst post.
    split; [intros c []|]. intros _. split; [reflexivity|exact R].
  - injection E as _ E. split; [|discriminate].
    destruct (IsDir fi && bool_decide (snd (f fi s) = None)
              && has_prefix (ipath (best r root')) root'); [|now destruct pre].
    eapply calls_of_skip; [| |exact E|exact HD].
    + now apply subtree_of_wf.
    + intros x Hx. apply P. simpl. apply list_elem_of_In.
      eapply elem_of_sublist; [|apply (subtree_of_sublist root' r)].
      apply list_elem_of_In. exact Hx.
Qed.

Lemma walk_skips_directory_witness :
  below (bytes "/t/a") (entry (bytes "/t/ax") false 0) = false.
Proof.
  refine (proj1 (walk_skips_directory
                   (index_of nested_entries) (bytes "/t")
                   (skip_at (bytes "/t/a")) tt
                   [(entry (bytes "/t") true 0, None)]
                   [(entry (bytes "/t/ax") false 0, None)]
                   (entry (bytes "/t/a") true 0) _ _ _ _)
                (entry (bytes "/t/ax") false 0, None) (or_introl eq_refl)).
  - apply (index_of_wf_b nested_entries). reflexivity.
  - apply (index_of_wf_b nested_entries). reflexivity.
  - vm_compute. reflexivity.
  - reflexivity.
Defined.

(** X7.  The value that [walkiter] uses internally to remember a skipped
    directory can leave [walk]: when exactly one entry lies below the root
    of the walk, and it is a directory on which the visitor returns
    [SkipDir], then [walk], and with it [Traverse], returns the error value
    [skip] of that directory's path instead of nil (paths without the bytes
    0x00 and 0x01). *)
Theorem walk_returns_skip {S} (w : watcher) (root : path) (f : @visitor S) (s : S)
    (fi d : info) :
  wf_tree (w_tree w) -> plain_tree (w_tree w) ->
  get (w_tree w) root = Some fi -> Ignored fi = false -> IsDir fi = true ->
  snd (f fi s) = None ->
  List.filter (below root) (entries (w_tree w)) = [d] ->
  Ignored d = false -> IsDir d = true -> snd (f d (fst (f fi s))) = Some SkipDir ->
  snd (walk (w_tree w) root f s) = Some (skip (ipath d ++ [PathSeparator]))
  /\ (Clean root = root ->
      snd (Traverse w root f s) = Some (skip (ipath d ++ [PathSeparator]))).
Proof.
  intros W P G Ig D En Fd Igd Dd Es.
  assert (R : snd (walk (w_tree w) root f s) = Some (skip (ipath d ++ [PathSeparator]))).
  { rewrite walk_result by assumption. rewrite G.
    destruct (w_tree w) as [r|] eqn:Et; [|discriminate].
    rewrite Ig. cbv zeta. rewrite D, En, bool_decide_eq_true_2 by reflexivity.
    apply get_in in G. destruct G as [Hfi Er].
    assert (Pr : plain root) by (rewrite <- Er; now apply P).
    destruct (subtree_below (Some r) r root eq_refl W P Pr) as [Hp L].
    { exists d. apply filter_In. rewrite Fd. now left. }
    rewrite Hp. simpl andb. cbv iota. rewrite Fd in L. apply leaves_single in L.
    rewrite L. simpl. unfold visit_leaf. simpl. rewrite Igd.
    destruct (f d (fst (f fi s))) as [s' e]. simpl in Es. subst e.
    simpl. now rewrite Dd. }
  split; [exact R|]. intros C. unfold Traverse. now rewrite C.
Qed.

Lemma walk_returns_skip_witness :
  snd (Traverse (watcher_of (index_of lone_dir_entries)) (bytes "/t")
                (skip_at (bytes "/t/a")) tt)
  = Some (skip (bytes "/t/a/")).
Proof.
  refine (proj2 (walk_returns_skip (watcher_of (index_of lone_dir_entries)) (bytes "/t")
                   (skip_at (bytes "/t/a")) tt (entry (bytes "/t") true 0)
                   (entry (bytes "/t/a") true 0) _ _ _ _ _ _ _ _ _ _) _);
    try reflexivity.
  - apply (index_of_wf_b lone_dir_entries). reflexivity.
  - apply (index_of_wf_b lone_dir_entries). reflexivity.
Defined.

(** X8.  [deleteAll] of a path that is not in the index changes nothing and
    never calls the handler. *)
Theorem deleteAll_missing {S} (t : tree) (root : path) (f : info -> S -> S) (s : S) :
  get t root = None -> deleteAll t root f s = (t, s).
Proof. apply deleteAll_absent. Qed.

Lemma deleteAll_missing_witness :
  deleteAll (index_of c3_entries) (bytes "/a/") record_path []
  = (index_of c3_entries, []).
Proof. apply (deleteAll_missing (index_of c3_entries) (bytes "/a/")). reflexivity. Defined.

(** X9.  [deleteAll] of an entry that is not a directory, or of a directory
    with no entry below it, calls the handler once, on that entry, and
    removes just it: the index keeps its invariant, every other path is
    found as before, and the entries keep their order. *)
Theorem deleteAll_one {S} (t : tree) (root : path) (f : info -> S -> S) (s : S)
    (i : info) :
  wf_tree t -> get t root = Some i ->
  IsDir i = false \/ (forall x, In x (entries t) -> below root x = false) ->
  snd (deleteAll t root f s) = f i s
  /\ wf_tree (fst (deleteAll t root f s))
  /\ entries (fst (deleteAll t root f s))
     = List.filter (fun x => negb (path_eqb (ipath x) root)) (entries t)
  /\ forall q, get (fst (deleteAll t root f s)) q
               = if path_eqb q root then None else get t q.
Proof.
  intros W G H. rewrite (deleteAll_single t root f s i G H). simpl.
  split; [reflexivity|]. split; [now apply remove_entry_wf|].
  split; [now apply (remove_entry_entries t root i)|].
  intros q. now apply (remove_entry_get t root i).
Qed.

Lemma deleteAll_one_witness :
  snd (deleteAll (index_of c3_entries) (bytes "/ax") record_path []) = [bytes "/ax"]
  /\ get (fst (deleteAll (index_of c3_entries) (bytes "/ax") record_path []))
         (bytes "/a/x") = Some (entry (bytes "/a/x") false 0).
Proof.
  destruct (deleteAll_one (index_of c3_entries) (bytes "/ax") record_path []
              (entry (bytes "/ax") false 0)
              (proj1 (index_of_wf_b c3_entries eq_refl)) eq_refl (or_introl eq_refl))
    as (H1 & _ & _ & H2).
  split; [exact H1|]. rewrite H2. reflexivity.
Defined.

(** X10.  [deleteAll] of a directory that has at least one entry below it
    calls the handler on the directory and then on the entries below it, in
    the order of the index, and leaves the whole index empty: every entry,
    also one that is not below the directory, is gone afterwards (paths
    without the bytes 0x00 and 0x01). *)
Theorem deleteAll_directory {S} (t : tree) (root : path) (f : info -> S -> S) (s : S)
    (i : info) :
  wf_tree t -> plain_tree t -> get t root = Some i -> IsDir i = true ->
  (exists x, In x (entries t) /\ below root x = true) ->
  snd (deleteAll t root f s)
  = handle_all f (List.filter (below root) (entries t)) (f i s)
  /\ fst (deleteAll t root f s) = None
  /\ forall q, get (fst (deleteAll t root f s)) q = None.
Proof.
  intros W P G D Hx. rewrite (deleteAll_dir t root f s i W P G D Hx). simpl. auto.
Qed.

Lemma deleteAll_directory_witness :
  snd (deleteAll (index_of c3_entries) (bytes "/a") record_path [])
  = [bytes "/a"; bytes "/a/x"]
  /\ get (fst (deleteAll (index_of c3_entries) (bytes "/a") record_path []))
         (bytes "/ax") = None.
Proof.
  destruct (deleteAll_directory (index_of c3_entries) (bytes "/a") record_path []
              (entry (bytes "/a") true 0)
              (proj1 (index_of_wf_b c3_entries eq_refl))
              (proj2 (index_of_wf_b c3_entries eq_refl)) eq_refl eq_refl)
    as (H1 & _ & H2).
  - exists (entry (bytes "/a/x") false 0). split; [|reflexivity]. vm_compute. auto.
  - split; [rewrite H1; reflexivity|apply H2].
Defined.

(** ** The watcher: [Load], [Unload], [Close] *)

(** X11.  What [Load] turns down, on an open watcher: for a path that
    [os.Lstat] cannot stat it returns that error, for a file it returns
    [ErrNotDir], and for a directory that [Context.Filter] rejects it
    returns nil; in all three cases the watcher is left as it was (on
    inotify: for a path whose cleaned form holds a separator). *)
Theorem load_turns_down (fs : fnode) (Filter : info -> bool) (st : sys) (p : path)
    (r : bool) :
  w_fd (wat st) <> -1 ->
  turned_down fs Filter st (Clean p) (Kqueue.Load fs Filter st p r)
  /\ (Inotify.hasParentWatch (wat st) (Clean p) <> None ->
      turned_down fs Filter st (Clean p) (Inotify.Load fs Filter st p r)).
Proof.
  intros Hfd. apply Z.eqb_neq in Hfd. split.
  - unfold Kqueue.Load, Kqueue.load. rewrite Hfd. apply loadImpl_turned_down.
  - intros Hp. unfold Inotify.Load, Inotify.load.
    destruct (Inotify.hasParentWatch (wat st) (Clean p)); [|contradiction].
    rewrite Hfd. apply loadImpl_turned_down.
Qed.

Lemma load_turns_down_witness :
  Kqueue.Load fs0 accept_all new_sys (bytes "/t/b") true = (new_sys, Some ErrNotDir)
  /\ Inotify.Load fs0 accept_all new_sys (bytes "/t//none") true
     = (new_sys, Some (PathError "lstat" (bytes "/t/none") ErrNotExist)).
Proof.
  split.
  - refine (proj1 (proj1 (load_turns_down fs0 accept_all new_sys (bytes "/t/b") true _))
                  eq_refl).
    discriminate.
  - refine (proj2 (load_turns_down fs0 accept_all new_sys (bytes "/t//none") true _) _).
    + discriminate.
    + vm_compute. discriminate.
Defined.

(** X12.  On the inotify backend [Load] of a path whose cleaned form holds
    no separator (a relative name such as [src], or [.]) ends in a run-time
    panic, on a closed watcher as well as on an open one: [load] asks
    [hasParentWatch] before it tests the descriptor, the directory part
    that [filepath.Split] returns is empty, and the index expression on
    its last byte is out of range.  The embedding renders the panic as the
    error value [Panic].  Nothing is said here of the watcher after the
    panic: in the source it is raised between [w.mutex.RLock()] and
    [w.mutex.RUnlock()], and the embedding carries no mutex. *)
Theorem inotify_load_relative_name (fs : fnode) (Filter : info -> bool) (st : sys)
    (p : path) (r : bool) :
  ~ In PathSeparator (Clean p) ->
  snd (Inotify.Load fs Filter st p r) = Some Panic.
Proof.
  intros H. unfold Inotify.Load, Inotify.load, Inotify.hasParentWatch.
  now rewrite (Split_no_sep _ H).
Qed.

Lemma inotify_load_relative_name_witness :
  snd (Inotify.Load fs0 accept_all new_sys (bytes "./t/..") true) = Some Panic.
Proof.
  apply (inotify_load_relative_name fs0 accept_all new_sys (bytes "./t/..") true).
  vm_compute. intros [H | []]. discriminate.
Defined.

(** X13.  [Unload] of a path that the index does not hold, or whose entry
    has no watch, returns nil and leaves the watcher as it was, on both
    backends. *)
Theorem unload_unwatched (fs : fnode) (Filter : info -> bool) (st : sys) (p : path)
    (r : bool) :
  w_fd (wat st) <> -1 ->
  get (w_tree (wat st)) (Clean p) = None
  \/ (exists i, get (w_tree (wat st)) (Clean p) = Some i /\ watch i = None) ->
  Inotify.Unload fs Filter st p r = (st, None)
  /\ Kqueue.Unload st p r = (st, None).
Proof.
  intros Hfd H. apply Z.eqb_neq in Hfd.
  unfold Inotify.Unload, Inotify.unload, Kqueue.Unload, Kqueue.unload. rewrite Hfd.
  destruct H as [-> | (i & -> & ->)]; split; reflexivity.
Qed.

Lemma unload_unwatched_witness :
  Kqueue.Unload new_sys (bytes "/t") true = (new_sys, None).
Proof.
  refine (proj2 (unload_unwatched fs0 accept_all new_sys (bytes "/t") true _ _)).
  - discriminate.
  - left. reflexivity.
Defined.

(** X14.  What [Close] does with the watches of an open watcher whose
    [fdmap] files each entry under the descriptor of its own watch, a
    descriptor that the kernel holds.  On the inotify backend, where
    [close] holds the mutex from its first line, and on the kqueue backend
    when [close] gets the mutex before the dispatcher runs the function
    that [close] has sent, [Close] returns nil, leaves [fdmap] empty and
    has given back each of these descriptors to the kernel.  On the kqueue
    backend when the dispatcher runs that function first, [fdmap] is nil
    by the time [close] ranges over it: [Close] returns nil and the
    watcher is closed, but not one descriptor is given back, the kernel
    holds them all.  In each case no error is reported and the index is
    not touched. *)
Theorem close_watch_descriptors (fs : fnode) (st : sys) (m : gmap Z info) :
  w_fd (wat st) <> -1 -> w_signal (wat st) = [] -> k_open (kern st) = true ->
  w_fdmap (wat st) = Some m -> filed st m ->
  (exists st', Inotify.Close fs st = Some (st', None) /\ all_released m st st')
  /\ (exists st', Kqueue.Close st = Some (st', None) /\ all_released m st st')
  /\ (exists st', Kqueue.close_late st = Some (st', None) /\ none_released m st st').
Proof.
  intros Hfd Hs Ho Em F. split; [|split].
  - now apply inotify_close_releases.
  - now apply kqueue_close_releases.
  - now apply kqueue_close_late_keeps.
Qed.

Lemma close_watch_descriptors_witness :
  (exists st', Kqueue.Close kq_loaded = Some (st', None)
               /\ w_fdmap (wat st') = Some ∅)
  /\ (exists st', Kqueue.close_late kq_loaded = Some (st', None)
                  /\ k_watches (kern st') = k_watches (kern kq_loaded)).
Proof.
  assert (F : filed kq_loaded (default ∅ (w_fdmap (wat kq_loaded)))).
  { apply (bool_decide_unpack _). vm_compute. exact I. }
  destruct kq_loaded_idle as (Hs & Ho & Em).
  destruct (proj2 (close_watch_descriptors fs0 kq_loaded
                     (default ∅ (w_fdmap (wat kq_loaded)))
                     kq_loaded_open Hs Ho Em F))
    as ((st1 & E1 & A & _) & (st2 & E2 & _ & _ & _ & _ & K & _)).
  split; [exists st1|exists st2]; split; assumption.
Defined.

(** X15.  [Load] keeps the index sound and drops nothing: when the names
    of the file system and the path hold no byte 0x00 or 0x01, a
    well-formed index of such paths is again one after [Load], whatever
    [Load] returns, and every path it held is still held, with the same
    file mode and at least the same flags (both backends). *)
Theorem load_keeps_index (fs : fnode) (Filter : info -> bool) (st : sys) (p : path)
    (r : bool) :
  fs_plain fs -> plain p -> index_ok st ->
  (index_ok (fst (Kqueue.Load fs Filter st p r))
   /\ extends (w_tree (wat st)) (w_tree (wat (fst (Kqueue.Load fs Filter st p r)))))
  /\ (index_ok (fst (Inotify.Load fs Filter st p r))
      /\ extends (w_tree (wat st)) (w_tree (wat (fst (Inotify.Load fs Filter st p r))))).
Proof.
  intros Pf Pp Ok. apply Clean_plain in Pp. split.
  - unfold Kqueue.Load.
    destruct (kqueue_load_tree fs Filter st (Clean p) r) as [E | E].
    + destruct (loadImpl_keeps fs Filter Kqueue.watchFilter (Kqueue.add fs)
                  (kqueue_add_writes_watch fs) st (Clean p) (load_flags r) None
                  Kqueue.allFlags Kqueue.allFlags Pf Pp Ok) as ([W P] & X & _).
      unfold index_ok. rewrite E. auto.
    + rewrite E. split; [assumption|apply extends_refl].
  - unfold Inotify.Load.
    destruct (inotify_load_tree fs Filter st (Clean p) r) as [[rf E] | E].
    + destruct (loadImpl_keeps fs Filter Inotify.watchFilter (Inotify.add fs)
                  (inotify_add_writes_watch fs) st (Clean p) (load_flags r) None
                  rf Inotify.allFlags Pf Pp Ok) as ([W P] & X & _).
      unfold index_ok. rewrite E. auto.
    + rewrite E. split; [assumption|apply extends_refl].
Qed.

Lemma load_keeps_index_witness :
  index_ok (fst (Kqueue.Load fs0 accept_all kq_loaded (bytes "/t/a") false))
  /\ extends (w_tree (wat kq_loaded))
             (w_tree (wat (fst (Kqueue.Load fs0 accept_all kq_loaded (bytes "/t/a")
                                            false)))).
Proof.
  refine (proj1 (load_keeps_index fs0 accept_all kq_loaded (bytes "/t/a") false _ _ _)).
  - exact fs0_plain.
  - apply plainb_spec. reflexivity.
  - exact kq_loaded_ok.
Defined.

(** X16.  A [Load] that goes through registers its root: on an open
    watcher, for a directory that [Context.Filter] accepts, the index
    afterwards holds the cleaned path with the flag [explicit] set, and
    [recurse] too when the load is recursive; an entry made by this load
    has the mode of the directory (paths and names without the bytes 0x00
    and 0x01; inotify: a path whose cleaned form holds a separator). *)
Theorem load_registers_root (fs : fnode) (Filter : info -> bool) (st : sys) (p : path)
    (r : bool) (fi : FileInfo) :
  fs_plain fs -> plain p -> index_ok st -> w_fd (wat st) <> -1 ->
  os_Lstat fs (Clean p) = inl fi -> fi_IsDir fi = true ->
  Filter (newInfo (Clean p) fi) = true ->
  registered st (fst (Kqueue.Load fs Filter st p r)) (Clean p) r fi
  /\ (Inotify.hasParentWatch (wat st) (Clean p) <> None ->
      registered st (fst (Inotify.Load fs Filter st p r)) (Clean p) r fi).
Proof.
  intros Pf Pp Ok Hfd El Hd Hf. apply Clean_plain in Pp.
  assert (G : forall wF add rf ofl st',
             add_writes_watch add ->
             w_tree (wat st')
             = w_tree (wat (fst (loadImpl fs Filter wF add st (Clean p) (load_flags r) None
                                          rf ofl))) ->
             registered st st' (Clean p) r fi).
  { intros wF add rf ofl st' Ha E.
    destruct (loadImpl_keeps fs Filter wF add Ha st (Clean p) (load_flags r) None
                rf ofl Pf Pp Ok) as (_ & _ & H).
    destruct (H fi El) as (i & Gi & Fi & Mi); [now rewrite Hd|assumption|].
    exists i. rewrite E. split; [exact Gi|]. split; [exact Fi|].
    intros G0. specialize (Mi G0). split; [exact Mi|].
    unfold IsDir. rewrite Mi. exact Hd. }
  split.
  - unfold Kqueue.Load.
    apply (G Kqueue.watchFilter (Kqueue.add fs) Kqueue.allFlags Kqueue.allFlags);
      [apply kqueue_add_writes_watch|].
    apply (kqueue_load_open fs Filter st (Clean p) r Hfd).
  - intros Hp. unfold Inotify.Load.
    destruct (inotify_load_open fs Filter st (Clean p) r Hfd Hp) as [rf E].
    apply (G Inotify.watchFilter (Inotify.add fs) rf Inotify.allFlags);
      [apply inotify_add_writes_watch|exact E].
Qed.

Lemma load_registers_root_witness :
  registered new_sys kq_loaded (bytes "/t") true (mkFileInfo (Z.lor 420 ModeDir) 0 0).
Proof.
  refine (proj1 (load_registers_root fs0 accept_all new_sys (bytes "/t") true
                   (mkFileInfo (Z.lor 420 ModeDir) 0 0) _ _ _ _ _ _ _)).
  - simpl. repeat split; apply plainb_spec; reflexivity.
  - apply plainb_spec. reflexivity.
  - split; [exact I|intros i []].
  - discriminate.
  - reflexivity.
  - reflexivity.
  - reflexivity.
Defined.

(** X17.  A recursive [Unload] of a watched entry, as far as the index
    goes (both backends, paths without the bytes 0x00 and 0x01): when the
    entry is not a directory or has no entry below it, just this entry
    leaves the index; when it is a directory with an entry below it, the
    whole index is empty afterwards, so that [get] finds none of the paths
    loaded before, also none outside the directory. *)
Theorem unload_recursive (fs : fnode) (Filter : info -> bool) (st st' : sys) (p : path)
    (nfo : info) (fd : Z) :
  index_ok st -> w_fd (wat st) <> -1 ->
  get (w_tree (wat st)) (Clean p) = Some nfo -> watch nfo = Some fd ->
  st' = fst (Kqueue.Unload st p true)
  \/ st' = fst (Inotify.Unload fs Filter st p true) ->
  (IsDir nfo = true ->
   (exists x, In x (entries (w_tree (wat st))) /\ below (Clean p) x = true) ->
   w_tree (wat st') = None)
  /\ (IsDir nfo = false
      \/ (forall x, In x (entries (w_tree (wat st))) -> below (Clean p) x = false) ->
      forall q, get (w_tree (wat st')) q
                = if path_eqb q (Clean p) then None else get (w_tree (wat st)) q).
Proof.
  intros [W P] Hfd G Hw Hst.
  assert (E : w_tree (wat st')
              = fst (deleteAll (option_map (fun r => set_leaf r (with_watch nfo None))
                                           (w_tree (wat st)))
                               (Clean p) (fun _ (s : unit) => s) tt)).
  { destruct Hst as [-> | ->].
    - unfold Kqueue.Unload. now apply (kqueue_unload_tree st (Clean p) nfo fd).
    - unfold Inotify.Unload. now apply (inotify_unload_tree fs Filter st (Clean p) nfo fd). }
  rewrite E. now apply unload_recursive_index.
Qed.

Lemma unload_recursive_witness :
  w_tree (wat (fst (Kqueue.Unload kq_loaded (bytes "/t/a") true))) = None.
Proof.
  refine (proj1 (unload_recursive fs0 accept_all kq_loaded _ (bytes "/t/a")
                   (mkInfo (Some 2) (bytes "/t/a") (Z.lor 420 ModeDir) 0 0 0) 2
                   kq_loaded_ok kq_loaded_open _ eq_refl (or_introl eq_refl)) eq_refl _).
  - vm_compute. reflexivity.
  - exists (mkInfo (Some 3) (bytes "/t/a/x") 420 0 0 0). split; [|reflexivity].
    vm_compute. auto.
Defined.

(** ** The event handlers *)

(** X18.  A delete event ([handle] of either backend with a delete flag in
    the mask; on inotify also [IN_IGNORED], and the path is that of the
    watch joined with the name of the event): [Delete] is reported once
    for the entry of the path and, for a directory, for each entry below
    it, in the order of the index; these entries are gone from the index
    and their descriptors from [fdmap]; no error is reported, and the
    kernel's descriptors are left open. *)
Theorem delete_event (fs : fnode) (Filter : info -> bool) (st : sys) (mask : Z)
    (nfo : info) (name : path) :
  index_ok st ->
  (Z.land mask KqueueRun.deleteFlags <> 0 ->
   reports_delete st (KqueueRun.handle fs Filter st mask nfo) (ipath nfo))
  /\ (Z.land mask (Z.lor Inotify.deleteFlags InotifyRun.IN_IGNORED) <> 0 ->
      reports_delete st (InotifyRun.handle fs Filter st mask nfo name)
        (match name with
         | [] => ipath nfo
         | _ :: _ => Join (ipath nfo) name
         end)).
Proof.
  intros Ok. split; intros Hm; apply Z.eqb_neq in Hm.
  - unfold KqueueRun.handle. rewrite Hm. now apply handle_delete_reports.
  - unfold InotifyRun.handle. destruct name as [|b name]; rewrite Hm;
      now apply handle_delete_reports.
Qed.

Lemma delete_event_witness :
  w_events (wat (InotifyRun.handle fs0 accept_all in_loaded Inotify.IN_DELETE
                   (mkInfo (Some 1) (bytes "/t") (Z.lor 420 ModeDir) 0 0 6) (bytes "b")))
  = [(Delete, mkInfo None (bytes "/t/b") 420 0 0 0)].
Proof.
  destruct (proj2 (delete_event fs0 accept_all in_loaded Inotify.IN_DELETE
                     (mkInfo (Some 1) (bytes "/t") (Z.lor 420 ModeDir) 0 0 6) (bytes "b")
                     in_loaded_ok) ltac:(discriminate)) as (E & _).
  rewrite E. reflexivity.
Defined.

(** X19.  A modify event on an entry that the index holds ([handle] with
    no delete flag in the mask; on kqueue for a file, or a directory
    without a modify flag): when [os.Lstat] succeeds, the entry takes the
    new mode, time and size, [Modify] is reported once, for the updated
    entry, and every other path is as before; when the file is gone,
    nothing is reported and the watcher stays as it was. *)
Theorem modify_event (fs : fnode) (Filter : info -> bool) (st : sys) (mask : Z)
    (nfo : info) (name : path) :
  (get (w_tree (wat st)) (ipath nfo) = Some nfo ->
   Z.land mask KqueueRun.deleteFlags = 0 ->
   IsDir nfo = false \/ Z.land mask KqueueRun.modifyFlags = 0 ->
   reports_modify fs st (KqueueRun.handle fs Filter st mask nfo) (ipath nfo) nfo)
  /\ (get (w_tree (wat st)) (ipath nfo) = Some nfo ->
      Z.land mask (Z.lor Inotify.deleteFlags InotifyRun.IN_IGNORED) = 0 ->
      reports_modify fs st (InotifyRun.handle fs Filter st mask nfo []) (ipath nfo) nfo)
  /\ (forall fi, name <> [] ->
        get (w_tree (wat st)) (Join (ipath nfo) name) = Some fi ->
        Z.land mask (Z.lor Inotify.deleteFlags InotifyRun.IN_IGNORED) = 0 ->
        reports_modify fs st (InotifyRun.handle fs Filter st mask nfo name)
                       (Join (ipath nfo) name) fi).
Proof.
  split; [|split].
  - intros G Hd Hm. unfold KqueueRun.handle. rewrite Hd. simpl.
    replace (IsDir nfo && negb (Z.land mask KqueueRun.modifyFlags =? 0)) with false.
    + now apply handle_modify_reports.
    + destruct Hm as [-> | ->]; [reflexivity|symmetry; apply andb_false_r].
  - intros G Hd. unfold InotifyRun.handle. rewrite Hd. simpl.
    now apply handle_modify_reports.
  - intros fi Hn G Hd. unfold InotifyRun.handle.
    destruct name as [|b name]; [contradiction|]. rewrite Hd. simpl negb. cbv iota.
    rewrite G. now apply handle_modify_reports.
Qed.

Lemma modify_event_witness :
  w_events (wat (InotifyRun.handle fs0 accept_all in_loaded Inotify.IN_ATTRIB
                   (mkInfo (Some 1) (bytes "/t") (Z.lor 420 ModeDir) 0 0 6) (bytes "b")))
  = [(Modify, mkInfo None (bytes "/t/b") 420 0 0 0)].
Proof.
  pose proof (proj2 (proj2 (modify_event fs0 accept_all in_loaded Inotify.IN_ATTRIB
                              (mkInfo (Some 1) (bytes "/t") (Z.lor 420 ModeDir) 0 0 6)
                              (bytes "b")))
                (mkInfo None (bytes "/t/b") 420 0 0 0) ltac:(discriminate)
                eq_refl eq_refl) as H.
  exact (proj1 H).
Defined.

(** ** [Load] and the file system *)

(** X20.  [Load] mirrors the directory into the index.  On an open
    watcher, for a directory that [Context.Filter] accepts and that, like
    the files its walk reaches, is new to the index, [Load] returns nil and
    the index afterwards holds: the directory, flagged [explicit] (and
    [recurse]); every file and directory in it, and for a recursive load
    every file and directory below each accepted directory, with the mode,
    time and size of the file system, those that the filter rejects
    flagged [ignored]; and every other path as before (names and paths
    without the bytes 0x00 and 0x01, no two files of the walk under the
    same path; inotify: a path whose cleaned form holds a separator). *)
Theorem load_mirrors (fs : fnode) (Filter : info -> bool) (st : sys) (p : path)
    (r : bool) (fi : FileInfo) (es : fents) :
  fs_plain fs -> plain p -> index_ok st -> w_fd (wat st) <> -1 ->
  fs_find fs (split_sep (Clean p)) = Some (FDir fi es) ->
  Filter (newInfo (Clean p) (node_info (FDir fi es))) = true ->
  NoDup (Clean p :: map fst (listed_ents Filter r es (Clean p))) ->
  (forall q, In q (Clean p :: map fst (listed_ents Filter r es (Clean p))) ->
             get (w_tree (wat st)) q = None) ->
  (snd (Kqueue.Load fs Filter st p r) = None
   /\ mirrors Filter st (fst (Kqueue.Load fs Filter st p r)) (Clean p) r
              (node_info (FDir fi es)) (listed_ents Filter r es (Clean p)))
  /\ (Inotify.hasParentWatch (wat st) (Clean p) <> None ->
      snd (Inotify.Load fs Filter st p r) = None
      /\ mirrors Filter st (fst (Inotify.Load fs Filter st p r)) (Clean p) r
                 (node_info (FDir fi es)) (listed_ents Filter r es (Clean p))).
Proof.
  intros Pf Pp Ok Hfd Ef HF N Fr. apply Clean_plain in Pp.
  apply Z.eqb_neq in Hfd. split.
  - unfold Kqueue.Load, Kqueue.load. rewrite Hfd.
    destruct (loadImpl_load_mirrors fs Filter Kqueue.watchFilter (Kqueue.add fs) st
                (Clean p) r Kqueue.allFlags Kqueue.allFlags fi es
                (kqueue_add_writes_watch fs) (kqueue_add_only_watch fs)
                Pf Pp Ok Ef HF N Fr) as (st' & -> & M).
    simpl. now split.
  - intros Hp. unfold Inotify.Load, Inotify.load.
    destruct (Inotify.hasParentWatch (wat st) (Clean p)) as [b|]; [|contradiction].
    rewrite Hfd.
    destruct (loadImpl_load_mirrors fs Filter Inotify.watchFilter (Inotify.add fs) st
                (Clean p) r
                (if b then Inotify.allFlags
                 else Z.lor Inotify.allFlags Inotify.IN_DELETE_SELF)
                Inotify.allFlags fi es
                (inotify_add_writes_watch fs) (inotify_add_only_watch fs)
                Pf Pp Ok Ef HF N Fr) as (st' & -> & M).
    simpl. now split.
Qed.

Lemma load_mirrors_witness :
  snd (Inotify.Load fs0 accept_all new_sys (bytes "/t") true) = None
  /\ mirrors accept_all new_sys in_loaded (bytes "/t") true
       (mkFileInfo (Z.lor 420 ModeDir) 0 0)
       [(bytes "/t/a", mkFileInfo (Z.lor 420 ModeDir) 0 0);
        (bytes "/t/a/x", mkFileInfo 420 0 0); (bytes "/t/b", mkFileInfo 420 0 0)].
Proof.
  refine (proj2 (load_mirrors fs0 accept_all new_sys (bytes "/t") true some_stat
                   (fcons (bytes "a")
                      (FDir some_stat (fcons (bytes "x") (FFile some_stat) fnil))
                      (fcons (bytes "b") (FFile some_stat) fnil))
                   _ _ _ _ eq_refl eq_refl _ _) _).
  - simpl. repeat split; apply plainb_spec; reflexivity.
  - apply plainb_spec. reflexivity.
  - split; [exact I|intros i []].
  - discriminate.
  - apply (bool_decide_unpack _). vm_compute. exact I.
  - intros q _. reflexivity.
  - vm_compute. discriminate.
Defined.

(** ** More on [insert] and [Load] *)

(** X21.  [insert] never loses or reorders an entry, whatever bytes the
    paths hold and whatever the shape of the tree: it either returns an
    entry that the index holds and leaves the index as it is, or it returns
    nil and the entries afterwards are the entries before, in their order,
    with the new entry put in at one place. *)
Theorem insert_keeps_entries (t : tree) (i : info) :
  match insert t i with
  | (t', Some d) => t' = t /\ In d (entries t)
  | (t', None) =>
      exists l1 l2, entries t = l1 ++ l2 /\ entries t' = l1 ++ i :: l2
  end.
Proof.
  destruct t as [r|]; simpl; [|now exists [], []].
  destruct (find_byte (ipath (best r (ipath i))) (ipath i)) as [[[off ch] bit0]|].
  - simpl. apply insert_at_splits.
  - split; [reflexivity|]. simpl. apply best_in.
Qed.

(** X22.  Loading what is loaded changes nothing: on an open watcher
    whose index holds the directory with the flags of the load, and every
    file that the directory has in the file system, [Load] returns nil and
    leaves the watcher exactly as it was: no entry, flag, watch or event is
    added (index with the crit-bit invariant, sharing its entries with
    [fdmap]; inotify: a path whose cleaned form holds a separator). *)
Theorem load_again (fs : fnode) (Filter : info -> bool) (st : sys) (p : path) (r : bool)
    (fi : FileInfo) (es : fents) (d : info) :
  wf_tree (w_tree (wat st)) -> shared st -> w_fd (wat st) <> -1 ->
  fs_find fs (split_sep (Clean p)) = Some (FDir fi es) ->
  get (w_tree (wat st)) (Clean p) = Some d -> has_flags (flags d) (load_flags r) ->
  fents_known (w_tree (wat st)) (Clean p) es ->
  Kqueue.Load fs Filter st p r = (st, None)
  /\ (Inotify.hasParentWatch (wat st) (Clean p) <> None ->
      Inotify.Load fs Filter st p r = (st, None)).
Proof.
  intros Wf Sh Hfd Ef G Hf K. apply Z.eqb_neq in Hfd. split.
  - unfold Kqueue.Load, Kqueue.load. rewrite Hfd.
    rewrite (loadImpl_again fs Filter Kqueue.watchFilter (Kqueue.add fs) st (Clean p)
               (load_flags r) None Kqueue.allFlags Kqueue.allFlags fi es Wf Sh Ef).
    + reflexivity.
    + exists d. now split.
    + now apply fents_known_all.
  - intros Hp. unfold Inotify.Load, Inotify.load.
    destruct (Inotify.hasParentWatch (wat st) (Clean p)) as [b|]; [|contradiction].
    rewrite Hfd.
    rewrite (loadImpl_again fs Filter Inotify.watchFilter (Inotify.add fs) st (Clean p)
               (load_flags r) None
               (if b then Inotify.allFlags
                else Z.lor Inotify.allFlags Inotify.IN_DELETE_SELF)
               Inotify.allFlags fi es Wf Sh Ef).
    + reflexivity.
    + exists d. now split.
    + now apply fents_known_all.
Qed.

Lemma load_again_witness :
  Kqueue.Load fs0 accept_all kq_loaded (bytes "/t") true = (kq_loaded, None).
Proof.
  refine (proj1 (load_again fs0 accept_all kq_loaded (bytes "/t") true some_stat
                   (fcons (bytes "a")
                      (FDir some_stat (fcons (bytes "x") (FFile some_stat) fnil))
                      (fcons (bytes "b") (FFile some_stat) fnil))
                   (mkInfo (Some 1) (bytes "/t") (Z.lor 420 ModeDir) 0 0 6)
                   (proj1 kq_loaded_ok) _ kq_loaded_open _ _ _ _)).
  - apply (bool_decide_unpack _). vm_compute. exact I.
  - vm_compute. reflexivity.
  - vm_compute. reflexivity.
  - vm_compute. reflexivity.
  - cbn [fents_known].
    repeat match goal with
           | |- _ /\ _ => split
           | |- True => exact I
           | |- _ <> _ => vm_compute; discriminate
           | |- is_Some _ => eexists; vm_compute; reflexivity
           end.
Defined.

(** X23.  On kqueue a modify event on a watched directory scans the
    directory again, and the scan stops at the first file that the index
    already holds: when the index holds the entries of the directory up to
    and including the first one that is not a directory, [handle] changes
    nothing and reports nothing, whatever entries follow in the directory,
    so that a file created behind a known file goes unnoticed (index with
    the crit-bit invariant, sharing its entries with [fdmap]). *)
Theorem rescan_stops_at_known_file (fs : fnode) (Filter : info -> bool) (st : sys)
    (mask : Z) (d : info) (fi : FileInfo) (es : fents) :
  wf_tree (w_tree (wat st)) -> shared st ->
  get (w_tree (wat st)) (ipath d) = Some d -> IsDir d = true ->
  Z.land mask KqueueRun.deleteFlags = 0 -> Z.land mask KqueueRun.modifyFlags <> 0 ->
  fs_find fs (split_sep (ipath d)) = Some (FDir fi es) ->
  fents_known_until (w_tree (wat st)) (ipath d) es ->
  KqueueRun.handle fs Filter st mask d = st.
Proof.
  intros Wf Sh G D Hd Hm Ef K. apply Z.eqb_neq in Hm.
  unfold KqueueRun.handle, handle_create. rewrite Hd, D, Hm. simpl negb. cbv iota.
  rewrite (loadImpl_again fs Filter Kqueue.watchFilter (Kqueue.add fs) st (ipath d)
             (Z.land (flags d) recurse) (Some Create) KqueueRun.allFlags
             KqueueRun.allFlags fi es Wf Sh Ef).
  - reflexivity.
  - exists d. split; [exact G|apply has_flags_land].
  - exact K.
Qed.

Lemma rescan_stops_at_known_file_witness :
  fs_find fs1 (split_sep (bytes "/t/c")) = Some (FFile some_stat)
  /\ KqueueRun.handle fs1 accept_all kq_loaded KqueueRun.NOTE_WRITE
       (mkInfo (Some 1) (bytes "/t") (Z.lor 420 ModeDir) 0 0 6) = kq_loaded.
Proof.
  split; [reflexivity|].
  refine (rescan_stops_at_known_file fs1 accept_all kq_loaded KqueueRun.NOTE_WRITE
            (mkInfo (Some 1) (bytes "/t") (Z.lor 420 ModeDir) 0 0 6) some_stat
            (fcons (bytes "a")
               (FDir some_stat (fcons (bytes "x") (FFile some_stat) fnil))
               (fcons (bytes "b") (FFile some_stat)
                  (fcons (bytes "c") (FFile some_stat) fnil)))
            (proj1 kq_loaded_ok) _ _ eq_refl eq_refl _ eq_refl _).
  - apply (bool_decide_unpack _). vm_compute. exact I.
  - vm_compute. reflexivity.
  - discriminate.
  - cbn [fents_known_until node_isdir].
    repeat match goal with
           | |- _ /\ _ => split
           | |- True => exact I
           | |- _ <> _ => vm_compute; discriminate
           | |- is_Some _ => eexists; vm_compute; reflexivity
           end.
Defined.

(** X24.  For an index whose paths hold no byte 0x00 or 0x01, [walk] calls
    the visitor in the order of a depth-first walk of the file system and
    leaves nothing out.  Whatever the visitor returns, the paths of the
    entries it is called on are strictly increasing when compared
    component by component, each component byte-wise, so that a directory
    comes before everything under it and the children of a directory come
    in the byte order of their names.  A visitor that always returns nil
    is called on every entry of the subtree that is not ignored, and these
    entries are in that order. *)
Theorem walk_order_plain {S} (t : tree) (root : path) (f : @visitor S) (s : S) :
  wf_tree t -> plain_tree t ->
  StronglySorted entry_before (map fst (walk_calls t root f s))
  /\ ((forall i s', snd (f i s') = None) ->
      map fst (walk_calls t root f s) = visible t root
      /\ StronglySorted entry_before (visible t root)).
Proof.
  intros W P. split; [now apply walk_sorted|].
  intros Hf. destruct (walk_calls_all t root f s W P Hf) as [E _].
  split; [exact E|]. rewrite <- E. now apply walk_sorted.
Qed.

Lemma walk_order_plain_witness :
  map (fun c => ipath (fst c)) (walk_calls (index_of nested_entries) (bytes "/t") go_on tt)
  = [bytes "/t"; bytes "/t/a"; bytes "/t/a/x"; bytes "/t/ax"]
  /\ StronglySorted entry_before (visible (index_of nested_entries) (bytes "/t")).
Proof.
  destruct (walk_order_plain (index_of nested_entries) (bytes "/t") go_on tt
              (proj1 (index_of_wf_b nested_entries eq_refl))
              (proj2 (index_of_wf_b nested_entries eq_refl))) as [_ H].
  destruct (H (fun _ _ => eq_refl)) as [E So].
  split; [|exact So]. rewrite <- (map_map fst ipath), E. reflexivity.
Defined.

(** X25.  [insert] on an index and an entry whose paths hold no byte 0x00
    or 0x01: when the index holds an entry at exactly the path of [e],
    [insert] returns that entry and leaves the index as it is; otherwise
    it returns nil and stores [e].  Afterwards [get] finds an entry at the
    path of [e], the entry at every other path is as before, and the index
    still satisfies the crit-bit invariant with plain paths. *)
Theorem insert_plain (t : tree) (e : info) :
  wf_tree t -> plain_tree t -> plain (ipath e) ->
  (forall d, get t (ipath e) = Some d -> insert t e = (t, Some d))
  /\ (get t (ipath e) = None ->
      snd (insert t e) = None /\ get (fst (insert t e)) (ipath e) = Some e)
  /\ is_Some (get (fst (insert t e)) (ipath e))
  /\ (forall q, q <> ipath e -> get (fst (insert t e)) q = get t q)
  /\ wf_tree (fst (insert t e)) /\ plain_tree (fst (insert t e)).
Proof.
  intros W P Pe. split; [|split; [|split; [|split]]].
  - intros d G. now apply insert_found.
  - intros G. split; [|now apply insert_get].
    destruct (insert_fresh t e W P Pe G) as (t' & -> & _). reflexivity.
  - destruct (get t (ipath e)) as [d|] eqn:G.
    + rewrite (insert_found t e d W G). simpl. rewrite G. eauto.
    + rewrite insert_get by assumption. eauto.
  - intros q Hq. now apply insert_other.
  - now apply insert_wf.
Qed.

Lemma insert_plain_witness :
  snd (insert (index_of c6_entries) (entry (bytes "/t/c") false 0)) = None
  /\ get (fst (insert (index_of c6_entries) (entry (bytes "/t/c") false 0)))
         (bytes "/t/c") = Some (entry (bytes "/t/c") false 0).
Proof.
  refine (proj1 (proj2 (insert_plain (index_of c6_entries)
                                     (entry (bytes "/t/c") false 0) _ _ _)) _).
  - apply (index_of_wf_b c6_entries). reflexivity.
  - apply (index_of_wf_b c6_entries). reflexivity.
  - apply plainb_spec. reflexivity.
  - reflexivity.
Defined.
